(** * SimpleVector: a shallow embedding of cpp-simple-vector

    The repository holds an owning array handle, [ArrayPtr<Type>]
    (src/unnamed/part_000), and two versions of the dynamic array built on
    it, [SimpleVector<Type>] (src/simple-vector/simple_vector.h and
    src/unnamed/part_001).

    The embedding keeps the memory the C++ code works on explicit:
    - the free store is a finite map from block addresses to arrays of
      elements; [new Type[n]] adds a block, [delete[]] removes it, and an
      access to a block that is gone is undefined behaviour;
    - a [Type*] is a block address (or [nullptr]) with an offset, so
      iterators, references to elements and stale pointers are values of the
      model;
    - the vector objects of a program live in a store of their own, indexed
      by the name of the variable, so that [this != &rhs] is a comparison of
      names;
    - [size_t] is a number below [2 ^ size_bits]; products, increments and
      decrements are reduced modulo that bound;
    - a method is a function from worlds to outcomes: normal return, a
      thrown exception, or undefined behaviour (which includes a failed
      [assert]);
    - the element type is one whose default constructor, copy assignment
      and move assignment do not throw, as for [int]: the exceptions of the
      model are the [bad_alloc] of [new Type[n]] and the [out_of_range] of
      [At].  What the vectors do when an element operation throws halfway
      through a method is outside the embedding. *)

From stdpp Require Import base tactics option numbers list fin_maps gmap.

Set Default Proof Using "Type".

(** ** Parameters of the embedding *)

(** The element type of the template.  [Type_default] is [Type()],
    [new_slot] is the content of a slot right after [new Type[n]] (the
    default value for a class type, an indeterminate value for a scalar),
    and [moved_from x] is the state in which a move leaves an element that
    held [x] (the identity for trivially copyable types).  [Type()] and
    the two assignments of [Type] are taken not to throw. *)
Class Elem (T : Type) := {
  Type_default : T;
  new_slot : T;
  moved_from : T → T
}.

(** The platform: the width of [size_t] and the largest array the
    allocator hands out.  No object can span more than half of the address
    space, which is [max_elems_fits]. *)
Class Platform := {
  size_bits : N;
  max_elems : N;
  max_elems_fits : (2 * max_elems < 2 ^ size_bits)%N
}.

Abbreviation loc := nat (only parsing).
Abbreviation var := nat (only parsing).

(** [Type*]: [nullptr] is [Ptr None 0]. *)
Record ptr := Ptr { blk : option loc; off : nat }.

Global Instance ptr_eq_dec : EqDecision ptr.
Proof. solve_decision. Defined.

Definition ptr_add (p : ptr) (n : nat) : ptr := Ptr (blk p) (off p + n).
Definition ptr_sub (p : ptr) (n : nat) : ptr := Ptr (blk p) (off p - n).

(** The three data members of [SimpleVector]; [data_] is the [raw_ptr_] of
    the [ArrayPtr] member. *)
Record SimpleVector := mkVec {
  size_ : N;
  capacity_ : N;
  data_ : option loc
}.

Global Instance SimpleVector_eq_dec : EqDecision SimpleVector.
Proof. solve_decision. Defined.

Inductive exn := out_of_range | bad_alloc.

Global Instance exn_eq_dec : EqDecision exn.
Proof. solve_decision. Defined.

Section memory.
Context {T : Type} `{!Elem T} `{!Platform}.

Record world := World {
  objs : gmap var SimpleVector;
  heap : gmap loc (list T);
  next : loc
}.

Inductive outcome (A : Type) :=
  | Ok (a : A) (w : world)
  | Throw (e : exn) (w : world)
  | Undefined.
Global Arguments Ok {A} a w.
Global Arguments Throw {A} e w.
Global Arguments Undefined {A}.

Definition M (A : Type) : Type := world → outcome A.

Global Instance M_ret : MRet M := λ A a w, Ok a w.
Global Instance M_bind : MBind M := λ A B f m w,
  match m w with
  | Ok a w' => f a w'
  | Throw e w' => Throw e w'
  | Undefined => Undefined
  end.

Definition throw {A} (e : exn) : M A := λ w, Throw e w.
Definition undefined {A} : M A := λ _, Undefined.

(** *** [size_t] arithmetic *)

Definition size_modulus : N := (2 ^ size_bits)%N.
Definition wrap (n : N) : N := (n mod size_modulus)%N.
(** [n * 2], [++n] and [--n] on a [size_t]. *)
Definition size_double (n : N) : N := wrap (n * 2).
Definition size_incr (n : N) : N := wrap (n + 1).
Definition size_decr (n : N) : N := wrap (n + (size_modulus - 1)).

(** *** The store of vector objects *)

Definition obj (x : var) : M SimpleVector := λ w,
  match objs w !! x with
  | Some v => Ok v w
  | None => Undefined
  end.

Definition put (x : var) (v : SimpleVector) : M unit := λ w,
  Ok tt (World (<[x := v]> (objs w)) (heap w) (next w)).

(** A declaration introduces a name that is not in use. *)
Definition declare (x : var) : M unit := λ w,
  match objs w !! x with
  | Some _ => Undefined
  | None => Ok tt w
  end.

Definition forget (x : var) : M unit := λ w,
  Ok tt (World (delete x (objs w)) (heap w) (next w)).

(** A local object lives under a name no other object has. *)
Definition with_local {A} (f : var → M A) : M A := λ w,
  f (fresh (dom (objs w))) w.

Definition set_size (x : var) (n : N) : M unit :=
  v ← obj x; put x (mkVec n (capacity_ v) (data_ v)).
Definition set_capacity (x : var) (n : N) : M unit :=
  v ← obj x; put x (mkVec (size_ v) n (data_ v)).
Definition set_data (x : var) (d : option loc) : M unit :=
  v ← obj x; put x (mkVec (size_ v) (capacity_ v) d).

(** *** The free store *)

Definition cell (w : world) (p : ptr) : option T :=
  l ← blk p; b ← heap w !! l; b !! off p.

Definition load (p : ptr) : M T := λ w,
  match cell w p with
  | Some x => Ok x w
  | None => Undefined
  end.

Definition store (p : ptr) (x : T) : M unit := λ w,
  match blk p with
  | Some l =>
      match heap w !! l with
      | Some b =>
          if decide (off p < length b)
          then Ok tt (World (objs w) (<[l := <[off p := x]> b]> (heap w)) (next w))
          else Undefined
      | None => Undefined
      end
  | None => Undefined
  end.

(** [last - first] for the two ends of a range: both point into the same
    array (or both are null) and [first] does not lie behind [last]. *)
Definition ptr_diff (last first : ptr) : M nat := λ w,
  if decide (blk last = blk first ∧ off first ≤ off last)
  then Ok (off last - off first) w
  else Undefined.

(** *** ArrayPtr (part_000) *)

(** [explicit ArrayPtr(size_t size)]:
    [raw_ptr_ = size ? new Type[size] : nullptr].  [new] throws for a
    request the allocator cannot serve. *)
Definition ArrayPtr_new (size : N) : M (option loc) := λ w,
  if (size =? 0)%N then Ok None w
  else if (max_elems <? size)%N then Throw bad_alloc w
  else Ok (Some (next w))
          (World (objs w)
                 (<[next w := replicate (N.to_nat size) new_slot]> (heap w))
                 (S (next w))).

(** [~ArrayPtr()]: [delete[] raw_ptr_]. *)
Definition ArrayPtr_delete (a : option loc) : M unit := λ w,
  match a with
  | None => Ok tt w
  | Some l =>
      match heap w !! l with
      | Some _ => Ok tt (World (objs w) (delete l (heap w)) (next w))
      | None => Undefined
      end
  end.

(** [Type& operator[](size_t index)]: [raw_ptr_[index]], unchecked. *)
Definition ArrayPtr_index (a : option loc) (index : N) : ptr :=
  Ptr a (N.to_nat index).

(** [Type* Get()]. *)
Definition ArrayPtr_Get (a : option loc) : ptr := Ptr a 0.

(** *** Arguments passed by reference *)

(** A [const Type&] or [Type&&] parameter is bound either to a temporary
    holding a value or to an element that lives in some block. *)
Inductive ref := RVal (x : T) | RPtr (p : ptr).

Definition read_ref (r : ref) : M T :=
  match r with
  | RVal x => mret x
  | RPtr p => load p
  end.

(** [*dst = src] (copy assignment, [mv = false]) and
    [*dst = std::move(src)] ([mv = true]), which leaves the source
    moved-from.  The assignment of [Type] itself always returns: element
    types whose assignment can throw are not modelled. *)
Definition assign (mv : bool) (dst : ptr) (src : ref) : M unit :=
  x ← read_ref src;
  store dst x;;
  match mv, src with
  | true, RPtr p => store p (moved_from x)
  | _, _ => mret tt
  end.

(** *** The algorithms of <algorithm> the vector uses *)

Fixpoint move_n (n : nat) (first d_first : ptr) : M unit :=
  match n with
  | O => mret tt
  | S n' =>
      assign true d_first (RPtr first);;
      move_n n' (ptr_add first 1) (ptr_add d_first 1)
  end.

(** [std::move(first, last, d_first)]. *)
Definition std_move (first last d_first : ptr) : M unit :=
  n ← ptr_diff last first; move_n n first d_first.

Fixpoint move_backward_n (n : nat) (last d_last : ptr) : M unit :=
  match n with
  | O => mret tt
  | S n' =>
      assign true (ptr_sub d_last 1) (RPtr (ptr_sub last 1));;
      move_backward_n n' (ptr_sub last 1) (ptr_sub d_last 1)
  end.

(** [std::move_backward(first, last, d_last)]. *)
Definition std_move_backward (first last d_last : ptr) : M unit :=
  n ← ptr_diff last first; move_backward_n n last d_last.

Fixpoint copy_n (n : nat) (first d_first : ptr) : M unit :=
  match n with
  | O => mret tt
  | S n' =>
      assign false d_first (RPtr first);;
      copy_n n' (ptr_add first 1) (ptr_add d_first 1)
  end.

(** [std::copy(first, last, d_first)] between two arrays of the store. *)
Definition std_copy (first last d_first : ptr) : M unit :=
  n ← ptr_diff last first; copy_n n first d_first.

(** [std::copy(init.begin(), init.end(), d_first)]: the source is the
    array behind an initializer list, which is not part of the store. *)
Fixpoint copy_list (init : list T) (d_first : ptr) : M unit :=
  match init with
  | [] => mret tt
  | x :: init' => store d_first x;; copy_list init' (ptr_add d_first 1)
  end.

Fixpoint fill_n (n : nat) (first : ptr) (value : T) : M unit :=
  match n with
  | O => mret tt
  | S n' => store first value;; fill_n n' (ptr_add first 1) value
  end.

(** [std::fill(first, last, value)]. *)
Definition std_fill (first last : ptr) (value : T) : M unit :=
  n ← ptr_diff last first; fill_n n first value.

(** [for (size_t i = from; i < to; ++i) a[i] = Type();] *)
Definition default_range (a : option loc) (from to : N) : M unit :=
  fill_n (N.to_nat (to - from)) (ArrayPtr_index a from) Type_default.

End memory.

Global Arguments world T : clear implicits.
Global Arguments outcome T A : clear implicits.
Global Arguments M T A : clear implicits.
Global Arguments ref T : clear implicits.

(** ** src/simple-vector/simple_vector.h *)

Module SimpleVectorH.
Section methods.
Context {T : Type} `{!Elem T} `{!Platform}.

Local Abbreviation M := (M T).

(** [begin()], [end()] (and [cbegin()], [cend()], which have the same
    bodies) of a vector whose members are [v]. *)
Definition begin_of (v : SimpleVector) : ptr := ArrayPtr_Get (data_ v).
Definition end_of (v : SimpleVector) : ptr :=
  ptr_add (ArrayPtr_Get (data_ v)) (N.to_nat (size_ v)).

Definition begin (this : var) : M ptr := v ← obj this; mret (begin_of v).
Definition end_ (this : var) : M ptr := v ← obj this; mret (end_of v).

(** [SimpleVector() noexcept = default] *)
Definition SimpleVector_default (this : var) : M unit :=
  declare this;; put this (mkVec 0 0 None).

(** [explicit SimpleVector(ReserveProxy proxy)] *)
Definition SimpleVector_reserve (this : var) (proxy_capacity : N) : M unit :=
  declare this;;
  data ← ArrayPtr_new proxy_capacity;
  put this (mkVec 0 proxy_capacity data).

(** [explicit SimpleVector(size_t size)] *)
Definition SimpleVector_size (this : var) (size : N) : M unit :=
  declare this;;
  data ← ArrayPtr_new size;
  put this (mkVec size size data);;
  if (0 <? size)%N
  then std_fill (ArrayPtr_Get data) (ptr_add (ArrayPtr_Get data) (N.to_nat size))
                Type_default
  else mret tt.

(** [SimpleVector(size_t size, const Type& value)] *)
Definition SimpleVector_fill (this : var) (size : N) (value : T) : M unit :=
  declare this;;
  data ← ArrayPtr_new size;
  put this (mkVec size size data);;
  if (0 <? size)%N
  then std_fill (ArrayPtr_Get data) (ptr_add (ArrayPtr_Get data) (N.to_nat size))
                value
  else mret tt.

(** [SimpleVector(std::initializer_list<Type> init)] *)
Definition SimpleVector_init (this : var) (init : list T) : M unit :=
  declare this;;
  data ← ArrayPtr_new (N.of_nat (length init));
  put this (mkVec (N.of_nat (length init)) (N.of_nat (length init)) data);;
  if (0 <? N.of_nat (length init))%N
  then copy_list init (ArrayPtr_Get data)
  else mret tt.

(** [SimpleVector(const SimpleVector& other)] *)
Definition SimpleVector_copy (this other : var) : M unit :=
  declare this;;
  o ← obj other;
  data ← ArrayPtr_new (size_ o);
  put this (mkVec (size_ o) (size_ o) data);;
  if (0 <? size_ o)%N
  then std_copy (begin_of o) (end_of o) (ArrayPtr_Get data)
  else mret tt.

(** [SimpleVector(SimpleVector&& other) noexcept]: the members are
    initialised in the order of their declaration, [size_], [capacity_],
    [data_]. *)
Definition SimpleVector_move (this other : var) : M unit :=
  declare this;;
  o ← obj other;
  set_size other 0;;
  set_capacity other 0;;
  set_data other None;;
  put this (mkVec (size_ o) (capacity_ o) (data_ o)).

(** [~SimpleVector() = default] *)
Definition destroy (this : var) : M unit :=
  v ← obj this; ArrayPtr_delete (data_ v);; forget this.

(** [void Clear() noexcept] *)
Definition Clear (this : var) : M unit :=
  _ ← obj this; set_size this 0.

(** [void swap(SimpleVector& other) noexcept] *)
Definition swap (this other : var) : M unit :=
  a ← obj this; b ← obj other;
  set_data this (data_ b);; set_data other (data_ a);;
  set_size this (size_ b);; set_size other (size_ a);;
  set_capacity this (capacity_ b);; set_capacity other (capacity_ a).

(** [SimpleVector& operator=(const SimpleVector& rhs)] *)
Definition assign_copy (this rhs : var) : M unit :=
  _ ← obj this; _ ← obj rhs;
  if decide (this ≠ rhs)
  then with_local (λ temp,
         SimpleVector_copy temp rhs;; swap this temp;; destroy temp)
  else mret tt.

(** [SimpleVector& operator=(SimpleVector&& rhs) noexcept] *)
Definition assign_move (this rhs : var) : M unit :=
  _ ← obj this; _ ← obj rhs;
  if decide (this ≠ rhs)
  then swap this rhs;; Clear rhs
  else mret tt.

(** [void Reserve(size_t new_capacity)] *)
Definition Reserve (this : var) (new_capacity : N) : M unit :=
  v ← obj this;
  if (capacity_ v <? new_capacity)%N then
    new_data ← ArrayPtr_new new_capacity;
    std_move (ArrayPtr_Get (data_ v))
             (ptr_add (ArrayPtr_Get (data_ v)) (N.to_nat (size_ v)))
             (ArrayPtr_Get new_data);;
    set_data this new_data;;
    set_capacity this new_capacity;;
    ArrayPtr_delete (data_ v)
  else mret tt.

Definition GetSize (this : var) : M N := v ← obj this; mret (size_ v).
Definition GetCapacity (this : var) : M N := v ← obj this; mret (capacity_ v).
Definition IsEmpty (this : var) : M bool :=
  v ← obj this; mret (size_ v =? 0)%N.

(** [Type& operator[](size_t index) noexcept] *)
Definition index (this : var) (i : N) : M ptr :=
  v ← obj this; mret (ArrayPtr_index (data_ v) i).

(** [Type& At(size_t index)] *)
Definition At (this : var) (i : N) : M ptr :=
  v ← obj this;
  if (size_ v <=? i)%N then throw out_of_range
  else mret (ArrayPtr_index (data_ v) i).

(** [void Resize(size_t new_size)] *)
Definition Resize (this : var) (new_size : N) : M unit :=
  v ← obj this;
  if (new_size <=? size_ v)%N then set_size this new_size
  else if (new_size <=? capacity_ v)%N then
    default_range (data_ v) (size_ v) new_size;;
    set_size this new_size
  else
    let new_capacity := N.max new_size (size_double (capacity_ v)) in
    new_data ← ArrayPtr_new new_capacity;
    std_move (ArrayPtr_Get (data_ v))
             (ptr_add (ArrayPtr_Get (data_ v)) (N.to_nat (size_ v)))
             (ArrayPtr_Get new_data);;
    default_range new_data (size_ v) new_size;;
    set_data this new_data;;
    set_size this new_size;;
    set_capacity this new_capacity;;
    ArrayPtr_delete (data_ v).

(** The two overloads [void PushBack(const Type& item)] ([mv = false]) and
    [void PushBack(Type&& item)] ([mv = true]) have the same text up to the
    [std::move] around [item]. *)
Definition PushBack_body (mv : bool) (this : var) (item : ref T) : M unit :=
  v ← obj this;
  (if (capacity_ v <=? size_ v)%N then
     let new_capacity :=
       if (capacity_ v =? 0)%N then 1%N else size_double (capacity_ v) in
     new_data ← ArrayPtr_new new_capacity;
     std_move (ArrayPtr_Get (data_ v))
              (ptr_add (ArrayPtr_Get (data_ v)) (N.to_nat (size_ v)))
              (ArrayPtr_Get new_data);;
     assign mv (ArrayPtr_index new_data (size_ v)) item;;
     set_data this new_data;;
     set_capacity this new_capacity;;
     ArrayPtr_delete (data_ v)
   else
     assign mv (ArrayPtr_index (data_ v) (size_ v)) item);;
  v ← obj this;
  set_size this (size_incr (size_ v)).

Definition PushBack : var → ref T → M unit := PushBack_body false.
Definition PushBack_move : var → ref T → M unit := PushBack_body true.

(** [template <typename ValueType> Iterator InsertImpl(ConstIterator pos,
    ValueType&& value)]; [mv] tells whether [std::forward] yields an
    rvalue. *)
Definition InsertImpl (mv : bool) (this : var) (pos : ptr) (value : ref T)
  : M ptr :=
  v ← obj this;
  offset ← ptr_diff pos (begin_of v);
  (if (capacity_ v <=? size_ v)%N then
     let new_capacity :=
       if (capacity_ v =? 0)%N then 1%N else size_double (capacity_ v) in
     new_data ← ArrayPtr_new new_capacity;
     std_move (ArrayPtr_Get (data_ v))
              (ptr_add (ArrayPtr_Get (data_ v)) offset)
              (ArrayPtr_Get new_data);;
     assign mv (ptr_add (ArrayPtr_Get new_data) offset) value;;
     std_move (ptr_add (ArrayPtr_Get (data_ v)) offset)
              (ptr_add (ArrayPtr_Get (data_ v)) (N.to_nat (size_ v)))
              (ptr_add (ptr_add (ArrayPtr_Get new_data) offset) 1);;
     set_data this new_data;;
     set_capacity this new_capacity;;
     ArrayPtr_delete (data_ v)
   else
     std_move_backward
       (ptr_add (ArrayPtr_Get (data_ v)) offset)
       (ptr_add (ArrayPtr_Get (data_ v)) (N.to_nat (size_ v)))
       (ptr_add (ptr_add (ArrayPtr_Get (data_ v)) (N.to_nat (size_ v))) 1);;
     assign mv (ptr_add (ArrayPtr_Get (data_ v)) offset) value);;
  v ← obj this;
  set_size this (size_incr (size_ v));;
  v ← obj this;
  mret (ptr_add (begin_of v) offset).

(** [Iterator Insert(ConstIterator pos, const Type& value)] and
    [Iterator Insert(ConstIterator pos, Type&& value)]. *)
Definition Insert : var → ptr → ref T → M ptr := InsertImpl false.
Definition Insert_move : var → ptr → ref T → M ptr := InsertImpl true.

(** [void PopBack() noexcept]: [assert(size_ > 0); --size_;] *)
Definition PopBack (this : var) : M unit :=
  v ← obj this;
  if (0 <? size_ v)%N then set_size this (size_decr (size_ v))
  else undefined.

(** [Iterator Erase(ConstIterator pos)] *)
Definition Erase (this : var) (pos : ptr) : M ptr :=
  v ← obj this;
  offset ← ptr_diff pos (begin_of v);
  std_move (ptr_add (ptr_add (ArrayPtr_Get (data_ v)) offset) 1)
           (ptr_add (ArrayPtr_Get (data_ v)) (N.to_nat (size_ v)))
           (ptr_add (ArrayPtr_Get (data_ v)) offset);;
  set_size this (size_decr (size_ v));;
  v ← obj this;
  mret (ptr_add (begin_of v) offset).

End methods.
End SimpleVectorH.

(** ** src/unnamed/part_001

    The second version of the header.  Its constructors call the
    algorithms without a guard on the size, it walks [begin()] .. [end()]
    where the first version spells out [data_.Get()], and [PushBack] and
    [InsertImpl] grow through [Reserve]. *)

Module Part001.
Section methods.
Context {T : Type} `{!Elem T} `{!Platform}.

Local Abbreviation M := (M T).

Definition begin_of (v : SimpleVector) : ptr := ArrayPtr_Get (data_ v).
Definition end_of (v : SimpleVector) : ptr :=
  ptr_add (ArrayPtr_Get (data_ v)) (N.to_nat (size_ v)).

Definition begin (this : var) : M ptr := v ← obj this; mret (begin_of v).
Definition end_ (this : var) : M ptr := v ← obj this; mret (end_of v).

(** [SimpleVector() noexcept = default] *)
Definition SimpleVector_default (this : var) : M unit :=
  declare this;; put this (mkVec 0 0 None).

(** [explicit SimpleVector(ReserveProxy proxy)] *)
Definition SimpleVector_reserve (this : var) (proxy_capacity : N) : M unit :=
  declare this;;
  data ← ArrayPtr_new proxy_capacity;
  put this (mkVec 0 proxy_capacity data).

(** [explicit SimpleVector(size_t size)] *)
Definition SimpleVector_size (this : var) (size : N) : M unit :=
  declare this;;
  data ← ArrayPtr_new size;
  put this (mkVec size size data);;
  b ← begin this; e ← end_ this;
  std_fill b e Type_default.

(** [SimpleVector(size_t size, const Type& value)] *)
Definition SimpleVector_fill (this : var) (size : N) (value : T) : M unit :=
  declare this;;
  data ← ArrayPtr_new size;
  put this (mkVec size size data);;
  b ← begin this; e ← end_ this;
  std_fill b e value.

(** [SimpleVector(std::initializer_list<Type> init)] *)
Definition SimpleVector_init (this : var) (init : list T) : M unit :=
  declare this;;
  data ← ArrayPtr_new (N.of_nat (length init));
  put this (mkVec (N.of_nat (length init)) (N.of_nat (length init)) data);;
  b ← begin this;
  copy_list init b.

(** [SimpleVector(const SimpleVector& other)] *)
Definition SimpleVector_copy (this other : var) : M unit :=
  declare this;;
  o ← obj other;
  data ← ArrayPtr_new (size_ o);
  put this (mkVec (size_ o) (size_ o) data);;
  ob ← begin other; oe ← end_ other; b ← begin this;
  std_copy ob oe b.

(** [SimpleVector(SimpleVector&& other) noexcept] *)
Definition SimpleVector_move (this other : var) : M unit :=
  declare this;;
  o ← obj other;
  set_size other 0;;
  set_capacity other 0;;
  set_data other None;;
  put this (mkVec (size_ o) (capacity_ o) (data_ o)).

(** [~SimpleVector() = default] *)
Definition destroy (this : var) : M unit :=
  v ← obj this; ArrayPtr_delete (data_ v);; forget this.

(** [void Clear() noexcept] *)
Definition Clear (this : var) : M unit :=
  _ ← obj this; set_size this 0.

(** [void swap(SimpleVector& other) noexcept] *)
Definition swap (this other : var) : M unit :=
  a ← obj this; b ← obj other;
  set_data this (data_ b);; set_data other (data_ a);;
  set_size this (size_ b);; set_size other (size_ a);;
  set_capacity this (capacity_ b);; set_capacity other (capacity_ a).

(** [SimpleVector& operator=(const SimpleVector& rhs)] *)
Definition assign_copy (this rhs : var) : M unit :=
  _ ← obj this; _ ← obj rhs;
  if decide (this ≠ rhs)
  then with_local (λ temp,
         SimpleVector_copy temp rhs;; swap this temp;; destroy temp)
  else mret tt.

(** [SimpleVector& operator=(SimpleVector&& rhs) noexcept] *)
Definition assign_move (this rhs : var) : M unit :=
  _ ← obj this; _ ← obj rhs;
  if decide (this ≠ rhs)
  then swap this rhs;; Clear rhs
  else mret tt.

(** [void Reserve(size_t new_capacity)] *)
Definition Reserve (this : var) (new_capacity : N) : M unit :=
  v ← obj this;
  if (capacity_ v <? new_capacity)%N then
    new_data ← ArrayPtr_new new_capacity;
    b ← begin this; e ← end_ this;
    std_move b e (ArrayPtr_Get new_data);;
    set_data this new_data;;
    set_capacity this new_capacity;;
    ArrayPtr_delete (data_ v)
  else mret tt.

Definition GetSize (this : var) : M N := v ← obj this; mret (size_ v).
Definition GetCapacity (this : var) : M N := v ← obj this; mret (capacity_ v).
Definition IsEmpty (this : var) : M bool :=
  v ← obj this; mret (size_ v =? 0)%N.

(** [Type& operator[](size_t index) noexcept] *)
Definition index (this : var) (i : N) : M ptr :=
  v ← obj this; mret (ArrayPtr_index (data_ v) i).

(** [Type& At(size_t index)] *)
Definition At (this : var) (i : N) : M ptr :=
  v ← obj this;
  if (size_ v <=? i)%N then throw out_of_range
  else mret (ArrayPtr_index (data_ v) i).

(** [void Resize(size_t new_size)] *)
Definition Resize (this : var) (new_size : N) : M unit :=
  v ← obj this;
  if (new_size <=? size_ v)%N then set_size this new_size
  else if (new_size <=? capacity_ v)%N then
    default_range (data_ v) (size_ v) new_size;;
    set_size this new_size
  else
    let new_capacity := N.max new_size (size_double (capacity_ v)) in
    new_data ← ArrayPtr_new new_capacity;
    b ← begin this; e ← end_ this;
    std_move b e (ArrayPtr_Get new_data);;
    default_range new_data (size_ v) new_size;;
    set_data this new_data;;
    set_size this new_size;;
    set_capacity this new_capacity;;
    ArrayPtr_delete (data_ v).

(** [void PushBack(const Type& item)] ([mv = false]) and
    [void PushBack(Type&& item)] ([mv = true]). *)
Definition PushBack_body (mv : bool) (this : var) (item : ref T) : M unit :=
  v ← obj this;
  (if (capacity_ v <=? size_ v)%N
   then Reserve this
          (if (capacity_ v =? 0)%N then 1%N else size_double (capacity_ v))
   else mret tt);;
  v ← obj this;
  assign mv (ArrayPtr_index (data_ v) (size_ v)) item;;
  set_size this (size_incr (size_ v)).

Definition PushBack : var → ref T → M unit := PushBack_body false.
Definition PushBack_move : var → ref T → M unit := PushBack_body true.

(** [template <typename ValueType> Iterator InsertImpl(ConstIterator pos,
    ValueType&& value)] *)
Definition InsertImpl (mv : bool) (this : var) (pos : ptr) (value : ref T)
  : M ptr :=
  b ← begin this;
  offset ← ptr_diff pos b;
  v ← obj this;
  (if (capacity_ v <=? size_ v)%N
   then Reserve this
          (if (capacity_ v =? 0)%N then 1%N else size_double (capacity_ v))
   else mret tt);;
  b ← begin this; e ← end_ this;
  std_move_backward (ptr_add b offset) e (ptr_add e 1);;
  v ← obj this;
  assign mv (ptr_add (ArrayPtr_Get (data_ v)) offset) value;;
  set_size this (size_incr (size_ v));;
  b ← begin this;
  mret (ptr_add b offset).

Definition Insert : var → ptr → ref T → M ptr := InsertImpl false.
Definition Insert_move : var → ptr → ref T → M ptr := InsertImpl true.

(** [void PopBack() noexcept]: [assert(size_ > 0); --size_;] *)
Definition PopBack (this : var) : M unit :=
  v ← obj this;
  if (0 <? size_ v)%N then set_size this (size_decr (size_ v))
  else undefined.

(** [Iterator Erase(ConstIterator pos)] *)
Definition Erase (this : var) (pos : ptr) : M ptr :=
  b ← begin this;
  offset ← ptr_diff pos b;
  e ← end_ this;
  std_move (ptr_add (ptr_add b offset) 1) e (ptr_add b offset);;
  v ← obj this;
  set_size this (size_decr (size_ v));;
  b ← begin this;
  mret (ptr_add b offset).

End methods.
End Part001.

(** ** Programs over the public interface *)

Section programs.
Context {T : Type} `{!Elem T} `{!Platform}.

Local Abbreviation M := (M T).

(** The public members of a [SimpleVector], as one of the two headers
    defines them. *)
Record impl := {
  i_default : var → M unit;
  i_reserve : var → N → M unit;
  i_size : var → N → M unit;
  i_fill : var → N → T → M unit;
  i_init : var → list T → M unit;
  i_copy : var → var → M unit;
  i_move : var → var → M unit;
  i_destroy : var → M unit;
  i_assign_copy : var → var → M unit;
  i_assign_move : var → var → M unit;
  i_Reserve : var → N → M unit;
  i_GetSize : var → M N;
  i_GetCapacity : var → M N;
  i_IsEmpty : var → M bool;
  i_index : var → N → M ptr;
  i_At : var → N → M ptr;
  i_Clear : var → M unit;
  i_Resize : var → N → M unit;
  i_PushBack : var → ref T → M unit;
  i_PushBack_move : var → ref T → M unit;
  i_Insert : var → ptr → ref T → M ptr;
  i_Insert_move : var → ptr → ref T → M ptr;
  i_PopBack : var → M unit;
  i_Erase : var → ptr → M ptr;
  i_swap : var → var → M unit;
  i_begin : var → M ptr;
  i_end : var → M ptr
}.

Definition simple_vector_h : impl := {|
  i_default := SimpleVectorH.SimpleVector_default;
  i_reserve := SimpleVectorH.SimpleVector_reserve;
  i_size := SimpleVectorH.SimpleVector_size;
  i_fill := SimpleVectorH.SimpleVector_fill;
  i_init := SimpleVectorH.SimpleVector_init;
  i_copy := SimpleVectorH.SimpleVector_copy;
  i_move := SimpleVectorH.SimpleVector_move;
  i_destroy := SimpleVectorH.destroy;
  i_assign_copy := SimpleVectorH.assign_copy;
  i_assign_move := SimpleVectorH.assign_move;
  i_Reserve := SimpleVectorH.Reserve;
  i_GetSize := SimpleVectorH.GetSize;
  i_GetCapacity := SimpleVectorH.GetCapacity;
  i_IsEmpty := SimpleVectorH.IsEmpty;
  i_index := SimpleVectorH.index;
  i_At := SimpleVectorH.At;
  i_Clear := SimpleVectorH.Clear;
  i_Resize := SimpleVectorH.Resize;
  i_PushBack := SimpleVectorH.PushBack;
  i_PushBack_move := SimpleVectorH.PushBack_move;
  i_Insert := SimpleVectorH.Insert;
  i_Insert_move := SimpleVectorH.Insert_move;
  i_PopBack := SimpleVectorH.PopBack;
  i_Erase := SimpleVectorH.Erase;
  i_swap := SimpleVectorH.swap;
  i_begin := SimpleVectorH.begin;
  i_end := SimpleVectorH.end_
|}.

Definition part_001 : impl := {|
  i_default := Part001.SimpleVector_default;
  i_reserve := Part001.SimpleVector_reserve;
  i_size := Part001.SimpleVector_size;
  i_fill := Part001.SimpleVector_fill;
  i_init := Part001.SimpleVector_init;
  i_copy := Part001.SimpleVector_copy;
  i_move := Part001.SimpleVector_move;
  i_destroy := Part001.destroy;
  i_assign_copy := Part001.assign_copy;
  i_assign_move := Part001.assign_move;
  i_Reserve := Part001.Reserve;
  i_GetSize := Part001.GetSize;
  i_GetCapacity := Part001.GetCapacity;
  i_IsEmpty := Part001.IsEmpty;
  i_index := Part001.index;
  i_At := Part001.At;
  i_Clear := Part001.Clear;
  i_Resize := Part001.Resize;
  i_PushBack := Part001.PushBack;
  i_PushBack_move := Part001.PushBack_move;
  i_Insert := Part001.Insert;
  i_Insert_move := Part001.Insert_move;
  i_PopBack := Part001.PopBack;
  i_Erase := Part001.Erase;
  i_swap := Part001.swap;
  i_begin := Part001.begin;
  i_end := Part001.end_
|}.

(** An element argument of a call: a value of its own ([v.PushBack(5)]) or
    an element of a vector of the program ([v.PushBack(u[i])]). *)
Inductive arg := AVal (x : T) | AElem (y : var) (i : N).

(** One statement of a client program.  Vectors are named by variables;
    positions are given as [begin() + k]. *)
Inductive op :=
  | OpDefault (x : var)                 (* SimpleVector<T> x;            *)
  | OpReserved (x : var) (n : N)        (* SimpleVector<T> x(Reserve(n)) *)
  | OpSized (x : var) (n : N)           (* SimpleVector<T> x(n);         *)
  | OpFilled (x : var) (n : N) (a : T)  (* SimpleVector<T> x(n, a);      *)
  | OpInit (x : var) (l : list T)       (* SimpleVector<T> x{...};       *)
  | OpCopy (x y : var)                  (* SimpleVector<T> x(y);         *)
  | OpMove (x y : var)                  (* SimpleVector<T> x(std::move(y)); *)
  | OpDestroy (x : var)                 (* x goes out of scope           *)
  | OpAssignCopy (x y : var)            (* x = y;                        *)
  | OpAssignMove (x y : var)            (* x = std::move(y);             *)
  | OpReserve (x : var) (n : N)         (* x.Reserve(n);                 *)
  | OpGetSize (x : var)
  | OpGetCapacity (x : var)
  | OpIsEmpty (x : var)
  | OpIndexGet (x : var) (i : N)        (* ... = x[i];                   *)
  | OpIndexSet (x : var) (i : N) (a : T)(* x[i] = a;                     *)
  | OpAtGet (x : var) (i : N)           (* ... = x.At(i);                *)
  | OpAtSet (x : var) (i : N) (a : T)   (* x.At(i) = a;                  *)
  | OpClear (x : var)
  | OpResize (x : var) (n : N)
  | OpPushBack (x : var) (a : arg)      (* x.PushBack(a);                *)
  | OpPushBackMove (x : var) (a : arg)  (* x.PushBack(std::move(a));     *)
  | OpInsert (x : var) (k : nat) (a : arg)     (* x.Insert(x.begin() + k, a) *)
  | OpInsertMove (x : var) (k : nat) (a : arg)
  | OpPopBack (x : var)
  | OpErase (x : var) (k : nat)         (* x.Erase(x.begin() + k);       *)
  | OpSwap (x y : var)                  (* x.swap(y);                    *)
  | OpBegin (x : var)
  | OpEnd (x : var).

Inductive result :=
  | RUnit
  | RSize (n : N)
  | RBool (b : bool)
  | RElem (a : T)
  | RIter (p : ptr).

Definition bind_arg (I : impl) (a : arg) : M (ref T) :=
  match a with
  | AVal x => mret (RVal x)
  | AElem y i => p ← i_index I y i; mret (RPtr p)
  end.

Definition run_op (I : impl) (o : op) : M result :=
  match o with
  | OpDefault x => i_default I x;; mret RUnit
  | OpReserved x n => i_reserve I x n;; mret RUnit
  | OpSized x n => i_size I x n;; mret RUnit
  | OpFilled x n a => i_fill I x n a;; mret RUnit
  | OpInit x l => i_init I x l;; mret RUnit
  | OpCopy x y => i_copy I x y;; mret RUnit
  | OpMove x y => i_move I x y;; mret RUnit
  | OpDestroy x => i_destroy I x;; mret RUnit
  | OpAssignCopy x y => i_assign_copy I x y;; mret RUnit
  | OpAssignMove x y => i_assign_move I x y;; mret RUnit
  | OpReserve x n => i_Reserve I x n;; mret RUnit
  | OpGetSize x => n ← i_GetSize I x; mret (RSize n)
  | OpGetCapacity x => n ← i_GetCapacity I x; mret (RSize n)
  | OpIsEmpty x => b ← i_IsEmpty I x; mret (RBool b)
  | OpIndexGet x i => p ← i_index I x i; a ← load p; mret (RElem a)
  | OpIndexSet x i a => p ← i_index I x i; store p a;; mret RUnit
  | OpAtGet x i => p ← i_At I x i; a ← load p; mret (RElem a)
  | OpAtSet x i a => p ← i_At I x i; store p a;; mret RUnit
  | OpClear x => i_Clear I x;; mret RUnit
  | OpResize x n => i_Resize I x n;; mret RUnit
  | OpPushBack x a => r ← bind_arg I a; i_PushBack I x r;; mret RUnit
  | OpPushBackMove x a => r ← bind_arg I a; i_PushBack_move I x r;; mret RUnit
  | OpInsert x k a =>
      b ← i_begin I x; r ← bind_arg I a;
      p ← i_Insert I x (ptr_add b k) r; mret (RIter p)
  | OpInsertMove x k a =>
      b ← i_begin I x; r ← bind_arg I a;
      p ← i_Insert_move I x (ptr_add b k) r; mret (RIter p)
  | OpPopBack x => i_PopBack I x;; mret RUnit
  | OpErase x k => b ← i_begin I x; p ← i_Erase I x (ptr_add b k); mret (RIter p)
  | OpSwap x y => i_swap I x y;; mret RUnit
  | OpBegin x => p ← i_begin I x; mret (RIter p)
  | OpEnd x => p ← i_end I x; mret (RIter p)
  end.

(** What a client sees of one statement: the value it returns, or the
    exception it catches before going on. *)
Inductive event := Returned (r : result) | Raised (e : exn).

(** A program runs its statements in order; it has no meaning once a
    statement has undefined behaviour. *)
Fixpoint run (I : impl) (p : list op) (w : world T)
  : option (list event * world T) :=
  match p with
  | [] => Some ([], w)
  | o :: p' =>
      match run_op I o w with
      | Ok r w' => '(tr, w'') ← run I p' w'; Some (Returned r :: tr, w'')
      | Throw e w' => '(tr, w'') ← run I p' w'; Some (Raised e :: tr, w'')
      | Undefined => None
      end
  end.

Definition empty_world : world T := World ∅ ∅ 0.

(** The vectors a statement names: its target, its other operand, and the
    vector an element argument is taken from. *)
Definition arg_names (y : var) (a : arg) : bool :=
  match a with
  | AVal _ => false
  | AElem z _ => bool_decide (z = y)
  end.

Definition names (y : var) (o : op) : bool :=
  match o with
  | OpDefault x | OpReserved x _ | OpSized x _ | OpFilled x _ _ | OpInit x _
  | OpDestroy x | OpReserve x _ | OpGetSize x | OpGetCapacity x | OpIsEmpty x
  | OpIndexGet x _ | OpIndexSet x _ _ | OpAtGet x _ | OpAtSet x _ _
  | OpClear x | OpResize x _ | OpPopBack x | OpErase x _ | OpBegin x
  | OpEnd x => bool_decide (x = y)
  | OpCopy x z | OpMove x z | OpAssignCopy x z | OpAssignMove x z
  | OpSwap x z => bool_decide (x = y) || bool_decide (z = y)
  | OpPushBack x a | OpPushBackMove x a | OpInsert x _ a
  | OpInsertMove x _ a => bool_decide (x = y) || arg_names y a
  end.

(** The statement hands [PushBack] or [Insert] a reference to an element of
    the very vector it is called on, as in [v.PushBack(v[0])]. *)
Definition own_element (o : op) : bool :=
  match o with
  | OpPushBack x a | OpPushBackMove x a | OpInsert x _ a
  | OpInsertMove x _ a => arg_names x a
  | _ => false
  end.

End programs.

Global Arguments impl T : clear implicits.
Global Arguments arg T : clear implicits.
Global Arguments op T : clear implicits.
Global Arguments result T : clear implicits.
Global Arguments event T : clear implicits.

(** ** Well-formed worlds, elements and effects *)

Section invariants.
Context {T : Type} `{!Elem T} `{!Platform}.

(** The length of every block of the free store. *)
Definition lens (h : gmap loc (list T)) : gmap loc nat := length <$> h.

(** A vector is well formed when its size is within its capacity, its
    capacity is one the allocator can have served, and [data_] is null for
    capacity 0 and a live block of [capacity_] slots otherwise. *)
Definition vec_ok (L : gmap loc nat) (v : SimpleVector) : Prop :=
  (size_ v ≤ capacity_ v)%N ∧ (capacity_ v ≤ max_elems)%N ∧
  match data_ v with
  | None => capacity_ v = 0%N
  | Some l => capacity_ v ≠ 0%N ∧ L !! l = Some (N.to_nat (capacity_ v))
  end.

(** A store of objects over a free store: every vector is well formed, no
    two vectors own the same block, and the allocator has not yet handed out
    the addresses from [n] on. *)
Definition shape_ok (O : gmap var SimpleVector) (L : gmap loc nat) (n : loc)
  : Prop :=
  (∀ x v, O !! x = Some v → vec_ok L v) ∧
  (∀ x y vx vy l, O !! x = Some vx → O !! y = Some vy →
     data_ vx = Some l → data_ vy = Some l → x = y) ∧
  (∀ l, n ≤ l → L !! l = None).

Definition world_ok (w : world T) : Prop :=
  shape_ok (objs w) (lens (heap w)) (next w).

(** The array a vector owns, and the sequence of its elements: the first
    [size_] slots of that array. *)
Definition block_of (w : world T) (v : SimpleVector) : list T :=
  match data_ v with
  | Some l => default [] (heap w !! l)
  | None => []
  end.

Definition contents (w : world T) (v : SimpleVector) : list T :=
  take (N.to_nat (size_ v)) (block_of w v).


(** The vector [y], with members [u], and the array it owns are in [w'] as
    they were in [w]. *)
Definition untouched (y : var) (u : SimpleVector) (w w' : world T) : Prop :=
  objs w' !! y = Some u ∧ block_of w' u = block_of w u.

(** [w'] comes from [w] by writes to elements of the blocks in [P]: no
    object, no block length and no other block has changed. *)
Definition stores_in (P : loc → Prop) (w w' : world T) : Prop :=
  objs w' = objs w ∧ next w' = next w ∧ lens (heap w') = lens (heap w) ∧
  ∀ l, ¬ P l → heap w' !! l = heap w !! l.

Definition set_heap (w : world T) (h : gmap loc (list T)) : world T :=
  World (objs w) h (next w).

(** The value an argument stands for in a world. *)
Definition ref_value (w : world T) (r : ref T) : option T :=
  match r with
  | RVal x => Some x
  | RPtr p => cell w p
  end.

(** [delete[] a] on a map of blocks: a null pointer deletes nothing. *)
Definition delete_opt {A} (a : option loc) (m : gmap loc A) : gmap loc A :=
  match a with
  | Some l => delete l m
  | None => m
  end.

(** [m] only writes to elements of blocks in [P], and does not throw. *)
Definition writes {A} (P : loc → Prop) (m : M T A) : Prop :=
  ∀ w, match m w with
       | Ok _ w' => stores_in P w w'
       | Throw _ _ => False
       | Undefined => True
       end.

(** The block an assignment moves from, if any. *)
Definition ref_blk (mv : bool) (r : ref T) (l : loc) : Prop :=
  match mv, r with
  | true, RPtr p => blk p = Some l
  | _, _ => False
  end.

(** [m] leaves the world as it is. *)
Definition reads {A} (m : M T A) : Prop :=
  ∀ w, match m w with
       | Ok _ w' => w' = w
       | Throw _ w' => w' = w
       | Undefined => True
       end.

(** [m] does not throw. *)
Definition nothrow {A} (m : M T A) : Prop :=
  ∀ w e w', m w ≠ Throw e w'.

(** The strong exception guarantee: when [m] throws, nothing has changed. *)
Definition strong {A} (m : M T A) : Prop :=
  ∀ w e w', m w = Throw e w' → w' = w.

(** One step in the life of the vector [this]: from members [v] in [w] to
    members [v'] in [w'].  Either it keeps its block, or it has moved to
    the block the allocator handed out next and its old block is gone.
    Blocks outside [P] that were live before are untouched. *)
Definition evolves (P : loc → Prop) (this : var) (v v' : SimpleVector)
    (w w' : world T) : Prop :=
  objs w' = <[this := v']> (objs w) ∧
  vec_ok (lens (heap w')) v' ∧
  (data_ v' = data_ v ∧ capacity_ v' = capacity_ v ∧
   lens (heap w') = lens (heap w) ∧ next w' = next w
   ∨
   data_ v' = Some (next w) ∧
   lens (heap w') = delete_opt (data_ v)
                      (<[next w := N.to_nat (capacity_ v')]> (lens (heap w))) ∧
   next w' = S (next w)) ∧
  (∀ l, ¬ P l → l < next w → heap w' !! l = heap w !! l).

(** *** The outcome of [PushBack] and [Insert] in closed form *)

(** The growth policy of [PushBack] and [InsertImpl]:
    [capacity_ == 0 ? 1 : capacity_ * 2]. *)
Definition grown (c : N) : N := if (c =? 0)%N then 1%N else size_double c.

(** The blocks [PushBack] and [Insert] may write to: the vector's own and
    the one its argument is moved from. *)
Definition own_or_arg (v : SimpleVector) (mv : bool) (r : ref T) (l : loc)
  : Prop :=
  data_ v = Some l ∨ ref_blk mv r l.

(** The block, if any, an argument lives in. *)
Definition ref_loc (r : ref T) : option loc :=
  match r with
  | RVal _ => None
  | RPtr p => blk p
  end.

(** What a move from the argument, which held [x], leaves in the store. *)
Definition consume (mv : bool) (r : ref T) (x : T) (h : gmap loc (list T))
  : gmap loc (list T) :=
  match mv, r with
  | true, RPtr (Ptr (Some l) i) => alter (<[i := moved_from x]>) l h
  | _, _ => h
  end.

Definition update_block (a : option loc) (f : list T → list T)
    (h : gmap loc (list T)) : gmap loc (list T) :=
  match a with
  | Some l => alter f l h
  | None => h
  end.

(** The vector is full and the allocator cannot serve its next capacity. *)
Definition grows_too_far (v : SimpleVector) : bool :=
  negb (size_ v <? capacity_ v)%N && (max_elems <? N.max 1 (2 * capacity_ v))%N.

(** The members of the vector after one element was added. *)
Definition added (v : SimpleVector) (n : loc) : SimpleVector :=
  if (size_ v <? capacity_ v)%N
  then mkVec (size_ v + 1) (capacity_ v) (data_ v)
  else mkVec (size_ v + 1) (N.max 1 (2 * capacity_ v)) (Some n).

(** The world after [this.PushBack(r)], where [r] stands for [x]. *)
Definition pushed (mv : bool) (this : var) (v : SimpleVector) (r : ref T)
    (x : T) (w : world T) : world T :=
  let n := N.to_nat (size_ v) in
  if (size_ v <? capacity_ v)%N then
    World (<[this := added v (next w)]> (objs w))
          (consume mv r x (update_block (data_ v) (<[n := x]>) (heap w)))
          (next w)
  else
    World (<[this := added v (next w)]> (objs w))
          (consume mv r x
             (<[next w :=
                  <[n := x]>
                    (list_inserts 0 (take n (block_of w v))
                       (replicate (N.to_nat (N.max 1 (2 * capacity_ v)))
                                  new_slot))]>
                (delete_opt (data_ v) (heap w))))
          (S (next w)).

(** The world after [this.Insert(begin() + k, r)], where [r] stands for
    [x]. *)
Definition inserted (mv : bool) (this : var) (v : SimpleVector) (k : nat)
    (r : ref T) (x : T) (w : world T) : world T :=
  let n := N.to_nat (size_ v) in
  if (size_ v <? capacity_ v)%N then
    World (<[this := added v (next w)]> (objs w))
          (consume mv r x
             (update_block (data_ v)
                (λ b, <[k := x]>
                        (list_inserts (S k) (take (n - k) (drop k b)) b))
                (heap w)))
          (next w)
  else
    World (<[this := added v (next w)]> (objs w))
          (consume mv r x
             (<[next w :=
                  list_inserts (S k) (take (n - k) (drop k (block_of w v)))
                    (<[k := x]>
                       (list_inserts 0 (take k (block_of w v))
                          (replicate (N.to_nat (N.max 1 (2 * capacity_ v)))
                                     new_slot)))]>
                (delete_opt (data_ v) (heap w))))
          (S (next w)).

(** An argument does not live in the vector it is given to, and it lives
    in a block the allocator has handed out. *)
Definition elsewhere (r : ref T) (v : SimpleVector) (w : world T) : Prop :=
  ∀ l, ref_loc r = Some l → data_ v ≠ Some l ∧ l < next w.

End invariants.

Global Arguments lens : simpl never.

(** ** A concrete element type and platform, for worked examples *)

(** Elements like [int]: trivially copyable, so a move leaves the value in
    place; the examples take a new slot to hold zero. *)
Definition N_elem : Elem N :=
  {| Type_default := 0%N; new_slot := 0%N; moved_from := λ x, x |}.

(** A 64-bit [size_t] and an allocator that serves up to [2 ^ 32]
    elements. *)
Definition plat64 : Platform :=
  {| size_bits := 64; max_elems := 2 ^ 32; max_elems_fits := eq_refl |}.

Section worked_examples.
Local Existing Instance N_elem.
Local Existing Instance plat64.

(** The first steps of the scenario of the specification:
    [SimpleVector<int> v; v.PushBack(1); v.PushBack(2); v.PushBack(3);] *)
Definition three_pushes : list (op N) :=
  [OpDefault 0; OpPushBack 0 (AVal 1%N); OpPushBack 0 (AVal 2%N);
   OpPushBack 0 (AVal 3%N)].

(** The world they leave: the vector has gone through the blocks 0 and 1
    and owns block 2, of capacity 4. *)
Definition three_elements : SimpleVector := mkVec 3 4 (Some 2).

Definition after_three_pushes : world N :=
  World {[0 := three_elements]} {[2 := [1; 2; 3; 0]%N]} 3.

(** [SimpleVector<int> a{1, 2}; SimpleVector<int> b{5};] *)
Definition two_vectors_program : list (op N) :=
  [OpInit 0 [1; 2]%N; OpInit 1 [5]%N].

Definition two_vectors : world N :=
  World {[0 := mkVec 2 2 (Some 0); 1 := mkVec 1 1 (Some 1)]}
        {[0 := [1; 2]%N; 1 := [5]%N]} 2.

(** [SimpleVector<int> v{1}; v.PushBack(v[0]);] *)
Definition push_own_element : list (op N) :=
  [OpInit 0 [1]%N; OpPushBack 0 (AElem 0 0)].

End worked_examples.

(** ** Further notions: exceptions, leaks, comparison *)

Section further_notions.
Context {T : Type} `{!Elem T} `{!Platform}.

(** The exception a statement can end with, if any: [At] checks its
    index, and the operations that may allocate let [bad_alloc] through;
    every other operation is [noexcept] or has nothing in it that throws. *)
Definition exception_of (o : op T) : option exn :=
  match o with
  | OpAtGet _ _ | OpAtSet _ _ _ => Some out_of_range
  | OpReserved _ _ | OpSized _ _ | OpFilled _ _ _ | OpInit _ _ | OpCopy _ _
  | OpAssignCopy _ _ | OpReserve _ _ | OpResize _ _ | OpPushBack _ _
  | OpPushBackMove _ _ | OpInsert _ _ _ | OpInsertMove _ _ _ => Some bad_alloc
  | _ => None
  end.

(** [m] throws nothing but [e]. *)
Definition raises_only {A} (e : exn) (m : M T A) : Prop :=
  ∀ w e' w', m w = Throw e' w' → e' = e.

(** Every array of the free store is the buffer of a vector of the
    program. *)
Definition no_leak (w : world T) : Prop :=
  ∀ l, is_Some (heap w !! l) →
       ∃ x v, objs w !! x = Some v ∧ data_ v = Some l.

(** The vector a mutating member function is called on. *)
Definition mutated (o : op T) : option var :=
  match o with
  | OpReserve x _ | OpClear x | OpResize x _ | OpPushBack x _
  | OpPushBackMove x _ | OpInsert x _ _ | OpInsertMove x _ _ | OpPopBack x
  | OpErase x _ => Some x
  | _ => None
  end.

(** [v.PushBack(x1); ...; v.PushBack(xn);] *)
Definition pushes (this : var) (xs : list T) : list (op T) :=
  (λ x, OpPushBack this (AVal x)) <$> xs.

End further_notions.

(** ** The comparison operators (simple_vector.h, lines 248-277) *)

(** [operator==] and [operator<] of the element type. *)
Class Comparison (T : Type) := {
  elem_eq : T → T → bool;
  elem_lt : T → T → bool
}.

Module Operators.
Section operators.
Context {T : Type} `{!Elem T} `{!Platform} `{!Comparison T}.

Local Abbreviation M := (M T).

(** [std::equal(first1, last1, first2)]:
    [for (; first1 != last1; ++first1, ++first2)
       if (!( *first1 == *first2 )) return false;
     return true;] *)
Fixpoint equal_n (n : nat) (first1 first2 : ptr) : M bool :=
  match n with
  | O => mret true
  | S n' =>
      x ← load first1; y ← load first2;
      if elem_eq x y
      then equal_n n' (ptr_add first1 1) (ptr_add first2 1)
      else mret false
  end.

Definition std_equal (first1 last1 first2 : ptr) : M bool :=
  n ← ptr_diff last1 first1; equal_n n first1 first2.

(** [std::lexicographical_compare(first1, last1, first2, last2)]:
    [for (; first1 != last1 && first2 != last2; ++first1, ++first2) {
       if ( *first1 < *first2 ) return true;
       if ( *first2 < *first1 ) return false;
     }
     return first1 == last1 && first2 != last2;] *)
Fixpoint lexicographical_compare_n (n1 n2 : nat) (first1 first2 : ptr)
  : M bool :=
  match n1, n2 with
  | S n1', S n2' =>
      x ← load first1; y ← load first2;
      if elem_lt x y then mret true
      else
        y' ← load first2; x' ← load first1;
        if elem_lt y' x' then mret false
        else lexicographical_compare_n n1' n2'
               (ptr_add first1 1) (ptr_add first2 1)
  | O, S _ => mret true
  | _, O => mret false
  end.

Definition std_lexicographical_compare (first1 last1 first2 last2 : ptr)
  : M bool :=
  n1 ← ptr_diff last1 first1; n2 ← ptr_diff last2 first2;
  lexicographical_compare_n n1 n2 first1 first2.

(** [lhs == rhs]: [&&] does not evaluate [std::equal] when the sizes
    differ. *)
Definition eq (lhs rhs : var) : M bool :=
  a ← SimpleVectorH.GetSize lhs; b ← SimpleVectorH.GetSize rhs;
  if (a =? b)%N then
    b1 ← SimpleVectorH.begin lhs; e1 ← SimpleVectorH.end_ lhs;
    b2 ← SimpleVectorH.begin rhs;
    std_equal b1 e1 b2
  else mret false.

(** [lhs != rhs] is [!(lhs == rhs)]. *)
Definition ne (lhs rhs : var) : M bool :=
  r ← eq lhs rhs; mret (negb r).

(** [lhs < rhs] *)
Definition lt (lhs rhs : var) : M bool :=
  b1 ← SimpleVectorH.begin lhs; e1 ← SimpleVectorH.end_ lhs;
  b2 ← SimpleVectorH.begin rhs; e2 ← SimpleVectorH.end_ rhs;
  std_lexicographical_compare b1 e1 b2 e2.

(** [lhs <= rhs] is [!(rhs < lhs)]. *)
Definition le (lhs rhs : var) : M bool :=
  r ← lt rhs lhs; mret (negb r).

(** [lhs > rhs] is [rhs < lhs]. *)
Definition gt (lhs rhs : var) : M bool := lt rhs lhs.

(** [lhs >= rhs] is [!(lhs < rhs)]. *)
Definition ge (lhs rhs : var) : M bool :=
  r ← lt lhs rhs; mret (negb r).

End operators.
End Operators.

Section sequences_compared.
Context {T : Type} `{!Comparison T}.

(** What the two loops compute, read on the sequences of elements. *)
Fixpoint equal_lists (l k : list T) : bool :=
  match l, k with
  | x :: l', y :: k' => elem_eq x y && equal_lists l' k'
  | [], [] => true
  | _, _ => false
  end.

Fixpoint less_lists (l k : list T) : bool :=
  match l, k with
  | x :: l', y :: k' =>
      elem_lt x y || (negb (elem_lt y x) && less_lists l' k')
  | [], _ :: _ => true
  | _, [] => false
  end.

(** The element comparisons are those of a strict total order with its
    equality. *)
Definition total_order : Prop :=
  (∀ x y : T, elem_eq x y = true ↔ x = y) ∧
  (∀ x : T, elem_lt x x = false) ∧
  (∀ x y : T, elem_lt x y = true → elem_lt y x = false) ∧
  (∀ x y : T, x ≠ y → elem_lt x y = true ∨ elem_lt y x = true).

End sequences_compared.

(** Natural numbers as elements that compare as numbers do. *)
Definition N_comparison : Comparison N :=
  {| elem_eq := N.eqb; elem_lt := N.ltb |}.

(** The world of the three pushes after a fourth, [v.PushBack(4)]. *)
Definition four_elements : world N :=
  World {[0 := mkVec 4 4 (Some 2)]} {[2 := [1; 2; 3; 4]%N]} 3.

(** ** Arguments that are references *)

Section arguments.
Context {T : Type} `{!Elem T} `{!Platform}.


End arguments.

(** Elements like [std::string], as lists of character codes: [Type()] and
    a new slot are the empty string, and a move leaves the source empty. *)
Definition string_elem : Elem (list N) :=
  {| Type_default := []; new_slot := []; moved_from := λ _, [] |}.




(** * Properties *)

(** ** The monad, [size_t] and the primitives of the store *)

Section basics.
Context {T : Type} `{!Elem T} `{!Platform}.
Implicit Types (w : world T) (p q : ptr) (b : list T) (h : gmap loc (list T)).

Lemma bind_eq {A B} (m : M T A) (f : A → M T B) w :
  (m ≫= f) w =
  match m w with
  | Ok a w' => f a w'
  | Throw e w' => Throw e w'
  | Undefined => Undefined
  end.
Proof. reflexivity. Qed.

Lemma bind_Ok_inv {A B} (m : M T A) (f : A → M T B) w r w2 :
  (m ≫= f) w = Ok r w2 → ∃ a w1, m w = Ok a w1 ∧ f a w1 = Ok r w2.
Proof. rewrite bind_eq. destruct (m w); [eauto | done | done]. Qed.

Lemma bind_Throw_inv {A B} (m : M T A) (f : A → M T B) w e w2 :
  (m ≫= f) w = Throw e w2 →
  m w = Throw e w2 ∨ ∃ a w1, m w = Ok a w1 ∧ f a w1 = Throw e w2.
Proof.
  rewrite bind_eq. destruct (m w); [eauto | | done].
  intros [= -> ->]. by left.
Qed.

Lemma world_eta w : World (objs w) (heap w) (next w) = w.
Proof. by destruct w. Qed.

Lemma set_heap_id w : set_heap w (heap w) = w.
Proof. apply world_eta. Qed.

(** *** Arithmetic on [size_t] stays exact below the allocator's bound *)

Lemma max_elems_lt_modulus : (max_elems < size_modulus)%N.
Proof. unfold size_modulus. pose proof max_elems_fits. lia. Qed.

Lemma size_modulus_pos : (0 < size_modulus)%N.
Proof. pose proof max_elems_lt_modulus. lia. Qed.

Lemma wrap_small n : (n < size_modulus)%N → wrap n = n.
Proof. intros. unfold wrap. by apply N.mod_small. Qed.

Lemma size_double_exact n : (n ≤ max_elems)%N → size_double n = (2 * n)%N.
Proof.
  intros. unfold size_double. rewrite wrap_small; [lia |].
  unfold size_modulus. pose proof max_elems_fits. lia.
Qed.

Lemma size_incr_exact n : (n < max_elems)%N → size_incr n = (n + 1)%N.
Proof.
  intros. unfold size_incr. apply wrap_small.
  pose proof max_elems_lt_modulus. lia.
Qed.

Lemma size_decr_exact n :
  (0 < n)%N → (n ≤ max_elems)%N → size_decr n = (n - 1)%N.
Proof.
  intros Hpos Hle. unfold size_decr, wrap.
  pose proof max_elems_lt_modulus as Hm.
  replace (n + (size_modulus - 1))%N with ((n - 1) + 1 * size_modulus)%N by lia.
  rewrite N.Div0.mod_add. apply N.mod_small. lia.
Qed.

(** *** The object store *)

Lemma obj_Some x v w : objs w !! x = Some v → obj x w = Ok v w.
Proof. unfold obj. by intros ->. Qed.

Lemma obj_inv x v w w' : obj x w = Ok v w' → w' = w ∧ objs w !! x = Some v.
Proof. unfold obj. destruct (objs w !! x); [|done]. by intros [= -> ->]. Qed.

Lemma obj_no_throw x w e w' : obj x w ≠ Throw e w'.
Proof. unfold obj. by destruct (objs w !! x). Qed.

Lemma declare_None x w : objs w !! x = None → declare x w = Ok tt w.
Proof. unfold declare. by intros ->. Qed.

(** *** Loads and stores *)

Lemma cell_Some l i b x w :
  heap w !! l = Some b → b !! i = Some x → cell w (Ptr (Some l) i) = Some x.
Proof. intros Hl Hb. unfold cell. simpl. rewrite Hl. done. Qed.

Lemma load_Some p x w : cell w p = Some x → load p w = Ok x w.
Proof. unfold load. by intros ->. Qed.

Lemma load_None p w : cell w p = None → load p w = Undefined.
Proof. unfold load. by intros ->. Qed.

Lemma store_Some l i b x w :
  heap w !! l = Some b → i < length b →
  store (Ptr (Some l) i) x w = Ok tt (set_heap w (<[l := <[i := x]> b]> (heap w))).
Proof.
  intros Hl Hi. unfold store. simpl. rewrite Hl.
  by rewrite decide_True.
Qed.

Lemma cell_set_heap_ne w h l i l' b' :
  l ≠ l' → cell (set_heap w (<[l' := b']> h)) (Ptr (Some l) i)
           = cell (set_heap w h) (Ptr (Some l) i).
Proof. intros. unfold cell. simpl. by rewrite lookup_insert_ne. Qed.

(** *** [stores_in] is a preorder, and grows with the set of blocks *)

Lemma stores_in_refl (P : loc → Prop) w : stores_in P w w.
Proof. by repeat split. Qed.

Lemma stores_in_trans (P : loc → Prop) w1 w2 w3 :
  stores_in P w1 w2 → stores_in P w2 w3 → stores_in P w1 w3.
Proof.
  intros (Ho1 & Hn1 & Hl1 & Hf1) (Ho2 & Hn2 & Hl2 & Hf2).
  repeat split; [congruence.. |].
  intros l Hl. rewrite Hf2, Hf1; done.
Qed.

Lemma stores_in_mono (P Q : loc → Prop) w w' :
  (∀ l, P l → Q l) → stores_in P w w' → stores_in Q w w'.
Proof.
  intros HPQ (Ho & Hn & Hl & Hf). repeat split; [done.. |].
  intros l Hl'. apply Hf. naive_solver.
Qed.

Lemma lens_insert_same h l b b' :
  h !! l = Some b → length b' = length b → lens (<[l := b']> h) = lens h.
Proof.
  intros Hl Hlen. unfold lens. rewrite fmap_insert, Hlen.
  apply insert_id. by rewrite lookup_fmap, Hl.
Qed.

Lemma store_stores_in p x w w' :
  store p x w = Ok tt w' → stores_in (λ l, blk p = Some l) w w'.
Proof.
  unfold store. destruct (blk p) as [l|]; [|done].
  destruct (heap w !! l) as [b|] eqn:Hl; [|done].
  case_decide; [|done]. intros [= <-]. repeat split; simpl.
  - apply (lens_insert_same _ _ b); [done|]. by rewrite length_insert.
  - intros l' Hne. rewrite lookup_insert_ne; [done|]. congruence.
Qed.

Lemma store_no_throw p x w e w' : store p x w ≠ Throw e w'.
Proof.
  unfold store. destruct (blk p); [|done].
  destruct (heap w !! _); [|done]. by case_decide.
Qed.

Lemma load_inv p x w w' : load p w = Ok x w' → w' = w ∧ cell w p = Some x.
Proof. unfold load. destruct (cell w p); [|done]. by intros [= -> ->]. Qed.

Lemma load_no_throw p w e w' : load p w ≠ Throw e w'.
Proof. unfold load. by destruct (cell w p). Qed.

Lemma ptr_diff_inv p q n w w' :
  ptr_diff p q w = Ok n w' →
  w' = w ∧ blk p = blk q ∧ off q ≤ off p ∧ n = off p - off q.
Proof.
  unfold ptr_diff. case_decide as Hd; [|done].
  destruct Hd. by intros [= <- <-].
Qed.

Lemma ptr_diff_no_throw p q w e w' : ptr_diff p q w ≠ Throw e w'.
Proof. unfold ptr_diff. by case_decide. Qed.

Lemma ptr_diff_same a i j w :
  i ≤ j → ptr_diff (Ptr a j) (Ptr a i) w = Ok (j - i) w.
Proof. intros. unfold ptr_diff. simpl. by rewrite decide_True. Qed.

End basics.

(** ** What the algorithms may touch *)

Section effects.
Context {T : Type} `{!Elem T} `{!Platform}.
Implicit Types (w : world T) (p q : ptr) (P : loc → Prop).

Local Abbreviation writes := (writes (T:=T)).

Lemma writes_ret {A} P (a : A) : writes P (mret a : M T A).
Proof. intros w. apply stores_in_refl. Qed.

Lemma writes_bind {A B} P (m : M T A) (f : A → M T B) :
  writes P m → (∀ a, writes P (f a)) → writes P (m ≫= f).
Proof.
  intros Hm Hf w. rewrite bind_eq. specialize (Hm w).
  destruct (m w) as [a w1| |]; [|done..].
  specialize (Hf a w1). destruct (f a w1); [|done..].
  by eapply stores_in_trans.
Qed.

Lemma writes_mono {A} P Q (m : M T A) :
  (∀ l, P l → Q l) → writes P m → writes Q m.
Proof.
  intros HPQ Hm w. specialize (Hm w). destruct (m w); [|done..].
  by eapply stores_in_mono.
Qed.

Lemma writes_load P p : writes P (load p).
Proof.
  intros w. unfold load. destruct (cell w p); [|done]. apply stores_in_refl.
Qed.

Lemma writes_store P p x : (∀ l, blk p = Some l → P l) → writes P (store p x).
Proof.
  intros HP w. destruct (store p x w) as [[] w'| |] eqn:Hs; [| |done].
  - eapply stores_in_mono; [|exact (store_stores_in _ _ _ _ Hs)]. done.
  - by apply store_no_throw in Hs.
Qed.

Lemma writes_ptr_diff P p q : writes P (ptr_diff p q).
Proof.
  intros w. unfold ptr_diff. case_decide; [|done]. apply stores_in_refl.
Qed.

Lemma writes_read_ref P r : writes P (read_ref r).
Proof. destruct r; [apply writes_ret | apply writes_load]. Qed.

(** An assignment writes to its target, and to its source when it moves
    from it. *)
Lemma writes_assign P mv dst r :
  (∀ l, blk dst = Some l → P l) → (∀ l, ref_blk mv r l → P l) →
  writes P (assign mv dst r).
Proof.
  intros Hd Hr. unfold assign.
  apply writes_bind; [apply writes_read_ref|]. intros x.
  apply writes_bind; [by apply writes_store|]. intros _.
  destruct mv, r; try apply writes_ret.
  apply writes_store. intros l Hl. by apply Hr.
Qed.

Lemma writes_move_n P n first d_first :
  (∀ l, blk first = Some l → P l) → (∀ l, blk d_first = Some l → P l) →
  writes P (move_n n first d_first).
Proof.
  revert first d_first. induction n as [|n IH]; intros first d_first Hf Hd; simpl.
  - apply writes_ret.
  - apply writes_bind; [by apply writes_assign|]. intros _. by apply IH.
Qed.

Lemma writes_std_move P first last d_first :
  (∀ l, blk first = Some l → P l) → (∀ l, blk d_first = Some l → P l) →
  writes P (std_move first last d_first).
Proof.
  intros. apply writes_bind; [apply writes_ptr_diff|].
  intros n. by apply writes_move_n.
Qed.

Lemma writes_move_backward_n P n last d_last :
  (∀ l, blk last = Some l → P l) → (∀ l, blk d_last = Some l → P l) →
  writes P (move_backward_n n last d_last).
Proof.
  revert last d_last. induction n as [|n IH]; intros last d_last Hf Hd; simpl.
  - apply writes_ret.
  - apply writes_bind; [by apply writes_assign|]. intros _. by apply IH.
Qed.

Lemma writes_std_move_backward P first last d_last :
  (∀ l, blk last = Some l → P l) → (∀ l, blk d_last = Some l → P l) →
  writes P (std_move_backward first last d_last).
Proof.
  intros. apply writes_bind; [apply writes_ptr_diff|].
  intros n. by apply writes_move_backward_n.
Qed.

Lemma writes_copy_n P n first d_first :
  (∀ l, blk d_first = Some l → P l) → writes P (copy_n n first d_first).
Proof.
  revert first d_first. induction n as [|n IH]; intros first d_first Hd; simpl.
  - apply writes_ret.
  - apply writes_bind; [by apply writes_assign|]. intros _. by apply IH.
Qed.

Lemma writes_std_copy P first last d_first :
  (∀ l, blk d_first = Some l → P l) → writes P (std_copy first last d_first).
Proof.
  intros. apply writes_bind; [apply writes_ptr_diff|].
  intros n. by apply writes_copy_n.
Qed.

Lemma writes_copy_list P init d_first :
  (∀ l, blk d_first = Some l → P l) → writes P (copy_list init d_first).
Proof.
  revert d_first. induction init as [|x init IH]; intros d_first Hd; simpl.
  - apply writes_ret.
  - apply writes_bind; [by apply writes_store|]. intros _. by apply IH.
Qed.

Lemma writes_fill_n P n first value :
  (∀ l, blk first = Some l → P l) → writes P (fill_n n first value).
Proof.
  revert first. induction n as [|n IH]; intros first Hd; simpl.
  - apply writes_ret.
  - apply writes_bind; [by apply writes_store|]. intros _. by apply IH.
Qed.

Lemma writes_std_fill P first last value :
  (∀ l, blk first = Some l → P l) → writes P (std_fill first last value).
Proof.
  intros. apply writes_bind; [apply writes_ptr_diff|].
  intros n. by apply writes_fill_n.
Qed.

Lemma writes_default_range P a from to :
  (∀ l, a = Some l → P l) → writes P (default_range a from to).
Proof. intros. by apply writes_fill_n. Qed.

(** Reading [writes] at a given run. *)
Lemma writes_Ok {A} P (m : M T A) w a w' :
  writes P m → m w = Ok a w' → stores_in P w w'.
Proof. intros Hm Hw. specialize (Hm w). by rewrite Hw in Hm. Qed.

Lemma writes_no_throw {A} P (m : M T A) w e w' :
  writes P m → m w ≠ Throw e w'.
Proof. intros Hm Hw. specialize (Hm w). by rewrite Hw in Hm. Qed.

End effects.

(** ** What the algorithms compute *)

Section algorithms.
Context {T : Type} `{!Elem T} `{!Platform}.
Implicit Types (w : world T) (b : list T) (h : gmap loc (list T)).

Lemma set_heap_set_heap w h h' : set_heap (set_heap w h) h' = set_heap w h'.
Proof. reflexivity. Qed.

Lemma assign_val mv l j b x w :
  heap w !! l = Some b → j < length b →
  assign mv (Ptr (Some l) j) (RVal x) w
  = Ok tt (set_heap w (<[l := <[j := x]> b]> (heap w))).
Proof.
  intros Hl Hj. unfold assign. simpl read_ref.
  rewrite bind_eq. simpl. rewrite bind_eq, (store_Some l j b) by done.
  by destruct mv.
Qed.

Lemma assign_move_cross ls ld i j bs bd x w :
  ls ≠ ld → heap w !! ls = Some bs → heap w !! ld = Some bd →
  bs !! i = Some x → j < length bd →
  assign true (Ptr (Some ld) j) (RPtr (Ptr (Some ls) i)) w
  = Ok tt (set_heap w (<[ls := <[i := moved_from x]> bs]>
                         (<[ld := <[j := x]> bd]> (heap w)))).
Proof.
  intros Hne Hs Hd Hx Hj. unfold assign. simpl read_ref.
  rewrite bind_eq, (load_Some _ x) by by eapply cell_Some.
  rewrite bind_eq, (store_Some ld j bd) by done.
  rewrite (store_Some ls i bs); simpl.
  - done.
  - by rewrite lookup_insert_ne.
  - by eapply lookup_lt_Some.
Qed.

Lemma assign_copy_cross ls ld i j bs bd x w :
  heap w !! ls = Some bs → heap w !! ld = Some bd →
  bs !! i = Some x → j < length bd →
  assign false (Ptr (Some ld) j) (RPtr (Ptr (Some ls) i)) w
  = Ok tt (set_heap w (<[ld := <[j := x]> bd]> (heap w))).
Proof.
  intros Hs Hd Hx Hj. unfold assign. simpl read_ref.
  rewrite bind_eq, (load_Some _ x) by by eapply cell_Some.
  by rewrite bind_eq, (store_Some ld j bd) by done.
Qed.

Lemma assign_move_same l i j b x w :
  heap w !! l = Some b → b !! i = Some x → j < length b →
  assign true (Ptr (Some l) j) (RPtr (Ptr (Some l) i)) w
  = Ok tt (set_heap w (<[l := <[i := moved_from x]> (<[j := x]> b)]> (heap w))).
Proof.
  intros Hl Hx Hj. unfold assign. simpl read_ref.
  rewrite bind_eq, (load_Some _ x) by by eapply cell_Some.
  rewrite bind_eq, (store_Some l j b) by done.
  rewrite (store_Some l i (<[j := x]> b)); simpl.
  - by rewrite insert_insert_eq.
  - by rewrite lookup_insert_eq.
  - rewrite length_insert. by eapply lookup_lt_Some.
Qed.

(** Moving [n] elements from one block into another. *)
Lemma move_n_cross n : ∀ ls ld i j bs bd w,
  ls ≠ ld → heap w !! ls = Some bs → heap w !! ld = Some bd →
  i + n ≤ length bs → j + n ≤ length bd →
  move_n n (Ptr (Some ls) i) (Ptr (Some ld) j) w
  = Ok tt (set_heap w
      (<[ld := list_inserts j (take n (drop i bs)) bd]>
         (<[ls := list_inserts i (moved_from <$> take n (drop i bs)) bs]>
            (heap w)))).
Proof.
  induction n as [|n IH]; intros ls ld i j bs bd w Hne Hs Hd Hi Hj.
  - simpl. rewrite (insert_id _ ls) by done. rewrite (insert_id _ ld) by done.
    by rewrite set_heap_id.
  - destruct (lookup_lt_is_Some_2 bs i) as [x Hx]; [lia|].
    simpl move_n. rewrite bind_eq.
    rewrite (assign_move_cross ls ld i j bs bd x) by (done || lia).
    unfold ptr_add; simpl. rewrite !Nat.add_1_r.
    rewrite (IH ls ld (S i) (S j) (<[i := moved_from x]> bs) (<[j := x]> bd)).
    + rewrite set_heap_set_heap. simpl.
      rewrite insert_insert_eq.
      rewrite (insert_insert_ne _ ls ld) by done.
      rewrite insert_insert_eq.
      rewrite drop_insert_lt by lia.
      rewrite (drop_S bs x i) by done. simpl.
      by rewrite <-!list_insert_inserts_lt by lia.
    + done.
    + simpl. apply lookup_insert_eq.
    + simpl. rewrite lookup_insert_ne by done. apply lookup_insert_eq.
    + rewrite length_insert. lia.
    + rewrite length_insert. lia.
Qed.

(** Copying [n] elements from one block into another. *)
Lemma copy_n_cross n : ∀ ls ld i j bs bd w,
  ls ≠ ld → heap w !! ls = Some bs → heap w !! ld = Some bd →
  i + n ≤ length bs → j + n ≤ length bd →
  copy_n n (Ptr (Some ls) i) (Ptr (Some ld) j) w
  = Ok tt (set_heap w
      (<[ld := list_inserts j (take n (drop i bs)) bd]> (heap w))).
Proof.
  induction n as [|n IH]; intros ls ld i j bs bd w Hne Hs Hd Hi Hj.
  - simpl. rewrite (insert_id _ ld) by done. by rewrite set_heap_id.
  - destruct (lookup_lt_is_Some_2 bs i) as [x Hx]; [lia|].
    simpl copy_n. rewrite bind_eq.
    rewrite (assign_copy_cross ls ld i j bs bd x) by (done || lia).
    unfold ptr_add; simpl. rewrite !Nat.add_1_r.
    rewrite (IH ls ld (S i) (S j) bs (<[j := x]> bd)).
    + rewrite set_heap_set_heap. simpl. rewrite insert_insert_eq.
      rewrite (drop_S bs x i) by done. simpl.
      by rewrite <-!list_insert_inserts_lt by lia.
    + done.
    + simpl. by rewrite lookup_insert_ne.
    + simpl. apply lookup_insert_eq.
    + lia.
    + rewrite length_insert. lia.
Qed.

Lemma fill_n_block n : ∀ l i b x w,
  heap w !! l = Some b → i + n ≤ length b →
  fill_n n (Ptr (Some l) i) x w
  = Ok tt (set_heap w (<[l := list_inserts i (replicate n x) b]> (heap w))).
Proof.
  induction n as [|n IH]; intros l i b x w Hl Hi.
  - simpl. rewrite insert_id by done. by rewrite set_heap_id.
  - simpl fill_n. rewrite bind_eq, (store_Some l i b) by (done || lia).
    unfold ptr_add; simpl. rewrite Nat.add_1_r.
    rewrite (IH l (S i) (<[i := x]> b)).
    + rewrite set_heap_set_heap. simpl. rewrite insert_insert_eq.
      by rewrite <-list_insert_inserts_lt by lia.
    + simpl. apply lookup_insert_eq.
    + rewrite length_insert. lia.
Qed.

Lemma copy_list_block init : ∀ l i b w,
  heap w !! l = Some b → i + length init ≤ length b →
  copy_list init (Ptr (Some l) i) w
  = Ok tt (set_heap w (<[l := list_inserts i init b]> (heap w))).
Proof.
  induction init as [|x init IH]; intros l i b w Hl Hi; simpl in *.
  - rewrite insert_id by done. by rewrite set_heap_id.
  - rewrite bind_eq, (store_Some l i b) by (done || lia).
    unfold ptr_add; simpl. rewrite Nat.add_1_r.
    rewrite (IH l (S i) (<[i := x]> b)).
    + rewrite set_heap_set_heap. simpl. rewrite insert_insert_eq.
      by rewrite <-list_insert_inserts_lt by lia.
    + simpl. apply lookup_insert_eq.
    + rewrite length_insert. lia.
Qed.

(** Moving the [n] elements behind position [k] one slot to the left,
    inside one block: the element at [k] is overwritten, the one at
    [k + n] is left moved-from. *)
Lemma move_n_shift_left n : ∀ l k b w,
  heap w !! l = Some b → S k + n ≤ length b →
  ∃ b', move_n n (Ptr (Some l) (S k)) (Ptr (Some l) k) w
        = Ok tt (set_heap w (<[l := b']> (heap w))) ∧
    length b' = length b ∧
    (∀ i, i < k → b' !! i = b !! i) ∧
    (∀ i, k ≤ i < k + n → b' !! i = b !! S i) ∧
    (∀ i, k + n < i → b' !! i = b !! i).
Proof.
  induction n as [|n IH]; intros l k b w Hl Hk.
  - exists b. simpl. rewrite insert_id by done. rewrite set_heap_id.
    repeat split; try done; intros; lia.
  - destruct (lookup_lt_is_Some_2 b (S k)) as [x Hx]; [lia|].
    set (b1 := <[S k := moved_from x]> (<[k := x]> b)).
    destruct (IH l (S k) b1 (set_heap w (<[l := b1]> (heap w))))
      as (b' & Hrun & Hlen & Hlo & Hmid & Hhi).
    { simpl. apply lookup_insert_eq. }
    { subst b1. rewrite !length_insert. lia. }
    exists b'. split.
    { simpl move_n. rewrite bind_eq.
      rewrite (assign_move_same l (S k) k b x) by (done || lia).
      unfold ptr_add; simpl. rewrite !Nat.add_1_r. fold b1.
      rewrite Hrun. rewrite set_heap_set_heap. simpl.
      by rewrite insert_insert_eq. }
    split; [subst b1; by rewrite Hlen, !length_insert|].
    repeat split; intros i Hi.
    + rewrite Hlo by lia. subst b1. by rewrite !list_lookup_insert_ne by lia.
    + destruct (decide (i = k)) as [->|].
      * rewrite Hlo by lia. subst b1. rewrite list_lookup_insert_ne by lia.
        rewrite list_lookup_insert_eq by lia. done.
      * rewrite Hmid by lia. subst b1. by rewrite !list_lookup_insert_ne by lia.
    + rewrite Hhi by lia. subst b1. by rewrite !list_lookup_insert_ne by lia.
Qed.

(** Moving the [n] elements from position [k] on one slot to the right,
    inside one block, last element first: the slot at [k] is left
    moved-from. *)
Lemma move_backward_n_shift_right n : ∀ l k b w,
  heap w !! l = Some b → k + n + 1 ≤ length b →
  ∃ b', move_backward_n n (Ptr (Some l) (k + n)) (Ptr (Some l) (k + n + 1)) w
        = Ok tt (set_heap w (<[l := b']> (heap w))) ∧
    length b' = length b ∧
    (∀ i, i < k → b' !! i = b !! i) ∧
    (∀ i, k < i ≤ k + n → b' !! i = b !! (i - 1)) ∧
    (∀ i, k + n < i → b' !! i = b !! i).
Proof.
  induction n as [|n IH]; intros l k b w Hl Hk.
  - exists b. simpl. rewrite insert_id by done. rewrite set_heap_id.
    repeat split; try done; intros; lia.
  - destruct (lookup_lt_is_Some_2 b (k + n)) as [x Hx]; [lia|].
    set (b1 := <[k + n := moved_from x]> (<[k + n + 1 := x]> b)).
    destruct (IH l k b1 (set_heap w (<[l := b1]> (heap w))))
      as (b' & Hrun & Hlen & Hlo & Hmid & Hhi).
    { simpl. apply lookup_insert_eq. }
    { subst b1. rewrite !length_insert. lia. }
    exists b'. split.
    { simpl move_backward_n. rewrite bind_eq.
      unfold ptr_sub; simpl.
      replace (k + S n - 1) with (k + n) by lia.
      replace (k + S n + 1 - 1) with (k + n + 1) by lia.
      rewrite (assign_move_same l (k + n) (k + n + 1) b x) by (done || lia).
      fold b1. rewrite Hrun. rewrite set_heap_set_heap. simpl.
      by rewrite insert_insert_eq. }
    split; [subst b1; by rewrite Hlen, !length_insert|].
    repeat split; intros i Hi.
    + rewrite Hlo by lia. subst b1. by rewrite !list_lookup_insert_ne by lia.
    + destruct (decide (i = k + n + 1)) as [->|].
      * rewrite Hhi by lia. subst b1. rewrite list_lookup_insert_ne by lia.
        rewrite list_lookup_insert_eq by lia.
        by replace (k + n + 1 - 1) with (k + n) by lia.
      * rewrite Hmid by lia. subst b1. by rewrite !list_lookup_insert_ne by lia.
    + rewrite Hhi by lia. subst b1. by rewrite !list_lookup_insert_ne by lia.
Qed.

End algorithms.

(** ** Exceptions and the steps of a method *)

Section control.
Context {T : Type} `{!Elem T} `{!Platform}.
Implicit Types (w : world T) (b : list T) (h : gmap loc (list T))
  (P : loc → Prop).

Local Abbreviation reads := (reads (T:=T)).
Local Abbreviation nothrow := (nothrow (T:=T)).
Local Abbreviation strong := (strong (T:=T)).

Lemma reads_ret {A} (a : A) : reads (mret a : M T A).
Proof. by intros w. Qed.

Lemma reads_bind {A B} (m : M T A) (f : A → M T B) :
  reads m → (∀ a, reads (f a)) → reads (m ≫= f).
Proof.
  intros Hm Hf w. rewrite bind_eq. specialize (Hm w).
  destruct (m w) as [a w1| |]; [|done..]. subst w1. apply Hf.
Qed.

Lemma reads_obj x : reads (obj x).
Proof. intros w. unfold obj. by destruct (objs w !! x). Qed.

Lemma reads_declare x : reads (declare x).
Proof. intros w. unfold declare. by destruct (objs w !! x). Qed.

Lemma reads_ptr_diff p q : reads (ptr_diff p q).
Proof. intros w. unfold ptr_diff. by case_decide. Qed.

Lemma reads_load p : reads (load p).
Proof. intros w. unfold load. by destruct (cell w p). Qed.

Lemma reads_throw {A} e : reads (throw e : M T A).
Proof. by intros w. Qed.

Lemma reads_undefined {A} : reads (undefined : M T A).
Proof. by intros w. Qed.

Lemma reads_Ok {A} (m : M T A) w a w' : reads m → m w = Ok a w' → w' = w.
Proof. intros Hm Hw. specialize (Hm w). by rewrite Hw in Hm. Qed.

Lemma nothrow_ret {A} (a : A) : nothrow (mret a : M T A).
Proof. by intros w e w'. Qed.

Lemma nothrow_bind {A B} (m : M T A) (f : A → M T B) :
  nothrow m → (∀ a, nothrow (f a)) → nothrow (m ≫= f).
Proof.
  intros Hm Hf w e w'. rewrite bind_eq.
  destruct (m w) as [a w1| |] eqn:Hw; [apply Hf | by apply Hm in Hw | done].
Qed.

Lemma nothrow_writes {A} P (m : M T A) : writes P m → nothrow m.
Proof. intros Hm w e w'. by eapply writes_no_throw. Qed.

Lemma nothrow_obj x : nothrow (obj x).
Proof. intros w e w'. apply obj_no_throw. Qed.

Lemma nothrow_put x v : nothrow (put x v).
Proof. by intros w e w'. Qed.

Lemma nothrow_declare x : nothrow (declare x).
Proof. intros w e w'. unfold declare. by destruct (objs w !! x). Qed.

Lemma nothrow_forget x : nothrow (forget x).
Proof. by intros w e w'. Qed.

Lemma nothrow_undefined {A} : nothrow (undefined : M T A).
Proof. by intros w e w'. Qed.

Lemma nothrow_set_size x n : nothrow (set_size x n).
Proof. apply nothrow_bind; [apply nothrow_obj | intros; apply nothrow_put]. Qed.

Lemma nothrow_set_capacity x n : nothrow (set_capacity x n).
Proof. apply nothrow_bind; [apply nothrow_obj | intros; apply nothrow_put]. Qed.

Lemma nothrow_set_data x d : nothrow (set_data x d).
Proof. apply nothrow_bind; [apply nothrow_obj | intros; apply nothrow_put]. Qed.

Lemma nothrow_ArrayPtr_delete a : nothrow (ArrayPtr_delete a).
Proof.
  intros w e w'. unfold ArrayPtr_delete. destruct a as [l|]; [|done].
  by destruct (heap w !! l).
Qed.

Lemma nothrow_with_local {A} (f : var → M T A) :
  (∀ x, nothrow (f x)) → nothrow (with_local f).
Proof. intros Hf w e w'. apply Hf. Qed.

Lemma strong_nothrow {A} (m : M T A) : nothrow m → strong m.
Proof. intros Hm w e w' Hw. by apply Hm in Hw. Qed.

Lemma strong_reads_bind {A B} (m : M T A) (f : A → M T B) :
  reads m → (∀ a, strong (f a)) → strong (m ≫= f).
Proof.
  intros Hm Hf w e w'. rewrite bind_eq. specialize (Hm w).
  destruct (m w) as [a w1| |]; [| |done].
  - subst w1. apply Hf.
  - by intros [= <- <-].
Qed.

Lemma strong_bind_nothrow {A B} (m : M T A) (f : A → M T B) :
  strong m → (∀ a, nothrow (f a)) → strong (m ≫= f).
Proof.
  intros Hm Hf w e w'. rewrite bind_eq.
  destruct (m w) as [a w1| |] eqn:Hw; [| |done].
  - intros Hf'. by apply Hf in Hf'.
  - intros [= <- <-]. by eapply Hm.
Qed.

Lemma strong_ArrayPtr_new n : strong (ArrayPtr_new n).
Proof.
  intros w e w'. unfold ArrayPtr_new. destruct (n =? 0)%N; [done|].
  destruct (max_elems <? n)%N; [|done]. by intros [= <- <-].
Qed.

Lemma strong_throw {A} e : strong (throw e : M T A).
Proof. by intros w e' w' [= <- <-]. Qed.

Lemma strong_with_local {A} (f : var → M T A) :
  (∀ x, strong (f x)) → strong (with_local f).
Proof. intros Hf w e w'. apply Hf. Qed.

(** *** Inversion of the steps that change the shape of the world *)

Lemma ArrayPtr_new_inv n d w w' :
  ArrayPtr_new n w = Ok d w' →
  (n = 0%N ∧ d = None ∧ w' = w) ∨
  (n ≠ 0%N ∧ (n ≤ max_elems)%N ∧ d = Some (next w) ∧
   w' = World (objs w)
              (<[next w := replicate (N.to_nat n) new_slot]> (heap w))
              (S (next w))).
Proof.
  unfold ArrayPtr_new. destruct (N.eqb_spec n 0).
  - intros [= <- <-]. by left.
  - destruct (N.ltb_spec max_elems n); [done|]. intros [= <- <-]. by right.
Qed.

Lemma ArrayPtr_new_Some n w :
  n ≠ 0%N → (n ≤ max_elems)%N →
  ArrayPtr_new n w
  = Ok (Some (next w))
       (World (objs w)
              (<[next w := replicate (N.to_nat n) new_slot]> (heap w))
              (S (next w))).
Proof.
  intros Hn Hle. unfold ArrayPtr_new.
  destruct (N.eqb_spec n 0); [done|].
  destruct (N.ltb_spec max_elems n); [lia|done].
Qed.

Lemma ArrayPtr_new_too_large n w :
  (max_elems < n)%N → ArrayPtr_new n w = Throw bad_alloc w.
Proof.
  intros Hn. unfold ArrayPtr_new.
  destruct (N.eqb_spec n 0); [lia|].
  destruct (N.ltb_spec max_elems n); [done|lia].
Qed.

Lemma ArrayPtr_delete_inv a w w' :
  ArrayPtr_delete a w = Ok tt w' →
  objs w' = objs w ∧ next w' = next w ∧ heap w' = delete_opt a (heap w).
Proof.
  unfold ArrayPtr_delete. destruct a as [l|]; [|by intros [= <-]].
  destruct (heap w !! l); [|done]. by intros [= <-].
Qed.

Lemma ArrayPtr_delete_Some l b w :
  heap w !! l = Some b →
  ArrayPtr_delete (Some l) w = Ok tt (set_heap w (delete l (heap w))).
Proof. intros Hl. unfold ArrayPtr_delete. by rewrite Hl. Qed.

Lemma put_inv x v w w' :
  put x v w = Ok tt w' →
  objs w' = <[x := v]> (objs w) ∧ heap w' = heap w ∧ next w' = next w.
Proof. by intros [= <-]. Qed.

Lemma set_size_inv x n w w' :
  set_size x n w = Ok tt w' →
  ∃ v, objs w !! x = Some v ∧
    objs w' = <[x := mkVec n (capacity_ v) (data_ v)]> (objs w) ∧
    heap w' = heap w ∧ next w' = next w.
Proof.
  unfold set_size. intros (v & w0 & Hv & Hp)%bind_Ok_inv.
  apply obj_inv in Hv as [-> Hv]. apply put_inv in Hp. eauto.
Qed.

Lemma set_capacity_inv x n w w' :
  set_capacity x n w = Ok tt w' →
  ∃ v, objs w !! x = Some v ∧
    objs w' = <[x := mkVec (size_ v) n (data_ v)]> (objs w) ∧
    heap w' = heap w ∧ next w' = next w.
Proof.
  unfold set_capacity. intros (v & w0 & Hv & Hp)%bind_Ok_inv.
  apply obj_inv in Hv as [-> Hv]. apply put_inv in Hp. eauto.
Qed.

Lemma set_data_inv x d w w' :
  set_data x d w = Ok tt w' →
  ∃ v, objs w !! x = Some v ∧
    objs w' = <[x := mkVec (size_ v) (capacity_ v) d]> (objs w) ∧
    heap w' = heap w ∧ next w' = next w.
Proof.
  unfold set_data. intros (v & w0 & Hv & Hp)%bind_Ok_inv.
  apply obj_inv in Hv as [-> Hv]. apply put_inv in Hp. eauto.
Qed.

Lemma set_size_Some x n v w :
  objs w !! x = Some v →
  set_size x n w
  = Ok tt (World (<[x := mkVec n (capacity_ v) (data_ v)]> (objs w))
                 (heap w) (next w)).
Proof. intros Hv. unfold set_size. by rewrite bind_eq, (obj_Some _ v). Qed.

Lemma set_capacity_Some x n v w :
  objs w !! x = Some v →
  set_capacity x n w
  = Ok tt (World (<[x := mkVec (size_ v) n (data_ v)]> (objs w))
                 (heap w) (next w)).
Proof. intros Hv. unfold set_capacity. by rewrite bind_eq, (obj_Some _ v). Qed.

Lemma set_data_Some x d v w :
  objs w !! x = Some v →
  set_data x d w
  = Ok tt (World (<[x := mkVec (size_ v) (capacity_ v) d]> (objs w))
                 (heap w) (next w)).
Proof. intros Hv. unfold set_data. by rewrite bind_eq, (obj_Some _ v). Qed.

(** *** Lengths of blocks *)

Lemma lens_lookup h l n :
  lens h !! l = Some n ↔ ∃ b, h !! l = Some b ∧ length b = n.
Proof.
  unfold lens. rewrite lookup_fmap. destruct (h !! l) as [b|]; simpl.
  - split; [intros [= <-]; eauto | by intros (b' & [= <-] & <-)].
  - split; [done | by intros (b' & ? & _)].
Qed.

Lemma lens_lookup_None h l : lens h !! l = None ↔ h !! l = None.
Proof. unfold lens. rewrite lookup_fmap. by destruct (h !! l). Qed.

Lemma lens_delete_opt a h : lens (delete_opt a h) = delete_opt a (lens h).
Proof. destruct a; simpl; [|done]. apply fmap_delete. Qed.

Lemma lens_insert h l b : lens (<[l := b]> h) = <[l := length b]> (lens h).
Proof. apply fmap_insert. Qed.

Lemma lens_delete h l : lens (delete l h) = delete l (lens h).
Proof. apply fmap_delete. Qed.

(** *** Well-formed worlds *)

Lemma world_ok_obj w x v :
  world_ok w → objs w !! x = Some v →
  (size_ v ≤ capacity_ v)%N ∧ (capacity_ v ≤ max_elems)%N ∧
  match data_ v with
  | None => capacity_ v = 0%N
  | Some l => capacity_ v ≠ 0%N ∧ l < next w ∧
      ∃ b, heap w !! l = Some b ∧ length b = N.to_nat (capacity_ v)
  end.
Proof.
  intros (Hv & _ & Hn) Hx. destruct (Hv x v Hx) as (? & ? & Hd).
  repeat split; [done.. |]. destruct (data_ v) as [l|]; [|done].
  destruct Hd as [? Hl]. repeat split; [done | | by apply lens_lookup].
  destruct (decide (l < next w)); [done|]. rewrite Hn in Hl by lia. done.
Qed.

Lemma world_ok_fresh w : world_ok w → heap w !! next w = None.
Proof. intros (_ & _ & Hn). apply lens_lookup_None, Hn. lia. Qed.

Lemma world_ok_shape w w' :
  objs w' = objs w → lens (heap w') = lens (heap w) → next w' = next w →
  world_ok w → world_ok w'.
Proof. unfold world_ok. by intros -> -> ->. Qed.

Lemma world_ok_stores_in P w w' : stores_in P w w' → world_ok w → world_ok w'.
Proof. intros (? & ? & ? & _). by apply world_ok_shape. Qed.

Lemma world_ok_disjoint w x y vx vy l :
  world_ok w → objs w !! x = Some vx → objs w !! y = Some vy →
  data_ vx = Some l → data_ vy = Some l → x = y.
Proof. intros (_ & Hd & _). apply Hd. Qed.

Lemma world_ok_evolves P this v v' w w' :
  world_ok w → objs w !! this = Some v → evolves P this v v' w w' →
  world_ok w'.
Proof.
  intros Hok Hthis (Ho & Hv' & Hcase & _).
  pose proof Hok as (Hvec & Hdis & Hfresh).
  unfold world_ok. rewrite Ho.
  assert (∀ y vy, y ≠ this → objs w !! y = Some vy →
            vec_ok (lens (heap w')) vy ∧ data_ vy ≠ data_ v' ∨
            vec_ok (lens (heap w')) vy ∧ data_ vy = None) as Hother.
  { intros y vy Hne Hy. pose proof (Hvec y vy Hy) as (Hs & Hc & Hd).
    destruct (data_ vy) as [ly|] eqn:Hdy; [left | right];
      (split; [split; [done|]; split; [done|]; rewrite Hdy | ]); try done.
    - destruct Hd as [Hnz Hly].
      destruct Hcase as [(_ & _ & -> & _) | (_ & -> & _)]; [done|].
      split; [done|].
      assert (ly ≠ next w) as Hnx.
      { intros ->. rewrite Hfresh in Hly by lia. done. }
      destruct (data_ v) as [l0|] eqn:Hd0; simpl.
      + rewrite lookup_delete_ne, lookup_insert_ne; [done.. |].
        intros ->. apply Hne. by eapply Hdis.
      + by rewrite lookup_insert_ne.
    - destruct Hd as [Hnz Hly].
      destruct Hcase as [(-> & _) | (-> & _)].
      + intros Heq. apply Hne. by eapply Hdis.
      + intros [= ->]. rewrite Hfresh in Hly by lia. done. }
  split_and!.
  - intros x vx. rewrite lookup_insert. case_decide as Hx.
    + by intros [= <-].
    + intros Hy. destruct (Hother x vx) as [[? _]|[? _]]; done.
  - intros x y vx vy l. rewrite !lookup_insert.
    repeat case_decide; subst; try done.
    + intros [= <-] Hy Hl1 Hl2.
      destruct (Hother y vy) as [[_ Hne]|[_ Hnone]]; [done.. | | ]; congruence.
    + intros Hx [= <-] Hl1 Hl2.
      destruct (Hother x vx) as [[_ Hne]|[_ Hnone]]; [done.. | | ]; congruence.
    + apply Hdis.
  - destruct Hcase as [(_ & _ & -> & ->) | (_ & -> & ->)]; [done|].
    intros l Hl.
    assert (<[next w := N.to_nat (capacity_ v')]> (lens (heap w)) !! l = None).
    { rewrite lookup_insert_ne by lia. apply Hfresh. lia. }
    destruct (data_ v); simpl; [|done].
    rewrite lookup_delete. by case_decide.
Qed.

(** The two ways a method takes the vector from one state to the next. *)
Lemma evolves_in_place P this v v' w w2 w3 :
  world_ok w → objs w !! this = Some v →
  stores_in P w w2 →
  objs w3 = <[this := v']> (objs w) → heap w3 = heap w2 → next w3 = next w →
  data_ v' = data_ v → capacity_ v' = capacity_ v →
  (size_ v' ≤ capacity_ v)%N →
  evolves P this v v' w w3.
Proof.
  intros Hok Hthis (Ho2 & Hn2 & Hl2 & Hf2) Ho3 Hh3 Hn3 Hd Hc Hs.
  destruct (world_ok_obj _ _ _ Hok Hthis) as (Hsz & Hcap & Hblk).
  pose proof Hok as (Hvec & _).
  unfold evolves, vec_ok. split_and!.
  - done.
  - lia.
  - lia.
  - rewrite Hh3, Hl2, Hd, Hc. by destruct (Hvec _ _ Hthis) as (_ & _ & ?).
  - left. rewrite Hh3. done.
  - intros l Hl _. rewrite Hh3. by apply Hf2.
Qed.

Lemma evolves_realloc P this v v' w w2 w3 :
  world_ok w → objs w !! this = Some v →
  capacity_ v' ≠ 0%N → (capacity_ v' ≤ max_elems)%N →
  stores_in (λ l, P l ∨ l = next w)
    (World (objs w)
       (<[next w := replicate (N.to_nat (capacity_ v')) new_slot]> (heap w))
       (S (next w)))
    w2 →
  objs w3 = <[this := v']> (objs w) →
  heap w3 = delete_opt (data_ v) (heap w2) → next w3 = S (next w) →
  data_ v' = Some (next w) → (size_ v' ≤ capacity_ v')%N →
  (∀ l, data_ v = Some l → P l) →
  evolves P this v v' w w3.
Proof.
  intros Hok Hthis Hnz Hmax (Ho2 & Hn2 & Hl2 & Hf2) Ho3 Hh3 Hn3 Hd Hs HP.
  simpl in *.
  destruct (world_ok_obj _ _ _ Hok Hthis) as (Hsz & Hcap & Hblk).
  assert (lens (heap w3) = delete_opt (data_ v)
            (<[next w := N.to_nat (capacity_ v')]> (lens (heap w)))) as HL.
  { by rewrite Hh3, lens_delete_opt, Hl2, lens_insert, length_replicate. }
  unfold evolves, vec_ok. split_and!.
  - done.
  - done.
  - done.
  - rewrite Hd, HL. split; [done|].
    destruct (data_ v) as [l|]; simpl.
    + destruct Hblk as (_ & Hlt & _).
      rewrite lookup_delete_ne by lia. apply lookup_insert_eq.
    + apply lookup_insert_eq.
  - right. done.
  - intros l Hl Hlt. rewrite Hh3.
    assert (heap w2 !! l = heap w !! l) as Hl2'.
    { rewrite Hf2 by (intros [|]; [done|lia]). by rewrite lookup_insert_ne by lia. }
    destruct (data_ v) as [l0|] eqn:Hd0; simpl; [|done].
    rewrite lookup_delete_ne; [done|]. intros ->. by apply Hl, HP.
Qed.

End control.

(** ** simple_vector.h: how each method changes the world *)

Section steps.
Context {T : Type} `{!Elem T} `{!Platform}.
Implicit Types (w : world T) (b : list T) (h : gmap loc (list T))
  (P : loc → Prop) (v : SimpleVector).

Import SimpleVectorH.

Local Ltac close_step :=
  simpl;
  first [ done | lia | apply stores_in_refl | congruence
        | rewrite size_decr_exact by lia; lia
        | rewrite size_incr_exact by lia; lia
        | by (intros ? ?; left) ].

Lemma evolves_refl P this v w :
  world_ok w → objs w !! this = Some v → evolves P this v v w w.
Proof.
  intros Hok Hv. destruct (world_ok_obj _ _ _ Hok Hv) as (? & ? & ?).
  apply (evolves_in_place P this v v w w w);
    first [done | apply stores_in_refl | by rewrite insert_id].
Qed.

Lemma grown_exact c : (c ≤ max_elems)%N → grown c = N.max 1 (2 * c).
Proof.
  intros Hc. unfold grown. destruct (N.eqb_spec c 0) as [->|]; [done|].
  rewrite size_double_exact by done. lia.
Qed.

Lemma Reserve_evolves this n w w' v :
  world_ok w → objs w !! this = Some v → Reserve this n w = Ok tt w' →
  ∃ v', evolves (λ l, data_ v = Some l) this v v' w w'.
Proof.
  intros Hok Hv Hrun. unfold Reserve in Hrun.
  destruct (world_ok_obj _ _ _ Hok Hv) as (Hsz & Hcap & Hd).
  rewrite bind_eq, (obj_Some _ _ _ Hv) in Hrun.
  destruct (N.ltb_spec (capacity_ v) n) as [Hlt|Hge].
  2: { injection Hrun as <-. exists v. by apply evolves_refl. }
  apply bind_Ok_inv in Hrun as (d & w1 & Hnew & Hrun).
  apply ArrayPtr_new_inv in Hnew as [(-> & _)|(Hnz & Hle & -> & ->)]; [lia|].
  apply bind_Ok_inv in Hrun as ([] & w2 & Hmove & Hrun).
  eapply (writes_Ok (λ l, data_ v = Some l ∨ l = next w)) in Hmove;
    [|apply writes_std_move; simpl; naive_solver].
  pose proof Hmove as (Ho2 & Hn2 & _). simpl in Ho2, Hn2.
  rewrite bind_eq, (set_data_Some _ _ v) in Hrun by by rewrite Ho2.
  rewrite bind_eq, (set_capacity_Some _ _ (mkVec (size_ v) (capacity_ v) (Some (next w))))
    in Hrun by apply lookup_insert_eq.
  apply ArrayPtr_delete_inv in Hrun as (Ho5 & Hn5 & Hh5). simpl in *.
  rewrite insert_insert_eq, Ho2 in Ho5.
  exists (mkVec (size_ v) n (Some (next w))).
  apply (evolves_realloc _ _ _ _ _ w2); close_step.
Qed.

Lemma Clear_evolves this w w' v :
  world_ok w → objs w !! this = Some v → Clear this w = Ok tt w' →
  ∃ v', evolves (λ l, data_ v = Some l) this v v' w w'.
Proof.
  intros Hok Hv Hrun. unfold Clear in Hrun.
  rewrite bind_eq, (obj_Some _ _ _ Hv) in Hrun.
  rewrite (set_size_Some _ _ v) in Hrun by done. injection Hrun as <-.
  exists (mkVec 0 (capacity_ v) (data_ v)).
  apply (evolves_in_place _ _ _ _ w w); close_step.
Qed.

Lemma PopBack_evolves this w w' v :
  world_ok w → objs w !! this = Some v → PopBack this w = Ok tt w' →
  ∃ v', evolves (λ l, data_ v = Some l) this v v' w w'.
Proof.
  intros Hok Hv Hrun. unfold PopBack in Hrun.
  destruct (world_ok_obj _ _ _ Hok Hv) as (Hsz & Hcap & Hd).
  rewrite bind_eq, (obj_Some _ _ _ Hv) in Hrun.
  destruct (N.ltb_spec 0 (size_ v)) as [Hpos|]; [|done].
  rewrite (set_size_Some _ _ v) in Hrun by done. injection Hrun as <-.
  exists (mkVec (size_decr (size_ v)) (capacity_ v) (data_ v)).
  apply (evolves_in_place _ _ _ _ w w); close_step.
Qed.

Lemma std_move_inv_range first last d_first w w' :
  std_move first last d_first w = Ok tt w' → off first ≤ off last.
Proof.
  unfold std_move. intros (n & w1 & Hd & _)%bind_Ok_inv.
  by apply ptr_diff_inv in Hd as (_ & _ & ? & _).
Qed.

Lemma Erase_evolves this pos p w w' v :
  world_ok w → objs w !! this = Some v → Erase this pos w = Ok p w' →
  ∃ v', evolves (λ l, data_ v = Some l) this v v' w w'.
Proof.
  intros Hok Hv Hrun. unfold Erase in Hrun.
  destruct (world_ok_obj _ _ _ Hok Hv) as (Hsz & Hcap & Hd).
  rewrite bind_eq, (obj_Some _ _ _ Hv) in Hrun.
  apply bind_Ok_inv in Hrun as (offset & w1 & Hdiff & Hrun).
  apply ptr_diff_inv in Hdiff as (-> & _).
  apply bind_Ok_inv in Hrun as ([] & w2 & Hmove & Hrun).
  pose proof (std_move_inv_range _ _ _ _ _ Hmove) as Hrange. simpl in Hrange.
  eapply (writes_Ok (λ l, data_ v = Some l)) in Hmove;
    [|apply writes_std_move; simpl; naive_solver].
  pose proof Hmove as (Ho2 & Hn2 & _).
  rewrite bind_eq, (set_size_Some _ _ v) in Hrun by by rewrite Ho2.
  rewrite bind_eq, (obj_Some _ (mkVec (size_decr (size_ v)) (capacity_ v) (data_ v)))
    in Hrun by apply lookup_insert_eq.
  injection Hrun as _ <-.
  exists (mkVec (size_decr (size_ v)) (capacity_ v) (data_ v)).
  apply (evolves_in_place _ _ _ _ w w2); close_step.
Qed.

Lemma Resize_evolves this n w w' v :
  world_ok w → objs w !! this = Some v → Resize this n w = Ok tt w' →
  ∃ v', evolves (λ l, data_ v = Some l) this v v' w w'.
Proof.
  intros Hok Hv Hrun. unfold Resize in Hrun.
  destruct (world_ok_obj _ _ _ Hok Hv) as (Hsz & Hcap & Hd).
  rewrite bind_eq, (obj_Some _ _ _ Hv) in Hrun.
  destruct (N.leb_spec n (size_ v)) as [Hle|Hgt].
  { rewrite (set_size_Some _ _ v) in Hrun by done. injection Hrun as <-.
    exists (mkVec n (capacity_ v) (data_ v)).
    apply (evolves_in_place _ _ _ _ w w); close_step. }
  destruct (N.leb_spec n (capacity_ v)) as [Hle|Hgt'].
  { apply bind_Ok_inv in Hrun as ([] & w2 & Hfill & Hrun).
    eapply (writes_Ok (λ l, data_ v = Some l)) in Hfill;
      [|by apply writes_default_range].
    pose proof Hfill as (Ho2 & Hn2 & _).
    rewrite (set_size_Some _ _ v) in Hrun by by rewrite Ho2.
    injection Hrun as <-.
    exists (mkVec n (capacity_ v) (data_ v)).
    apply (evolves_in_place _ _ _ _ w w2); close_step. }
  simpl in Hrun. set (nc := N.max n (size_double (capacity_ v))) in *.
  apply bind_Ok_inv in Hrun as (d & w1 & Hnew & Hrun).
  apply ArrayPtr_new_inv in Hnew as [(Hz & _)|(Hnz & Hmax & -> & ->)]; [lia|].
  apply bind_Ok_inv in Hrun as ([] & w2 & Hmove & Hrun).
  eapply (writes_Ok (λ l, data_ v = Some l ∨ l = next w)) in Hmove;
    [|apply writes_std_move; simpl; naive_solver].
  apply bind_Ok_inv in Hrun as ([] & w3 & Hfill & Hrun).
  eapply (writes_Ok (λ l, data_ v = Some l ∨ l = next w)) in Hfill;
    [|apply writes_default_range; naive_solver].
  pose proof (stores_in_trans _ _ _ _ Hmove Hfill) as Hst.
  pose proof Hst as (Ho3 & Hn3 & _). simpl in Ho3, Hn3.
  rewrite bind_eq, (set_data_Some _ _ v) in Hrun by by rewrite Ho3.
  rewrite bind_eq, (set_size_Some _ _ (mkVec (size_ v) (capacity_ v) (Some (next w))))
    in Hrun by apply lookup_insert_eq.
  rewrite bind_eq, (set_capacity_Some _ _ (mkVec n (capacity_ v) (Some (next w))))
    in Hrun by apply lookup_insert_eq.
  apply ArrayPtr_delete_inv in Hrun as (Ho5 & Hn5 & Hh5). simpl in *.
  rewrite !insert_insert_eq, Ho3 in Ho5.
  exists (mkVec n nc (Some (next w))).
  apply (evolves_realloc _ _ _ _ _ w3); close_step.
Qed.

Lemma set_size_incr_tail {A} this (a : A) w w' v :
  objs w !! this = Some v →
  (v0 ← obj this; set_size this (size_incr (size_ v0))) w = Ok tt w' →
  w' = World (<[this := mkVec (size_incr (size_ v)) (capacity_ v) (data_ v)]>
               (objs w)) (heap w) (next w).
Proof.
  intros Hv. rewrite bind_eq, (obj_Some _ _ _ Hv).
  rewrite (set_size_Some _ _ v) by done. by intros [= <-].
Qed.

Lemma PushBack_body_evolves mv this r w w' v :
  world_ok w → objs w !! this = Some v →
  PushBack_body mv this r w = Ok tt w' →
  ∃ v', evolves (own_or_arg v mv r) this v v' w w'.
Proof.
  intros Hok Hv Hrun. unfold PushBack_body in Hrun.
  destruct (world_ok_obj _ _ _ Hok Hv) as (Hsz & Hcap & Hd).
  rewrite bind_eq, (obj_Some _ _ _ Hv) in Hrun.
  destruct (N.leb_spec (capacity_ v) (size_ v)) as [Hfull|Hroom].
  - fold (grown (capacity_ v)) in Hrun.
    rewrite grown_exact in Hrun by done.
    set (nc := N.max 1 (2 * capacity_ v)) in *.
    apply bind_Ok_inv in Hrun as ([] & w5 & Hgrow & Hrun).
    apply bind_Ok_inv in Hgrow as (d & w1 & Hnew & Hgrow).
    apply ArrayPtr_new_inv in Hnew as [(Hz & _)|(Hnz & Hmax & -> & ->)]; [lia|].
    apply bind_Ok_inv in Hgrow as ([] & w2 & Hmove & Hgrow).
    eapply (writes_Ok (λ l, own_or_arg v mv r l ∨ l = next w)) in Hmove;
      [|apply writes_std_move; unfold own_or_arg; simpl; naive_solver].
    apply bind_Ok_inv in Hgrow as ([] & w3 & Hasg & Hgrow).
    eapply (writes_Ok (λ l, own_or_arg v mv r l ∨ l = next w)) in Hasg;
      [|apply writes_assign; unfold own_or_arg; simpl; naive_solver].
    pose proof (stores_in_trans _ _ _ _ Hmove Hasg) as Hst.
    pose proof Hst as (Ho3 & Hn3 & _). simpl in Ho3, Hn3.
    rewrite bind_eq, (set_data_Some _ _ v) in Hgrow by by rewrite Ho3.
    rewrite bind_eq, (set_capacity_Some _ _ (mkVec (size_ v) (capacity_ v) (Some (next w))))
      in Hgrow by apply lookup_insert_eq.
    apply ArrayPtr_delete_inv in Hgrow as (Ho5 & Hn5 & Hh5). simpl in *.
    rewrite !insert_insert_eq, Ho3 in Ho5.
    apply (set_size_incr_tail this tt _ _ (mkVec (size_ v) nc (Some (next w))))
      in Hrun; [|rewrite Ho5; apply lookup_insert_eq].
    subst w'. simpl in *. rewrite Ho5, insert_insert_eq.
    exists (mkVec (size_incr (size_ v)) nc (Some (next w))).
    apply (evolves_realloc _ _ _ _ _ w3); close_step.
  - apply bind_Ok_inv in Hrun as ([] & w2 & Hasg & Hrun).
    eapply (writes_Ok (own_or_arg v mv r)) in Hasg;
      [|apply writes_assign; unfold own_or_arg; simpl; naive_solver].
    pose proof Hasg as (Ho2 & Hn2 & _).
    apply (set_size_incr_tail this tt _ _ v) in Hrun; [|by rewrite Ho2].
    subst w'. rewrite Ho2.
    exists (mkVec (size_incr (size_ v)) (capacity_ v) (data_ v)).
    apply (evolves_in_place _ _ _ _ w w2); close_step.
Qed.

Lemma InsertImpl_evolves mv this pos r p w w' v :
  world_ok w → objs w !! this = Some v →
  InsertImpl mv this pos r w = Ok p w' →
  ∃ v', evolves (own_or_arg v mv r) this v v' w w'.
Proof.
  intros Hok Hv Hrun. unfold InsertImpl in Hrun.
  destruct (world_ok_obj _ _ _ Hok Hv) as (Hsz & Hcap & Hd).
  rewrite bind_eq, (obj_Some _ _ _ Hv) in Hrun.
  apply bind_Ok_inv in Hrun as (offset & w0 & Hdiff & Hrun).
  apply ptr_diff_inv in Hdiff as (-> & _).
  destruct (N.leb_spec (capacity_ v) (size_ v)) as [Hfull|Hroom].
  - fold (grown (capacity_ v)) in Hrun.
    rewrite grown_exact in Hrun by done.
    set (nc := N.max 1 (2 * capacity_ v)) in *.
    apply bind_Ok_inv in Hrun as ([] & w5 & Hgrow & Hrun).
    apply bind_Ok_inv in Hgrow as (d & w1 & Hnew & Hgrow).
    apply ArrayPtr_new_inv in Hnew as [(Hz & _)|(Hnz & Hmax & -> & ->)]; [lia|].
    apply bind_Ok_inv in Hgrow as ([] & w2 & Hmove & Hgrow).
    eapply (writes_Ok (λ l, own_or_arg v mv r l ∨ l = next w)) in Hmove;
      [|apply writes_std_move; unfold own_or_arg; simpl; naive_solver].
    apply bind_Ok_inv in Hgrow as ([] & w3 & Hasg & Hgrow).
    eapply (writes_Ok (λ l, own_or_arg v mv r l ∨ l = next w)) in Hasg;
      [|apply writes_assign; unfold own_or_arg; simpl; naive_solver].
    apply bind_Ok_inv in Hgrow as ([] & w4 & Hmove2 & Hgrow).
    eapply (writes_Ok (λ l, own_or_arg v mv r l ∨ l = next w)) in Hmove2;
      [|apply writes_std_move; unfold own_or_arg; simpl; naive_solver].
    pose proof (stores_in_trans _ _ _ _ Hmove Hasg) as Hst0.
    pose proof (stores_in_trans _ _ _ _ Hst0 Hmove2) as Hst.
    pose proof Hst as (Ho3 & Hn3 & _). simpl in Ho3, Hn3.
    rewrite bind_eq, (set_data_Some _ _ v) in Hgrow by by rewrite Ho3.
    rewrite bind_eq, (set_capacity_Some _ _ (mkVec (size_ v) (capacity_ v) (Some (next w))))
      in Hgrow by apply lookup_insert_eq.
    apply ArrayPtr_delete_inv in Hgrow as (Ho5 & Hn5 & Hh5). simpl in *.
    rewrite !insert_insert_eq, Ho3 in Ho5.
    rewrite bind_eq, (obj_Some _ (mkVec (size_ v) nc (Some (next w)))) in Hrun
      by (rewrite Ho5; apply lookup_insert_eq).
    rewrite bind_eq, (set_size_Some _ _ (mkVec (size_ v) nc (Some (next w))))
      in Hrun by (rewrite Ho5; apply lookup_insert_eq).
    rewrite bind_eq, (obj_Some _ (mkVec (size_incr (size_ v)) nc (Some (next w))))
      in Hrun by apply lookup_insert_eq.
    injection Hrun as _ <-.
    simpl in *. rewrite Ho5, insert_insert_eq.
    exists (mkVec (size_incr (size_ v)) nc (Some (next w))).
    apply (evolves_realloc _ _ _ _ _ w4); close_step.
  - apply bind_Ok_inv in Hrun as ([] & w3 & Hbody & Hrun).
    apply bind_Ok_inv in Hbody as ([] & w1 & Hmove & Hasg).
    eapply (writes_Ok (own_or_arg v mv r)) in Hmove;
      [|apply writes_std_move_backward; unfold own_or_arg; simpl; naive_solver].
    eapply (writes_Ok (own_or_arg v mv r)) in Hasg;
      [|apply writes_assign; unfold own_or_arg; simpl; naive_solver].
    pose proof (stores_in_trans _ _ _ _ Hmove Hasg) as Hst.
    pose proof Hst as (Ho3 & Hn3 & _).
    rewrite bind_eq, (obj_Some _ v) in Hrun by by rewrite Ho3.
    rewrite bind_eq, (set_size_Some _ _ v) in Hrun by by rewrite Ho3.
    rewrite bind_eq, (obj_Some _ (mkVec (size_incr (size_ v)) (capacity_ v) (data_ v)))
      in Hrun by apply lookup_insert_eq.
    injection Hrun as _ <-.
    simpl in *. rewrite Ho3.
    exists (mkVec (size_incr (size_ v)) (capacity_ v) (data_ v)).
    apply (evolves_in_place _ _ _ _ w w3); close_step.
Qed.

End steps.

(** ** Well-formedness is kept by objects coming and going *)

Section shapes.
Context {T : Type} `{!Elem T} `{!Platform}.
Implicit Types (O : gmap var SimpleVector) (L : gmap loc nat) (n : loc)
  (v : SimpleVector).

Lemma vec_ok_null L : vec_ok L (mkVec 0 0 None).
Proof. unfold vec_ok. simpl. lia. Qed.

Lemma shape_ok_null O L n x :
  shape_ok O L n → shape_ok (<[x := mkVec 0 0 None]> O) L n.
Proof.
  intros (Hvec & Hdis & Hfresh). split_and!; [| |done].
  - intros y vy. rewrite lookup_insert. case_decide.
    + intros [= <-]. apply vec_ok_null.
    + apply Hvec.
  - intros y z vy vz l. rewrite !lookup_insert.
    repeat case_decide; subst; try done.
    + by intros [= <-] _ ?.
    + by intros _ [= <-] _ ?.
    + apply Hdis.
Qed.

Lemma shape_ok_new O L n x s c :
  shape_ok O L n → O !! x = None →
  (s ≤ c)%N → c ≠ 0%N → (c ≤ max_elems)%N →
  shape_ok (<[x := mkVec s c (Some n)]> O) (<[n := N.to_nat c]> L) (S n).
Proof.
  intros (Hvec & Hdis & Hfresh) Hx Hs Hc Hmax.
  assert (∀ y vy, O !! y = Some vy → data_ vy ≠ Some n) as Hnot.
  { intros y vy Hy Hd. destruct (Hvec y vy Hy) as (_ & _ & Hb).
    rewrite Hd in Hb. destruct Hb as [_ Hb]. rewrite Hfresh in Hb by lia. done. }
  split_and!.
  - intros y vy. rewrite lookup_insert. case_decide.
    + intros [= <-]. unfold vec_ok. simpl. rewrite lookup_insert_eq. done.
    + intros Hy. destruct (Hvec y vy Hy) as (? & ? & Hb).
      split_and!; [done.. |]. destruct (data_ vy) as [l|] eqn:Hd; [|done].
      destruct Hb as [? Hb]. split; [done|].
      rewrite lookup_insert_ne; [done|]. intros <-. by eapply Hnot.
  - intros y z vy vz l. rewrite !lookup_insert.
    repeat case_decide; subst; try done.
    + intros [= <-] Hz [= <-] Hd. by apply Hnot in Hz.
    + intros Hy [= <-] Hd [= <-]. by apply Hnot in Hy.
    + apply Hdis.
  - intros l Hl. rewrite lookup_insert_ne by lia. apply Hfresh. lia.
Qed.

Lemma shape_ok_destroy O L n x v :
  shape_ok O L n → O !! x = Some v →
  shape_ok (delete x O) (delete_opt (data_ v) L) n.
Proof.
  intros (Hvec & Hdis & Hfresh) Hx. split_and!.
  - intros y vy. rewrite lookup_delete. case_decide; [done|].
    intros Hy. destruct (Hvec y vy Hy) as (? & ? & Hb).
    split_and!; [done.. |]. destruct (data_ vy) as [l|] eqn:Hd; [|done].
    destruct Hb as [? Hb]. split; [done|].
    destruct (data_ v) as [l0|] eqn:Hd0; simpl; [|done].
    rewrite lookup_delete_ne; [done|]. intros ->.
    by pose proof (Hdis x y v vy l Hx Hy Hd0 Hd).
  - intros y z vy vz l. rewrite !lookup_delete.
    repeat case_decide; try done. apply Hdis.
  - intros l Hl. destruct (data_ v) as [l0|]; simpl; [|by apply Hfresh].
    rewrite lookup_delete. case_decide; [done|]. by apply Hfresh.
Qed.

(** Two vectors exchange their members, each with a size of its choice
    within the capacity it receives. *)
Lemma shape_ok_exchange O L n x y a b sa sb :
  shape_ok O L n → x ≠ y → O !! x = Some a → O !! y = Some b →
  (sa ≤ capacity_ a)%N → (sb ≤ capacity_ b)%N →
  shape_ok (<[y := mkVec sa (capacity_ a) (data_ a)]>
              (<[x := mkVec sb (capacity_ b) (data_ b)]> O)) L n.
Proof.
  intros (Hvec & Hdis & Hfresh) Hne Hx Hy Hsa Hsb. split_and!; [| |done].
  - intros z vz. rewrite !lookup_insert. repeat case_decide; subst.
    + intros [= <-]. destruct (Hvec x a Hx) as (? & ? & ?). by split_and!.
    + intros [= <-]. destruct (Hvec y b Hy) as (? & ? & ?). by split_and!.
    + apply Hvec.
  - assert (∀ z vz,
      <[y := mkVec sa (capacity_ a) (data_ a)]>
        (<[x := mkVec sb (capacity_ b) (data_ b)]> O) !! z = Some vz →
      ∃ z' vz', O !! z' = Some vz' ∧ data_ vz = data_ vz' ∧
        (z = y ∧ z' = x ∨ z = x ∧ z' = y ∨ z ≠ x ∧ z ≠ y ∧ z' = z))
      as Horigin.
    { intros z vz. rewrite !lookup_insert. repeat case_decide.
      - intros [= <-]. exists x, a. naive_solver.
      - intros [= <-]. exists y, b. naive_solver.
      - intros Hz. exists z, vz. naive_solver. }
    intros z1 z2 v1 v2 l H1 H2 Hd1 Hd2.
    destruct (Horigin z1 v1 H1) as (k1 & u1 & K1 & E1 & C1).
    destruct (Horigin z2 v2 H2) as (k2 & u2 & K2 & E2 & C2).
    assert (k1 = k2) by (apply (Hdis k1 k2 u1 u2 l); congruence).
    destruct C1 as [[]|[[]|(? & ? & ?)]], C2 as [[]|[[]|(? & ? & ?)]];
      congruence.
Qed.

(** A new vector takes over the members of another one, which is left
    empty. *)
Lemma shape_ok_transfer O L n x y v :
  shape_ok O L n → O !! x = None → O !! y = Some v →
  shape_ok (<[x := v]> (<[y := mkVec 0 0 None]> O)) L n.
Proof.
  intros (Hvec & Hdis & Hfresh) Hx Hy.
  assert (x ≠ y) as Hne by congruence. split_and!; [| |done].
  - intros z vz. rewrite !lookup_insert. repeat case_decide; subst.
    + intros [= <-]. by eapply Hvec.
    + intros [= <-]. apply vec_ok_null.
    + apply Hvec.
  - assert (∀ z vz,
      <[x := v]> (<[y := mkVec 0 0 None]> O) !! z = Some vz →
      data_ vz = None ∨
      ∃ z', O !! z' = Some vz ∧ (z = x ∧ z' = y ∨ z ≠ x ∧ z ≠ y ∧ z' = z))
      as Horigin.
    { intros z vz. rewrite !lookup_insert. repeat case_decide.
      - intros [= <-]. right. exists y. naive_solver.
      - intros [= <-]. by left.
      - intros Hz. right. exists z. naive_solver. }
    intros z1 z2 v1 v2 l H1 H2 Hd1 Hd2.
    destruct (Horigin z1 v1 H1) as [?|(k1 & K1 & C1)]; [congruence|].
    destruct (Horigin z2 v2 H2) as [?|(k2 & K2 & C2)]; [congruence|].
    assert (k1 = k2) by (apply (Hdis k1 k2 v1 v2 l); congruence).
    destruct C1 as [[]|(? & ? & ?)], C2 as [[]|(? & ? & ?)]; congruence.
Qed.

End shapes.

(** ** simple_vector.h: constructors, destructor, swap and assignment *)

Section objects.
Context {T : Type} `{!Elem T} `{!Platform}.
Implicit Types (w : world T) (v a b : SimpleVector).

Import SimpleVectorH.

Local Ltac lk :=
  simpl;
  repeat first [ apply lookup_insert_eq
               | rewrite lookup_insert_ne by congruence ];
  done.

Lemma declare_inv x w w' :
  declare x w = Ok tt w' → w' = w ∧ objs w !! x = None.
Proof. unfold declare. destruct (objs w !! x); [done|]. by intros [= <-]. Qed.

Lemma SimpleVector_eta v : mkVec (size_ v) (capacity_ v) (data_ v) = v.
Proof. by destruct v. Qed.

Lemma swap_distinct this other a b w :
  this ≠ other → objs w !! this = Some a → objs w !! other = Some b →
  swap this other w
  = Ok tt (World (<[other := a]> (<[this := b]> (objs w))) (heap w) (next w)).
Proof.
  intros Hne Ha Hb. unfold swap.
  rewrite bind_eq, (obj_Some _ _ _ Ha). rewrite bind_eq, (obj_Some _ _ _ Hb).
  rewrite bind_eq, (set_data_Some _ _ a) by done.
  rewrite bind_eq, (set_data_Some _ _ b) by lk.
  rewrite bind_eq, (set_size_Some _ _ (mkVec (size_ a) (capacity_ a) (data_ b)))
    by lk.
  rewrite bind_eq, (set_size_Some _ _ (mkVec (size_ b) (capacity_ b) (data_ a)))
    by lk.
  rewrite bind_eq, (set_capacity_Some _ _ (mkVec (size_ b) (capacity_ a) (data_ b)))
    by lk.
  rewrite (set_capacity_Some _ _ (mkVec (size_ a) (capacity_ b) (data_ a)))
    by lk.
  simpl. rewrite !SimpleVector_eta. f_equal. f_equal.
  apply map_eq. intros k. rewrite !lookup_insert. by repeat case_decide.
Qed.

Lemma swap_self x a w :
  objs w !! x = Some a → swap x x w = Ok tt w.
Proof.
  intros Ha. unfold swap.
  rewrite bind_eq, (obj_Some _ _ _ Ha). rewrite bind_eq, (obj_Some _ _ _ Ha).
  rewrite bind_eq, (set_data_Some _ _ a) by done.
  rewrite bind_eq, (set_data_Some _ _ a)
    by (simpl; rewrite SimpleVector_eta; apply lookup_insert_eq).
  rewrite bind_eq, (set_size_Some _ _ a)
    by (simpl; rewrite SimpleVector_eta; apply lookup_insert_eq).
  rewrite bind_eq, (set_size_Some _ _ a)
    by (simpl; rewrite SimpleVector_eta; apply lookup_insert_eq).
  rewrite bind_eq, (set_capacity_Some _ _ a)
    by (simpl; rewrite SimpleVector_eta; apply lookup_insert_eq).
  rewrite (set_capacity_Some _ _ a)
    by (simpl; rewrite SimpleVector_eta; apply lookup_insert_eq).
  simpl. rewrite !SimpleVector_eta, !insert_insert_eq.
  rewrite insert_id by done. by rewrite world_eta.
Qed.

Lemma Clear_Some this v w :
  objs w !! this = Some v →
  Clear this w
  = Ok tt (World (<[this := mkVec 0 (capacity_ v) (data_ v)]> (objs w))
                 (heap w) (next w)).
Proof.
  intros Hv. unfold Clear. rewrite bind_eq, (obj_Some _ _ _ Hv).
  by rewrite (set_size_Some _ _ v).
Qed.

Lemma SimpleVector_move_Some this other v w :
  objs w !! this = None → objs w !! other = Some v →
  SimpleVector_move this other w
  = Ok tt (World (<[this := v]> (<[other := mkVec 0 0 None]> (objs w)))
                 (heap w) (next w)).
Proof.
  intros Hthis Hv. unfold SimpleVector_move.
  rewrite bind_eq, (declare_None _ _ Hthis).
  rewrite bind_eq, (obj_Some _ _ _ Hv).
  rewrite bind_eq, (set_size_Some _ _ v) by done.
  rewrite bind_eq, (set_capacity_Some _ _ (mkVec 0 (capacity_ v) (data_ v)))
    by apply lookup_insert_eq.
  rewrite bind_eq, (set_data_Some _ _ (mkVec 0 0 (data_ v)))
    by apply lookup_insert_eq.
  unfold put. simpl. by rewrite !insert_insert_eq, SimpleVector_eta.
Qed.

Lemma assign_move_distinct this rhs a b w :
  this ≠ rhs → objs w !! this = Some a → objs w !! rhs = Some b →
  assign_move this rhs w
  = Ok tt (World (<[rhs := mkVec 0 (capacity_ a) (data_ a)]>
                    (<[this := b]> (objs w)))
                 (heap w) (next w)).
Proof.
  intros Hne Ha Hb. unfold assign_move.
  rewrite bind_eq, (obj_Some _ _ _ Ha). rewrite bind_eq, (obj_Some _ _ _ Hb).
  rewrite decide_True by done.
  rewrite bind_eq, (swap_distinct this rhs a b) by done.
  rewrite (Clear_Some _ a) by apply lookup_insert_eq.
  simpl. by rewrite insert_insert_eq.
Qed.

Lemma assign_move_self x a w :
  objs w !! x = Some a → assign_move x x w = Ok tt w.
Proof.
  intros Ha. unfold assign_move.
  rewrite bind_eq, (obj_Some _ _ _ Ha). rewrite bind_eq, (obj_Some _ _ _ Ha).
  by rewrite decide_False by (by intros []).
Qed.

(** *** Every outcome is a well-formed world *)

Lemma obj_needed {A} this (f : SimpleVector → M T A) w r w' :
  (obj this ≫= f) w = Ok r w' → ∃ v, objs w !! this = Some v ∧ f v w = Ok r w'.
Proof.
  intros (v & w1 & Hv & Hf)%bind_Ok_inv. apply obj_inv in Hv as [-> Hv]. eauto.
Qed.

Lemma construct_ok this s c d w w1 :
  world_ok w → objs w !! this = None → ArrayPtr_new c w = Ok d w1 →
  (s ≤ c)%N →
  world_ok (World (<[this := mkVec s c d]> (objs w1)) (heap w1) (next w1)).
Proof.
  intros Hok Hthis Hnew Hs.
  apply ArrayPtr_new_inv in Hnew as [(-> & -> & ->)|(Hnz & Hmax & -> & ->)].
  - assert (s = 0%N) as -> by lia. by apply shape_ok_null.
  - unfold world_ok. simpl. rewrite lens_insert, length_replicate.
    by apply shape_ok_new.
Qed.

Lemma SimpleVector_default_ok this w w' :
  world_ok w → SimpleVector_default this w = Ok tt w' → world_ok w'.
Proof.
  intros Hok. unfold SimpleVector_default.
  intros ([] & w1 & [-> Hthis]%declare_inv & [= <-])%bind_Ok_inv.
  by apply shape_ok_null.
Qed.

Lemma SimpleVector_reserve_ok this n w w' :
  world_ok w → SimpleVector_reserve this n w = Ok tt w' → world_ok w'.
Proof.
  intros Hok. unfold SimpleVector_reserve.
  intros ([] & w1 & [-> Hthis]%declare_inv & Hrun)%bind_Ok_inv.
  apply bind_Ok_inv in Hrun as (d & w2 & Hnew & [= <-]).
  eapply construct_ok; [done.. | lia].
Qed.

Lemma SimpleVector_size_ok this n w w' :
  world_ok w → SimpleVector_size this n w = Ok tt w' → world_ok w'.
Proof.
  intros Hok. unfold SimpleVector_size.
  intros ([] & w1 & [-> Hthis]%declare_inv & Hrun)%bind_Ok_inv.
  apply bind_Ok_inv in Hrun as (d & w2 & Hnew & Hrun).
  apply bind_Ok_inv in Hrun as ([] & w3 & [= <-] & Hrun).
  pose proof (construct_ok this n n d w w2 Hok Hthis Hnew ltac:(lia)) as Hok3.
  destruct (0 <? n)%N; [|by injection Hrun as <-].
  eapply world_ok_stores_in; [|exact Hok3].
  eapply (writes_Ok (λ _, True)); [|exact Hrun]. by apply writes_std_fill.
Qed.

Lemma SimpleVector_fill_ok this n x w w' :
  world_ok w → SimpleVector_fill this n x w = Ok tt w' → world_ok w'.
Proof.
  intros Hok. unfold SimpleVector_fill.
  intros ([] & w1 & [-> Hthis]%declare_inv & Hrun)%bind_Ok_inv.
  apply bind_Ok_inv in Hrun as (d & w2 & Hnew & Hrun).
  apply bind_Ok_inv in Hrun as ([] & w3 & [= <-] & Hrun).
  pose proof (construct_ok this n n d w w2 Hok Hthis Hnew ltac:(lia)) as Hok3.
  destruct (0 <? n)%N; [|by injection Hrun as <-].
  eapply world_ok_stores_in; [|exact Hok3].
  eapply (writes_Ok (λ _, True)); [|exact Hrun]. by apply writes_std_fill.
Qed.

Lemma SimpleVector_init_ok this init w w' :
  world_ok w → SimpleVector_init this init w = Ok tt w' → world_ok w'.
Proof.
  intros Hok. unfold SimpleVector_init.
  intros ([] & w1 & [-> Hthis]%declare_inv & Hrun)%bind_Ok_inv.
  apply bind_Ok_inv in Hrun as (d & w2 & Hnew & Hrun).
  apply bind_Ok_inv in Hrun as ([] & w3 & [= <-] & Hrun).
  pose proof (construct_ok this _ _ d w w2 Hok Hthis Hnew (N.le_refl _)) as Hok3.
  destruct (0 <? _)%N; [|by injection Hrun as <-].
  eapply world_ok_stores_in; [|exact Hok3].
  eapply (writes_Ok (λ _, True)); [|exact Hrun]. by apply writes_copy_list.
Qed.

Lemma SimpleVector_copy_ok this other w w' :
  world_ok w → SimpleVector_copy this other w = Ok tt w' → world_ok w'.
Proof.
  intros Hok. unfold SimpleVector_copy.
  intros ([] & w1 & [-> Hthis]%declare_inv & Hrun)%bind_Ok_inv.
  apply obj_needed in Hrun as (o & Ho & Hrun).
  apply bind_Ok_inv in Hrun as (d & w2 & Hnew & Hrun).
  apply bind_Ok_inv in Hrun as ([] & w3 & [= <-] & Hrun).
  pose proof (construct_ok this _ _ d w w2 Hok Hthis Hnew (N.le_refl _)) as Hok3.
  destruct (0 <? _)%N; [|by injection Hrun as <-].
  eapply world_ok_stores_in; [|exact Hok3].
  eapply (writes_Ok (λ _, True)); [|exact Hrun]. by apply writes_std_copy.
Qed.

Lemma SimpleVector_move_ok this other w w' :
  world_ok w → SimpleVector_move this other w = Ok tt w' → world_ok w'.
Proof.
  intros Hok Hrun.
  destruct (objs w !! this) eqn:Hthis.
  { unfold SimpleVector_move in Hrun. rewrite bind_eq in Hrun.
    unfold declare in Hrun. by rewrite Hthis in Hrun. }
  destruct (objs w !! other) as [v|] eqn:Hother.
  2: { unfold SimpleVector_move in Hrun.
       rewrite bind_eq, (declare_None _ _ Hthis) in Hrun.
       rewrite bind_eq in Hrun. unfold obj in Hrun. by rewrite Hother in Hrun. }
  rewrite (SimpleVector_move_Some _ _ v) in Hrun by done.
  injection Hrun as <-. by apply shape_ok_transfer.
Qed.

Lemma destroy_ok this w w' :
  world_ok w → destroy this w = Ok tt w' → world_ok w'.
Proof.
  intros Hok. unfold destroy. intros (v & Hv & Hrun)%obj_needed.
  apply bind_Ok_inv in Hrun as ([] & w1 & Hdel & [= <-]).
  apply ArrayPtr_delete_inv in Hdel as (Ho & Hn & Hh).
  unfold world_ok. simpl. rewrite Ho, Hn, Hh, lens_delete_opt.
  by apply shape_ok_destroy.
Qed.

Lemma swap_ok this other w w' :
  world_ok w → swap this other w = Ok tt w' → world_ok w'.
Proof.
  intros Hok Hrun. pose proof Hrun as Hrun'. unfold swap in Hrun'.
  apply obj_needed in Hrun' as (a & Ha & Hrun').
  apply obj_needed in Hrun' as (b & Hb & _).
  destruct (decide (this = other)) as [->|Hne].
  - rewrite (swap_self _ a) in Hrun by done. by injection Hrun as <-.
  - rewrite (swap_distinct _ _ a b) in Hrun by done. injection Hrun as <-.
    destruct (world_ok_obj _ _ _ Hok Ha) as (? & _).
    destruct (world_ok_obj _ _ _ Hok Hb) as (? & _).
    rewrite <-(SimpleVector_eta a), <-(SimpleVector_eta b).
    by apply shape_ok_exchange.
Qed.

Lemma assign_move_ok this rhs w w' :
  world_ok w → assign_move this rhs w = Ok tt w' → world_ok w'.
Proof.
  intros Hok Hrun. pose proof Hrun as Hrun'. unfold assign_move in Hrun'.
  apply obj_needed in Hrun' as (a & Ha & Hrun').
  apply obj_needed in Hrun' as (b & Hb & _).
  destruct (decide (this = rhs)) as [->|Hne].
  - rewrite (assign_move_self _ a) in Hrun by done. by injection Hrun as <-.
  - rewrite (assign_move_distinct _ _ a b) in Hrun by done. injection Hrun as <-.
    destruct (world_ok_obj _ _ _ Hok Hb) as (? & _).
    rewrite <-(SimpleVector_eta b).
    apply shape_ok_exchange; try done. lia.
Qed.

Lemma assign_copy_ok this rhs w w' :
  world_ok w → assign_copy this rhs w = Ok tt w' → world_ok w'.
Proof.
  intros Hok. unfold assign_copy.
  intros (a & Ha & Hrun)%obj_needed. apply obj_needed in Hrun as (b & Hb & Hrun).
  case_decide; [|by injection Hrun as <-].
  unfold with_local in Hrun.
  apply bind_Ok_inv in Hrun as ([] & w1 & Hcopy & Hrun).
  apply bind_Ok_inv in Hrun as ([] & w2 & Hswap & Hrun).
  eapply destroy_ok; [|exact Hrun].
  eapply swap_ok; [|exact Hswap].
  by eapply SimpleVector_copy_ok.
Qed.

End objects.

(** ** simple_vector.h: every statement keeps the world well formed *)

Section statements.
Context {T : Type} `{!Elem T} `{!Platform}.
Implicit Types (w : world T) (v : SimpleVector).

Import SimpleVectorH.

Local Abbreviation reads := (reads (T:=T)).
Local Abbreviation nothrow := (nothrow (T:=T)).
Local Abbreviation strong := (strong (T:=T)).

Lemma nothrow_std_move p q d : nothrow (std_move p q d).
Proof. eapply (nothrow_writes (λ _, True)), writes_std_move; done. Qed.

Lemma nothrow_std_move_backward p q d : nothrow (std_move_backward p q d).
Proof. eapply (nothrow_writes (λ _, True)), writes_std_move_backward; done. Qed.

Lemma nothrow_std_copy p q d : nothrow (std_copy p q d).
Proof. eapply (nothrow_writes (λ _, True)), writes_std_copy; done. Qed.

Lemma nothrow_std_fill p q x : nothrow (std_fill p q x).
Proof. eapply (nothrow_writes (λ _, True)), writes_std_fill; done. Qed.

Lemma nothrow_copy_list l d : nothrow (copy_list l d).
Proof. eapply (nothrow_writes (λ _, True)), writes_copy_list; done. Qed.

Lemma nothrow_default_range a i j : nothrow (default_range a i j).
Proof. eapply (nothrow_writes (λ _, True)), writes_default_range; done. Qed.

Lemma nothrow_assign mv d r : nothrow (assign mv d r).
Proof. eapply (nothrow_writes (λ _, True)), writes_assign; done. Qed.

Lemma nothrow_store p x : nothrow (store p x).
Proof. intros w e w'. apply store_no_throw. Qed.

Lemma nothrow_load p : nothrow (load p).
Proof. intros w e w'. apply load_no_throw. Qed.

Lemma nothrow_ptr_diff p q : nothrow (ptr_diff p q).
Proof. intros w e w'. apply ptr_diff_no_throw. Qed.

Local Ltac nothrow_step :=
  first
    [ apply nothrow_ret | apply nothrow_obj | apply nothrow_put
    | apply nothrow_declare | apply nothrow_forget | apply nothrow_undefined
    | apply nothrow_set_size | apply nothrow_set_capacity
    | apply nothrow_set_data | apply nothrow_ArrayPtr_delete
    | apply nothrow_std_move | apply nothrow_std_move_backward
    | apply nothrow_std_copy | apply nothrow_std_fill
    | apply nothrow_copy_list | apply nothrow_default_range
    | apply nothrow_assign | apply nothrow_store | apply nothrow_load
    | apply nothrow_ptr_diff
    | apply nothrow_bind; [|intros ?]
    | match goal with
      | |- nothrow (if ?c then _ else _) => destruct c
      | |- nothrow (match ?c with _ => _ end) => destruct c
      end
    | progress cbv zeta ].

Local Ltac solve_nothrow := repeat nothrow_step.

Local Ltac reads_step :=
  first
    [ apply reads_ret | apply reads_obj | apply reads_declare
    | apply reads_ptr_diff | apply reads_load | apply reads_throw
    | apply reads_undefined
    | apply reads_bind; [|intros ?]
    | match goal with
      | |- reads (if ?c then _ else _) => destruct c
      end ].

Local Ltac solve_reads := repeat reads_step.

Local Ltac strong_step :=
  first
    [ apply strong_throw
    | apply strong_ArrayPtr_new
    | apply strong_nothrow; solve [solve_nothrow]
    | apply strong_reads_bind; [solve [solve_reads] | intros ?]
    | apply strong_bind_nothrow; [| intros ?; solve [solve_nothrow] ]
    | match goal with
      | |- strong (if ?c then _ else _) => destruct c
      end
    | progress cbv zeta ].

Local Ltac solve_strong := repeat strong_step.

Lemma nothrow_swap this other : nothrow (swap this other).
Proof. unfold swap. solve_nothrow. Qed.

Lemma nothrow_destroy this : nothrow (destroy this).
Proof. unfold destroy. solve_nothrow. Qed.

Lemma nothrow_Clear this : nothrow (Clear this).
Proof. unfold Clear. solve_nothrow. Qed.

Lemma strong_SimpleVector_copy this other : strong (SimpleVector_copy this other).
Proof. unfold SimpleVector_copy. solve_strong. Qed.

Lemma reads_index this i : reads (index this i).
Proof. unfold index. solve_reads. Qed.

Lemma reads_At this i : reads (At this i).
Proof. unfold At. solve_reads. Qed.

Lemma reads_begin this : reads (begin this).
Proof. unfold begin. solve_reads. Qed.

Lemma reads_bind_arg a : reads (bind_arg simple_vector_h a).
Proof. destruct a; simpl; [apply reads_ret|]. solve_reads. Qed.

Lemma strong_PushBack_body mv this r : strong (PushBack_body mv this r).
Proof. unfold PushBack_body. solve_strong. Qed.

Lemma strong_InsertImpl mv this pos r : strong (InsertImpl mv this pos r).
Proof. unfold InsertImpl. solve_strong. Qed.

(** The strong exception guarantee of every statement. *)
Lemma run_op_strong o : strong (run_op simple_vector_h o).
Proof.
  destruct o; simpl;
    unfold SimpleVector_default, SimpleVector_reserve, SimpleVector_size,
      SimpleVector_fill, SimpleVector_init, SimpleVector_move,
      assign_copy, assign_move, Reserve, GetSize, GetCapacity, IsEmpty,
      Resize, PopBack, Erase, PushBack, PushBack_move, Insert, Insert_move,
      end_;
    try (solve_strong; fail).
  - apply strong_bind_nothrow; [|intros ?; solve_nothrow].
    apply strong_reads_bind; [solve_reads | intros ?].
    apply strong_reads_bind; [solve_reads | intros ?].
    case_decide; [|apply strong_nothrow; solve_nothrow].
    apply strong_with_local. intros temp.
    apply strong_bind_nothrow; [apply strong_SimpleVector_copy|].
    intros _. apply nothrow_bind; [apply nothrow_swap | intros; apply nothrow_destroy].
  - apply strong_reads_bind; [apply reads_bind_arg | intros ?].
    apply strong_bind_nothrow; [apply strong_PushBack_body | intros ?; solve_nothrow].
  - apply strong_reads_bind; [apply reads_bind_arg | intros ?].
    apply strong_bind_nothrow; [apply strong_PushBack_body | intros ?; solve_nothrow].
  - apply strong_reads_bind; [apply reads_begin | intros ?].
    apply strong_reads_bind; [apply reads_bind_arg | intros ?].
    apply strong_bind_nothrow; [apply strong_InsertImpl | intros ?; solve_nothrow].
  - apply strong_reads_bind; [apply reads_begin | intros ?].
    apply strong_reads_bind; [apply reads_bind_arg | intros ?].
    apply strong_bind_nothrow; [apply strong_InsertImpl | intros ?; solve_nothrow].
Qed.

Lemma Reserve_ok this n w w' :
  world_ok w → Reserve this n w = Ok tt w' → world_ok w'.
Proof.
  intros Hok Hrun. pose proof Hrun as (v & Hv & _)%obj_needed.
  destruct (Reserve_evolves _ _ _ _ _ Hok Hv Hrun) as (v' & Hev).
  by eapply world_ok_evolves.
Qed.

Lemma Resize_ok this n w w' :
  world_ok w → Resize this n w = Ok tt w' → world_ok w'.
Proof.
  intros Hok Hrun. pose proof Hrun as (v & Hv & _)%obj_needed.
  destruct (Resize_evolves _ _ _ _ _ Hok Hv Hrun) as (v' & Hev).
  by eapply world_ok_evolves.
Qed.

Lemma Clear_ok this w w' :
  world_ok w → Clear this w = Ok tt w' → world_ok w'.
Proof.
  intros Hok Hrun. pose proof Hrun as (v & Hv & _)%obj_needed.
  destruct (Clear_evolves _ _ _ _ Hok Hv Hrun) as (v' & Hev).
  by eapply world_ok_evolves.
Qed.

Lemma PopBack_ok this w w' :
  world_ok w → PopBack this w = Ok tt w' → world_ok w'.
Proof.
  intros Hok Hrun. pose proof Hrun as (v & Hv & _)%obj_needed.
  destruct (PopBack_evolves _ _ _ _ Hok Hv Hrun) as (v' & Hev).
  by eapply world_ok_evolves.
Qed.

Lemma Erase_ok this pos p w w' :
  world_ok w → Erase this pos w = Ok p w' → world_ok w'.
Proof.
  intros Hok Hrun. pose proof Hrun as (v & Hv & _)%obj_needed.
  destruct (Erase_evolves _ _ _ _ _ _ Hok Hv Hrun) as (v' & Hev).
  by eapply world_ok_evolves.
Qed.

Lemma PushBack_body_ok mv this r w w' :
  world_ok w → PushBack_body mv this r w = Ok tt w' → world_ok w'.
Proof.
  intros Hok Hrun. pose proof Hrun as (v & Hv & _)%obj_needed.
  destruct (PushBack_body_evolves _ _ _ _ _ _ Hok Hv Hrun) as (v' & Hev).
  by eapply world_ok_evolves.
Qed.

Lemma InsertImpl_ok mv this pos r p w w' :
  world_ok w → InsertImpl mv this pos r w = Ok p w' → world_ok w'.
Proof.
  intros Hok Hrun. pose proof Hrun as (v & Hv & _)%obj_needed.
  destruct (InsertImpl_evolves _ _ _ _ _ _ _ _ Hok Hv Hrun) as (v' & Hev).
  by eapply world_ok_evolves.
Qed.

Lemma mret_inv {A} (a r : A) w w' : (mret a : M T A) w = Ok r w' → w' = w.
Proof. by intros [= _ <-]. Qed.

(** A statement that returns leaves a well-formed world. *)
Lemma run_op_ok o w r w' :
  world_ok w → run_op simple_vector_h o w = Ok r w' → world_ok w'.
Proof.
  intros Hok Hrun.
  destruct o; simpl in Hrun;
    apply bind_Ok_inv in Hrun as (r1 & w1 & H1 & Hrun);
    try lazymatch type of r1 with unit => destruct r1 end.
  - apply mret_inv in Hrun as ->. by eapply SimpleVector_default_ok.
  - apply mret_inv in Hrun as ->. by eapply SimpleVector_reserve_ok.
  - apply mret_inv in Hrun as ->. by eapply SimpleVector_size_ok.
  - apply mret_inv in Hrun as ->. by eapply SimpleVector_fill_ok.
  - apply mret_inv in Hrun as ->. by eapply SimpleVector_init_ok.
  - apply mret_inv in Hrun as ->. by eapply SimpleVector_copy_ok.
  - apply mret_inv in Hrun as ->. by eapply SimpleVector_move_ok.
  - apply mret_inv in Hrun as ->. by eapply destroy_ok.
  - apply mret_inv in Hrun as ->. by eapply assign_copy_ok.
  - apply mret_inv in Hrun as ->. by eapply assign_move_ok.
  - apply mret_inv in Hrun as ->. by eapply Reserve_ok.
  - apply mret_inv in Hrun as ->.
    apply (reads_Ok (GetSize x)) in H1 as ->; [done|]. unfold GetSize. solve_reads.
  - apply mret_inv in Hrun as ->.
    apply (reads_Ok (GetCapacity x)) in H1 as ->; [done|].
    unfold GetCapacity. solve_reads.
  - apply mret_inv in Hrun as ->.
    apply (reads_Ok (IsEmpty x)) in H1 as ->; [done|]. unfold IsEmpty. solve_reads.
  - apply (reads_Ok (index x i)) in H1 as ->; [|apply reads_index].
    apply bind_Ok_inv in Hrun as (? & w2 & [-> _]%load_inv & ->%mret_inv). done.
  - apply (reads_Ok (index x i)) in H1 as ->; [|apply reads_index].
    apply bind_Ok_inv in Hrun as ([] & w2 & Hst & ->%mret_inv).
    apply store_stores_in in Hst. by eapply world_ok_stores_in.
  - apply (reads_Ok (At x i)) in H1 as ->; [|apply reads_At].
    apply bind_Ok_inv in Hrun as (? & w2 & [-> _]%load_inv & ->%mret_inv). done.
  - apply (reads_Ok (At x i)) in H1 as ->; [|apply reads_At].
    apply bind_Ok_inv in Hrun as ([] & w2 & Hst & ->%mret_inv).
    apply store_stores_in in Hst. by eapply world_ok_stores_in.
  - apply mret_inv in Hrun as ->. by eapply Clear_ok.
  - apply mret_inv in Hrun as ->. by eapply Resize_ok.
  - apply (reads_Ok (bind_arg _ a)) in H1 as ->; [|apply reads_bind_arg].
    apply bind_Ok_inv in Hrun as ([] & w2 & Hp & ->%mret_inv).
    by eapply PushBack_body_ok.
  - apply (reads_Ok (bind_arg _ a)) in H1 as ->; [|apply reads_bind_arg].
    apply bind_Ok_inv in Hrun as ([] & w2 & Hp & ->%mret_inv).
    by eapply PushBack_body_ok.
  - apply (reads_Ok (begin x)) in H1 as ->; [|apply reads_begin].
    apply bind_Ok_inv in Hrun as (? & w2 & H2 & Hrun).
    apply (reads_Ok (bind_arg _ a)) in H2 as ->; [|apply reads_bind_arg].
    apply bind_Ok_inv in Hrun as (? & w3 & Hp & ->%mret_inv).
    by eapply InsertImpl_ok.
  - apply (reads_Ok (begin x)) in H1 as ->; [|apply reads_begin].
    apply bind_Ok_inv in Hrun as (? & w2 & H2 & Hrun).
    apply (reads_Ok (bind_arg _ a)) in H2 as ->; [|apply reads_bind_arg].
    apply bind_Ok_inv in Hrun as (? & w3 & Hp & ->%mret_inv).
    by eapply InsertImpl_ok.
  - apply mret_inv in Hrun as ->. by eapply PopBack_ok.
  - apply (reads_Ok (begin x)) in H1 as ->; [|apply reads_begin].
    apply bind_Ok_inv in Hrun as (? & w3 & Hp & ->%mret_inv).
    by eapply Erase_ok.
  - apply mret_inv in Hrun as ->. by eapply swap_ok.
  - apply mret_inv in Hrun as ->.
    by apply (reads_Ok (begin x)) in H1 as ->; [|apply reads_begin].
  - apply mret_inv in Hrun as ->.
    apply (reads_Ok (end_ x)) in H1 as ->; [done|]. unfold end_. solve_reads.
Qed.

Lemma empty_world_ok : world_ok (empty_world (T:=T)).
Proof.
  unfold world_ok, empty_world, shape_ok. simpl. split_and!.
  - intros x v. by rewrite lookup_empty.
  - intros x y vx vy l. by rewrite lookup_empty.
  - intros l _. unfold lens. by rewrite fmap_empty, lookup_empty.
Qed.

(** A program that runs leaves a well-formed world. *)
Lemma run_ok p : ∀ w tr w',
  world_ok w → run simple_vector_h p w = Some (tr, w') → world_ok w'.
Proof.
  induction p as [|o p IH]; intros w tr w' Hok Hrun; simpl in Hrun.
  - by injection Hrun as _ <-.
  - destruct (run_op simple_vector_h o w) as [r w1|e w1|] eqn:Hop; [| |done].
    + destruct (run simple_vector_h p w1) as [[tr1 w2]|] eqn:Hp; [|done].
      injection Hrun as _ <-. eapply IH; [|exact Hp]. by eapply run_op_ok.
    + destruct (run simple_vector_h p w1) as [[tr1 w2]|] eqn:Hp; [|done].
      injection Hrun as _ <-. eapply IH; [|exact Hp].
      by apply run_op_strong in Hop as ->.
Qed.

End statements.

(** ** Arrays as lists *)

Section arrays.
Context {A : Type}.
Implicit Types (l k b : list A) (x : A) (i j n : nat).

Lemma lookup_inserts_full l k i j :
  list_inserts i k l !! j
  = if decide (i ≤ j < i + length k ∧ j < length l) then k !! (j - i) else l !! j.
Proof.
  case_decide as Hc.
  - destruct Hc. by apply list_lookup_inserts.
  - destruct (decide (j < i)); [by apply list_lookup_inserts_lt|].
    destruct (decide (i + length k ≤ j)); [by apply list_lookup_inserts_ge|].
    rewrite !lookup_ge_None_2; [done | lia | rewrite length_inserts; lia].
Qed.

Lemma lookup_replicate_full n x i :
  replicate n x !! i = if decide (i < n) then Some x else None.
Proof.
  case_decide; [by apply lookup_replicate_2 | apply lookup_replicate_None; lia].
Qed.

Lemma lookup_app_full l k i :
  (l ++ k) !! i = if decide (i < length l) then l !! i else k !! (i - length l).
Proof.
  case_decide; [by apply lookup_app_l | apply lookup_app_r; lia].
Qed.

Lemma lookup_cons_full x l i :
  (x :: l) !! i = if decide (i = 0) then Some x else l !! (i - 1).
Proof.
  destruct i as [|i]; simpl; [done|]. by rewrite Nat.sub_0_r.
Qed.

End arrays.

(** Equalities of arrays, slot by slot. *)
Ltac array_lengths :=
  rewrite ?length_app, ?length_cons, ?length_take, ?length_drop,
    ?length_insert, ?length_inserts, ?length_replicate, ?length_fmap in *.

Ltac array_lookups :=
  repeat first
    [ rewrite lookup_take | rewrite lookup_drop | rewrite list_lookup_insert
    | rewrite lookup_inserts_full | rewrite lookup_replicate_full
    | rewrite lookup_app_full | rewrite lookup_cons_full
    | rewrite lookup_nil
    | progress array_lengths ].

Ltac array_close :=
  first
    [ done
    | lia
    | f_equal; lia
    | symmetry; apply lookup_ge_None_2; array_lengths; lia
    | apply lookup_ge_None_2; array_lengths; lia
    | match goal with
      | |- ?l !! ?i = ?l' !! ?j =>
          rewrite (lookup_ge_None_2 l i), (lookup_ge_None_2 l' j);
          [done | array_lengths; lia | array_lengths; lia]
      end ].

Ltac array_eq :=
  apply list_eq; intros ?; array_lookups;
  repeat case_decide; array_close.

Section arrays_of_vectors.
Context {A : Type}.
Implicit Types (l b old fresh : list A) (x : A) (i j k n m : nat).

(** What the slots of a vector hold after [PushBack] wrote to slot [n]. *)
Lemma take_insert_snoc b n x :
  n < length b → take (S n) (<[n := x]> b) = take n b ++ [x].
Proof. intros. array_eq. Qed.

Lemma take_pushed old fresh n x :
  n ≤ length old → n < length fresh →
  take (S n) (<[n := x]> (list_inserts 0 (take n old) fresh)) = take n old ++ [x].
Proof. intros. array_eq. Qed.

Lemma take_copied old fresh n :
  n ≤ length old → n ≤ length fresh →
  take n (list_inserts 0 (take n old) fresh) = take n old.
Proof. intros. array_eq. Qed.

Lemma drop_inserts_0 l (ks : list A) n :
  length ks ≤ n → drop n (list_inserts 0 ks l) = drop n l.
Proof. intros. array_eq. Qed.

(** What they hold after [Resize] filled the slots from [n] up to [m]. *)
Lemma take_resized b n m x :
  n ≤ m → m ≤ length b →
  take m (list_inserts n (replicate (m - n) x) b)
  = take n b ++ replicate (m - n) x.
Proof. intros. array_eq. Qed.

Lemma take_resized_realloc old fresh n m x :
  n ≤ length old → n ≤ m → m ≤ length fresh →
  take m (list_inserts n (replicate (m - n) x)
            (list_inserts 0 (take n old) fresh))
  = take n old ++ replicate (m - n) x.
Proof. intros. array_eq. Qed.



Lemma inserted_via_reserve old fresh n k x :
  k ≤ n → n ≤ length old → n < length fresh →
  <[k := x]>
    (list_inserts (S k)
       (take (n - k) (drop k (list_inserts 0 (take n old) fresh)))
       (list_inserts 0 (take n old) fresh))
  = list_inserts (S k) (take (n - k) (drop k old))
      (<[k := x]> (list_inserts 0 (take k old) fresh)).
Proof. intros. array_eq. Qed.

(** The block after [move_backward] shifted [n] elements from slot [k] on,
    once slot [k] is written. *)
Lemma shifted_right_written b b' k n x :
  k + n < length b → length b' = length b →
  (∀ i, i < k → b' !! i = b !! i) →
  (∀ i, k < i ≤ k + n → b' !! i = b !! (i - 1)) →
  (∀ i, k + n < i → b' !! i = b !! i) →
  <[k := x]> b' = <[k := x]> (list_inserts (S k) (take n (drop k b)) b).
Proof.
  intros Hk Hlen Hlo Hmid Hhi. apply list_eq. intros i.
  destruct (decide (i = k)) as [->|Hne].
  { rewrite !list_lookup_insert_eq; [done | array_lengths; lia | lia]. }
  rewrite !list_lookup_insert_ne by done.
  destruct (decide (i < k)); [rewrite Hlo by done; array_lookups;
                               repeat case_decide; array_close|].
  destruct (decide (i ≤ k + n)).
  - rewrite Hmid by lia. array_lookups. repeat case_decide; array_close.
  - rewrite Hhi by lia. array_lookups. repeat case_decide; array_close.
Qed.

(** What the slots hold after [Erase] shifted the elements behind slot
    [k] to the left. *)
Lemma take_erased b b' k n :
  k < n → n ≤ length b → length b' = length b →
  (∀ i, i < k → b' !! i = b !! i) →
  (∀ i, k ≤ i < k + (n - S k) → b' !! i = b !! S i) →
  take (n - 1) b' = take k (take n b) ++ drop (S k) (take n b).
Proof.
  intros Hk Hn Hlen Hlo Hmid. apply list_eq. intros i.
  destruct (decide (i < n - 1)).
  2: { array_lookups. repeat case_decide; array_close. }
  rewrite lookup_take_lt by done.
  destruct (decide (i < k)).
  - rewrite Hlo by done. array_lookups. repeat case_decide; array_close.
  - rewrite Hmid by lia. array_lookups. repeat case_decide; array_close.
Qed.

End arrays_of_vectors.

(** ** simple_vector.h: [PushBack] and [Insert] in closed form *)

(** Equality of two maps built from inserts and deletes. *)
Ltac map_lookups :=
  apply map_eq; intros ?;
  repeat first [ rewrite lookup_delete | rewrite lookup_insert ];
  repeat case_decide; subst; first [ done | lia | congruence ].

Section growth.
Context {T : Type} `{!Elem T} `{!Platform}.
Implicit Types (w : world T) (b : list T) (h : gmap loc (list T))
  (v : SimpleVector) (r : ref T).

Import SimpleVectorH.

Lemma ref_value_frame r w w' :
  (∀ l, ref_loc r = Some l → heap w' !! l = heap w !! l) →
  ref_value w' r = ref_value w r.
Proof.
  destruct r as [x|[[l|] i]]; simpl; [done | | done].
  intros Hl. unfold cell. simpl. by rewrite Hl.
Qed.

Lemma assign_run mv l j b r w :
  heap w !! l = Some b → j < length b → ref_loc r ≠ Some l →
  assign mv (Ptr (Some l) j) r w
  = match ref_value w r with
    | Some x =>
        Ok tt (set_heap w (consume mv r x (<[l := <[j := x]> b]> (heap w))))
    | None => Undefined
    end.
Proof.
  intros Hl Hj Hr. destruct r as [x|[[lp|] ip]]; simpl in *.
  - rewrite (assign_val _ _ _ b) by done. by destruct mv.
  - assert (lp ≠ l) as Hne by congruence.
    unfold assign. simpl read_ref. rewrite bind_eq. unfold load.
    destruct (cell w (Ptr (Some lp) ip)) as [x|] eqn:Hc; [|done].
    rewrite bind_eq, (store_Some l j b) by done.
    destruct mv; [|done].
    unfold cell in Hc. simpl in Hc.
    destruct (heap w !! lp) as [bp|] eqn:Hlp; [|done]. simpl in Hc.
    rewrite (store_Some lp ip bp).
    + rewrite set_heap_set_heap. simpl. f_equal. f_equal.
      apply map_eq. intros k. destruct (decide (k = lp)) as [->|].
      * rewrite lookup_insert_eq, lookup_alter_eq.
        by rewrite lookup_insert_ne, Hlp by done.
      * by rewrite lookup_insert_ne, lookup_alter_ne by done.
    + simpl. by rewrite lookup_insert_ne.
    + by eapply lookup_lt_Some.
  - unfold assign. simpl read_ref. rewrite bind_eq. by unfold load, cell.
Qed.

Lemma consume_lookup_ne mv r x h l :
  ref_loc r ≠ Some l → consume mv r x h !! l = h !! l.
Proof.
  destruct mv, r as [?|[[lp|] ip]]; simpl; try done.
  intros Hne. apply lookup_alter_ne. congruence.
Qed.

Lemma consume_delete mv r x h l :
  ref_loc r ≠ Some l →
  delete l (consume mv r x h) = consume mv r x (delete l h).
Proof.
  destruct mv, r as [?|[[lp|] ip]]; simpl; try done.
  intros Hne. apply map_eq. intros k.
  repeat first [rewrite lookup_delete | rewrite lookup_alter].
  repeat case_decide; subst; try done.
Qed.

Lemma alter_Some (f : list T → list T) h l b :
  h !! l = Some b → alter f l h = <[l := f b]> h.
Proof.
  intros Hl. apply map_eq. intros k. rewrite lookup_alter, lookup_insert.
  case_decide; subst; [by rewrite Hl | done].
Qed.

Lemma move_n_0 p q w : move_n 0 p q w = Ok tt w.
Proof. reflexivity. Qed.

Lemma block_of_Some w v l b :
  data_ v = Some l → heap w !! l = Some b → block_of w v = b.
Proof. unfold block_of. by intros -> ->. Qed.

Lemma grows_too_far_room v :
  (size_ v < capacity_ v)%N → grows_too_far v = false.
Proof.
  intros. unfold grows_too_far. by destruct (N.ltb_spec (size_ v) (capacity_ v)); [|lia].
Qed.

Lemma added_room v n :
  (size_ v < capacity_ v)%N →
  added v n = mkVec (size_ v + 1) (capacity_ v) (data_ v).
Proof.
  intros. unfold added. by destruct (N.ltb_spec (size_ v) (capacity_ v)); [|lia].
Qed.

Lemma added_full v n :
  (capacity_ v ≤ size_ v)%N →
  added v n = mkVec (size_ v + 1) (N.max 1 (2 * capacity_ v)) (Some n).
Proof.
  intros. unfold added. by destruct (N.ltb_spec (size_ v) (capacity_ v)); [lia|].
Qed.

Lemma PushBack_body_run mv this r w v :
  world_ok w → objs w !! this = Some v → elsewhere r v w →
  PushBack_body mv this r w
  = if grows_too_far v then Throw bad_alloc w
    else match ref_value w r with
         | Some x => Ok tt (pushed mv this v r x w)
         | None => Undefined
         end.
Proof.
  intros Hok Hv Hr. unfold PushBack_body.
  destruct (world_ok_obj _ _ _ Hok Hv) as (Hsz & Hcap & Hd).
  pose proof (world_ok_fresh _ Hok) as Hfresh.
  rewrite bind_eq, (obj_Some _ _ _ Hv).
  destruct (N.leb_spec (capacity_ v) (size_ v)) as [Hfull|Hroom].
  - fold (grown (capacity_ v)). rewrite grown_exact by done.
    unfold grows_too_far, pushed. rewrite added_full by done.
    destruct (N.ltb_spec (size_ v) (capacity_ v)) as [|_]; [lia|]. simpl negb.
    set (nc := N.max 1 (2 * capacity_ v)) in *.
    destruct (N.ltb_spec max_elems nc) as [Hfar|Hfit]; simpl andb; cbv iota.
    { by rewrite !bind_eq, ArrayPtr_new_too_large. }
    rewrite !bind_eq, ArrayPtr_new_Some by lia.
    set (fresh := replicate (N.to_nat nc) new_slot).
    assert (length fresh = N.to_nat nc) as Hlf by apply length_replicate.
    destruct (data_ v) as [l|] eqn:Hdv.
    + destruct Hd as (Hnz & Hlt & b & Hb & Hlen).
      rewrite (block_of_Some _ _ l b) by done.
      unfold std_move, ArrayPtr_Get, ptr_add. simpl.
      rewrite !bind_eq, ptr_diff_same by lia. rewrite Nat.sub_0_r.
      rewrite (move_n_cross _ l (next w) 0 0 b fresh);
        [| lia | simpl; by rewrite lookup_insert_ne by lia
         | simpl; apply lookup_insert_eq | lia | lia].
      unfold set_heap; cbn [objs heap next]. unfold ArrayPtr_index.
      rewrite !bind_eq, (assign_run _ (next w) _
                 (list_inserts 0 (take (N.to_nat (size_ v)) (drop 0 b)) fresh));
        [| simpl; apply lookup_insert_eq | rewrite length_inserts; lia
         | intros Heq; destruct (Hr _ Heq); lia].
      rewrite ref_value_frame with (w := w).
      2: { intros lp Hlp. destruct (Hr _ Hlp) as [Hne Hlt']. simpl.
           rewrite !lookup_insert_ne; [done | lia | congruence | lia]. }
      destruct (ref_value w r) as [x|]; [|done].
      unfold set_heap; cbn [objs heap next].
      rewrite !bind_eq, (set_data_Some _ _ v) by done.
      rewrite bind_eq, (set_capacity_Some _ _ (mkVec (size_ v) (capacity_ v) (Some (next w))))
        by apply lookup_insert_eq.
      cbn [objs heap next size_ capacity_ data_].
      assert (ref_loc r ≠ Some l) as Hrl.
      { intros Heq. by destruct (Hr _ Heq). }
      rewrite (ArrayPtr_delete_Some l (list_inserts 0
                 (moved_from <$> take (N.to_nat (size_ v)) (drop 0 b)) b)).
      2: { cbn [heap]. rewrite consume_lookup_ne by done.
           rewrite !lookup_insert_ne by lia. apply lookup_insert_eq. }
      rewrite bind_eq, (obj_Some _ (mkVec (size_ v) nc (Some (next w))))
        by (cbn [objs set_heap]; rewrite insert_insert_eq; apply lookup_insert_eq).
      rewrite (set_size_Some _ _ (mkVec (size_ v) nc (Some (next w))))
        by (cbn [objs set_heap]; rewrite insert_insert_eq; apply lookup_insert_eq).
      unfold set_heap.
      cbn [objs heap next size_ capacity_ data_ drop].
      rewrite !insert_insert_eq. rewrite size_incr_exact by lia.
      f_equal. f_equal.
      rewrite consume_delete by done. f_equal. map_lookups.
    + assert (capacity_ v = 0%N) as Hc0 by done.
      assert (size_ v = 0%N) as Hs0 by lia.
      unfold std_move, ArrayPtr_Get, ptr_add, block_of. rewrite Hdv, Hs0.
      change (N.to_nat 0) with 0. cbn [blk off Nat.add take].
      rewrite !bind_eq, ptr_diff_same by lia. cbn [Nat.sub].
      rewrite move_n_0. unfold ArrayPtr_index. change (N.to_nat 0) with 0.
      rewrite !bind_eq, (assign_run _ (next w) _ fresh);
        [| cbn [heap]; apply lookup_insert_eq | lia
         | intros Heq; destruct (Hr _ Heq); lia].
      rewrite ref_value_frame with (w := w).
      2: { intros lp Hlp. destruct (Hr _ Hlp) as [Hne Hlt']. cbn [heap].
           rewrite !lookup_insert_ne; [done | lia]. }
      destruct (ref_value w r) as [x|]; [|done].
      unfold set_heap; cbn [objs heap next].
      rewrite !bind_eq, (set_data_Some _ _ v) by done.
      rewrite bind_eq, (set_capacity_Some _ _ (mkVec (size_ v) (capacity_ v) (Some (next w))))
        by apply lookup_insert_eq.
      cbn [objs heap next size_ capacity_ data_ ArrayPtr_delete].
      rewrite bind_eq, (obj_Some _ (mkVec (size_ v) nc (Some (next w))))
        by (cbn [objs]; rewrite insert_insert_eq; apply lookup_insert_eq).
      rewrite (set_size_Some _ _ (mkVec (size_ v) nc (Some (next w))))
        by (cbn [objs]; rewrite insert_insert_eq; apply lookup_insert_eq).
      cbn [objs heap next size_ capacity_ data_ delete_opt list_inserts].
      rewrite !insert_insert_eq. rewrite size_incr_exact by lia.
      by rewrite Hs0.
  - rewrite grows_too_far_room by done. unfold pushed.
    rewrite added_room by done.
    destruct (N.ltb_spec (size_ v) (capacity_ v)) as [_|]; [|lia].
    destruct (data_ v) as [l|] eqn:Hdv; [|lia].
    destruct Hd as (Hnz & Hlt & b & Hb & Hlen).
    unfold ArrayPtr_index.
    rewrite bind_eq, (assign_run _ l _ b);
      [| done | lia | intros Heq; by destruct (Hr _ Heq)].
    destruct (ref_value w r) as [x|]; [|done].
    rewrite bind_eq, (obj_Some _ v) by done.
    rewrite (set_size_Some _ _ v) by done.
    unfold set_heap, update_block.
    cbn [objs heap next size_ capacity_ data_].
    rewrite size_incr_exact by lia.
    rewrite (alter_Some _ _ _ b) by done. by rewrite Hdv.
Qed.

Lemma consume_insert mv r x h l b :
  ref_loc r ≠ Some l →
  <[l := b]> (consume mv r x h) = consume mv r x (<[l := b]> h).
Proof.
  destruct mv, r as [?|[[lp|] ip]]; simpl; try done.
  intros Hne. apply map_eq. intros k.
  repeat first [rewrite lookup_insert | rewrite lookup_alter].
  repeat case_decide; subst; try done.
Qed.

Lemma move_backward_n_0 p q w : move_backward_n 0 p q w = Ok tt w.
Proof. reflexivity. Qed.

Lemma InsertImpl_run mv this k r w v :
  world_ok w → objs w !! this = Some v → elsewhere r v w →
  k ≤ N.to_nat (size_ v) →
  InsertImpl mv this (Ptr (data_ v) k) r w
  = if grows_too_far v then Throw bad_alloc w
    else match ref_value w r with
         | Some x =>
             Ok (Ptr (data_ (added v (next w))) k) (inserted mv this v k r x w)
         | None => Undefined
         end.
Proof.
  intros Hok Hv Hr Hk. unfold InsertImpl.
  destruct (world_ok_obj _ _ _ Hok Hv) as (Hsz & Hcap & Hd).
  pose proof (world_ok_fresh _ Hok) as Hfresh.
  rewrite bind_eq, (obj_Some _ _ _ Hv).
  unfold begin_of, ArrayPtr_Get, ptr_add. cbn [blk off Nat.add].
  rewrite bind_eq, ptr_diff_same by lia. rewrite Nat.sub_0_r.
  destruct (N.leb_spec (capacity_ v) (size_ v)) as [Hfull|Hroom].
  - fold (grown (capacity_ v)). rewrite grown_exact by done.
    unfold grows_too_far, inserted. rewrite added_full by done.
    destruct (N.ltb_spec (size_ v) (capacity_ v)) as [|_]; [lia|]. simpl negb.
    set (nc := N.max 1 (2 * capacity_ v)) in *.
    destruct (N.ltb_spec max_elems nc) as [Hfar|Hfit]; simpl andb; cbv iota.
    { by rewrite !bind_eq, ArrayPtr_new_too_large. }
    rewrite !bind_eq, ArrayPtr_new_Some by lia.
    set (fresh := replicate (N.to_nat nc) new_slot).
    assert (length fresh = N.to_nat nc) as Hlf by apply length_replicate.
    set (n := N.to_nat (size_ v)) in *.
    destruct (data_ v) as [l|] eqn:Hdv.
    + destruct Hd as (Hnz & Hlt & b & Hb & Hlen).
      assert (ref_loc r ≠ Some l) as Hrl.
      { intros Heq. by destruct (Hr _ Heq). }
      assert (ref_loc r ≠ Some (next w)) as Hrn.
      { intros Heq. destruct (Hr _ Heq). lia. }
      rewrite (block_of_Some _ _ l b) by done.
      unfold std_move. cbn [blk off].
      rewrite !bind_eq, ptr_diff_same by lia. rewrite Nat.sub_0_r.
      rewrite (move_n_cross _ l (next w) 0 0 b fresh);
        [| lia | cbn [heap]; by rewrite lookup_insert_ne by lia
         | cbn [heap]; apply lookup_insert_eq | lia | lia].
      unfold set_heap; cbn [objs heap next drop].
      rewrite !bind_eq,
        (assign_run _ (next w) _ (list_inserts 0 (take k b) fresh));
        [| cbn [heap]; apply lookup_insert_eq | rewrite length_inserts; lia
         | done].
      rewrite ref_value_frame with (w := w).
      2: { intros lp Hlp. destruct (Hr _ Hlp) as [Hne Hlt']. cbn [heap].
           rewrite !lookup_insert_ne; [done | lia | congruence | lia]. }
      destruct (ref_value w r) as [x|]; [|done].
      unfold set_heap; cbn [objs heap next].
      rewrite !bind_eq, ptr_diff_same by lia.
      rewrite (move_n_cross _ l (next w) k (k + 1)
                 (list_inserts 0 (moved_from <$> take k b) b)
                 (<[k := x]> (list_inserts 0 (take k b) fresh)));
        [| lia
         | cbn [heap]; rewrite consume_lookup_ne by done;
           rewrite !lookup_insert_ne by lia; apply lookup_insert_eq
         | cbn [heap]; rewrite consume_lookup_ne by done; apply lookup_insert_eq
         | rewrite length_inserts; lia
         | rewrite length_insert, length_inserts; lia].
      unfold set_heap; cbn [objs heap next].
      rewrite !bind_eq, (set_data_Some _ _ v) by done.
      rewrite bind_eq, (set_capacity_Some _ _ (mkVec (size_ v) (capacity_ v) (Some (next w))))
        by apply lookup_insert_eq.
      cbn [objs heap next size_ capacity_ data_].
      erewrite ArrayPtr_delete_Some
        by (cbn [heap]; rewrite lookup_insert_ne by lia; apply lookup_insert_eq).
      unfold set_heap; cbn [objs heap next].
      rewrite bind_eq, (obj_Some _ (mkVec (size_ v) nc (Some (next w))))
        by (cbn [objs]; rewrite insert_insert_eq; apply lookup_insert_eq).
      rewrite bind_eq, (set_size_Some _ _ (mkVec (size_ v) nc (Some (next w))))
        by (cbn [objs]; rewrite insert_insert_eq; apply lookup_insert_eq).
      rewrite bind_eq, (obj_Some _ (mkVec (size_incr (size_ v)) nc (Some (next w))))
        by (cbn [objs size_ capacity_ data_]; apply lookup_insert_eq).
      cbn [objs heap next size_ capacity_ data_ delete_opt].
      rewrite !insert_insert_eq. rewrite size_incr_exact by lia.
      unfold mret, M_ret. f_equal. f_equal.
      rewrite drop_inserts_0 by (rewrite length_fmap, length_take; lia).
      rewrite !consume_insert by done.
      rewrite consume_delete by done. f_equal.
      rewrite Nat.add_1_r. map_lookups.
    + assert (capacity_ v = 0%N) as Hc0 by done.
      assert (size_ v = 0%N) as Hs0 by lia.
      assert (k = 0) as -> by lia.
      unfold std_move, block_of. rewrite Hdv. subst n. rewrite Hs0.
      change (N.to_nat 0) with 0. cbn [blk off].
      rewrite !bind_eq, ptr_diff_same by lia. cbn [Nat.sub].
      rewrite move_n_0.
      rewrite !bind_eq, (assign_run _ (next w) _ fresh);
        [| cbn [heap]; apply lookup_insert_eq | lia
         | intros Heq; destruct (Hr _ Heq); lia].
      rewrite ref_value_frame with (w := w).
      2: { intros lp Hlp. destruct (Hr _ Hlp) as [Hne Hlt']. cbn [heap].
           rewrite !lookup_insert_ne; [done | lia]. }
      destruct (ref_value w r) as [x|]; [|done].
      unfold set_heap; cbn [objs heap next].
      rewrite !bind_eq, ptr_diff_same by lia. cbn [Nat.sub].
      rewrite move_n_0.
      rewrite !bind_eq, (set_data_Some _ _ v) by done.
      rewrite bind_eq, (set_capacity_Some _ _ (mkVec (size_ v) (capacity_ v) (Some (next w))))
        by apply lookup_insert_eq.
      cbn [objs heap next size_ capacity_ data_ ArrayPtr_delete].
      rewrite bind_eq, (obj_Some _ (mkVec (size_ v) nc (Some (next w))))
        by (cbn [objs]; rewrite insert_insert_eq; apply lookup_insert_eq).
      rewrite bind_eq, (set_size_Some _ _ (mkVec (size_ v) nc (Some (next w))))
        by (cbn [objs]; rewrite insert_insert_eq; apply lookup_insert_eq).
      rewrite bind_eq, (obj_Some _ (mkVec (size_incr (size_ v)) nc (Some (next w))))
        by (cbn [objs size_ capacity_ data_]; apply lookup_insert_eq).
      cbn [objs heap next size_ capacity_ data_ delete_opt list_inserts take drop
           Nat.sub].
      rewrite !insert_insert_eq. rewrite size_incr_exact by lia.
      by rewrite Hs0.
  - rewrite grows_too_far_room by done. unfold inserted.
    rewrite added_room by done.
    destruct (N.ltb_spec (size_ v) (capacity_ v)) as [_|]; [|lia].
    destruct (data_ v) as [l|] eqn:Hdv; [|lia].
    destruct Hd as (Hnz & Hlt & b & Hb & Hlen).
    set (n := N.to_nat (size_ v)) in *.
    unfold std_move_backward. cbn [blk off Nat.add].
    rewrite !bind_eq, ptr_diff_same by lia.
    destruct (move_backward_n_shift_right (n - k) l k b w Hb)
      as (b' & Hrun & Hlen' & Hlo & Hmid & Hhi); [lia|].
    replace (k + (n - k)) with n in Hrun by lia.
    rewrite Hrun. cbv beta iota.
    rewrite (assign_run _ l _ b');
      [| cbn [heap set_heap]; apply lookup_insert_eq | lia
       | intros Heq; by destruct (Hr _ Heq)].
    rewrite ref_value_frame with (w := w).
    2: { intros lp Hlp. destruct (Hr _ Hlp) as [Hne Hlt']. cbn [heap set_heap].
         rewrite lookup_insert_ne; [done | congruence]. }
    destruct (ref_value w r) as [x|]; [|done].
    unfold set_heap; cbn [objs heap next].
    rewrite bind_eq, (obj_Some _ v) by done.
    rewrite bind_eq, (set_size_Some _ _ v) by done.
    rewrite bind_eq, (obj_Some _ (mkVec (size_incr (size_ v)) (capacity_ v) (data_ v)))
      by (cbn [objs]; apply lookup_insert_eq).
    unfold update_block. cbn [objs heap next size_ capacity_ data_].
    rewrite size_incr_exact by lia. rewrite Hdv.
    unfold mret, M_ret. f_equal. f_equal.
    rewrite insert_insert_eq, (alter_Some _ _ _ b) by done.
    f_equal. f_equal.
    apply (shifted_right_written b b' k (n - k) x); try done; lia.
Qed.

End growth.

(** ** simple_vector.h: what [PushBack] and [Insert] do to the elements *)

Section operations.
Context {T : Type} `{!Elem T} `{!Platform}.
Implicit Types (w : world T) (b : list T) (h : gmap loc (list T))
  (v : SimpleVector) (r : ref T).

Import SimpleVectorH.

Lemma length_block_of w x v :
  world_ok w → objs w !! x = Some v →
  length (block_of w v) = N.to_nat (capacity_ v).
Proof.
  intros Hok Hv. destruct (world_ok_obj _ _ _ Hok Hv) as (_ & _ & Hd).
  unfold block_of. destruct (data_ v) as [l|].
  - destruct Hd as (_ & _ & b & -> & Hlen). done.
  - rewrite Hd. done.
Qed.

Lemma length_contents w x v :
  world_ok w → objs w !! x = Some v →
  length (contents w v) = N.to_nat (size_ v).
Proof.
  intros Hok Hv. destruct (world_ok_obj _ _ _ Hok Hv) as (Hs & _).
  unfold contents. rewrite length_take, (length_block_of _ x) by done. lia.
Qed.

Lemma consume_val mv x y h : consume mv (RVal x) y h = h.
Proof. by destruct mv. Qed.

Lemma elsewhere_val x v w : elsewhere (RVal x) v w.
Proof. by intros l. Qed.

Lemma contents_pushed mv this v x w :
  world_ok w → objs w !! this = Some v → grows_too_far v = false →
  contents (pushed mv this v (RVal x) x w) (added v (next w))
  = contents w v ++ [x].
Proof.
  intros Hok Hv Hfar.
  destruct (world_ok_obj _ _ _ Hok Hv) as (Hsz & Hcap & Hd).
  pose proof (length_block_of _ _ _ Hok Hv) as Hlen.
  unfold contents, pushed, added.
  unfold grows_too_far in Hfar.
  destruct (size_ v <? capacity_ v)%N eqn:Hroom;
    [apply N.ltb_lt in Hroom | apply N.ltb_ge in Hroom];
    cbn [size_ capacity_ data_ heap negb andb] in *.
  - rewrite consume_val.
    unfold block_of, update_block in *. destruct (data_ v) as [l|]; [|simpl in *; lia].
    destruct Hd as (_ & _ & b & Hb & _). cbn [data_ heap].
    rewrite lookup_alter_eq, Hb in *. simpl in *.
    replace (N.to_nat (size_ v + 1)) with (S (N.to_nat (size_ v))) by lia.
    apply take_insert_snoc. lia.
  - rewrite consume_val. unfold block_of at 1. simpl.
    rewrite lookup_insert_eq. simpl.
    replace (N.to_nat (size_ v + 1)) with (S (N.to_nat (size_ v))) by lia.
    apply N.ltb_ge in Hfar.
    apply take_pushed; [lia|]. rewrite length_replicate. lia.
Qed.


Lemma grows_too_far_false v :
  (size_ v = capacity_ v → (N.max 1 (2 * capacity_ v) ≤ max_elems)%N) →
  (size_ v ≤ capacity_ v)%N → grows_too_far v = false.
Proof.
  intros Hfit Hs. unfold grows_too_far.
  destruct (N.ltb_spec (size_ v) (capacity_ v)); [done|]. simpl.
  apply N.ltb_ge, Hfit. lia.
Qed.

Lemma added_capacity v n :
  (size_ v ≤ capacity_ v)%N →
  capacity_ (added v n)
  = if (size_ v =? capacity_ v)%N then N.max 1 (2 * capacity_ v)
    else capacity_ v.
Proof.
  intros Hs. unfold added.
  destruct (N.ltb_spec (size_ v) (capacity_ v)), (N.eqb_spec (size_ v) (capacity_ v));
    simpl; (done || lia).
Qed.

Lemma added_size v n : size_ (added v n) = (size_ v + 1)%N.
Proof. unfold added. by destruct (size_ v <? capacity_ v)%N. Qed.

Lemma objs_pushed mv this v r x w :
  objs (pushed mv this v r x w) !! this = Some (added v (next w)).
Proof.
  unfold pushed. destruct (size_ v <? capacity_ v)%N; apply lookup_insert_eq.
Qed.


End operations.

(** ** simple_vector.h: [Erase] *)

Section removal.
Context {T : Type} `{!Elem T} `{!Platform}.
Implicit Types (w : world T) (b : list T) (v : SimpleVector).

Import SimpleVectorH.


(** [Erase(begin() + k)] on a vector with more than [k] elements. *)
Lemma Erase_run this k w v :
  world_ok w → objs w !! this = Some v → k < N.to_nat (size_ v) →
  ∃ w',
    Erase this (ptr_add (begin_of v) k) w = Ok (ptr_add (begin_of v) k) w' ∧
    objs w' !! this = Some (mkVec (size_ v - 1) (capacity_ v) (data_ v)) ∧
    contents w' (mkVec (size_ v - 1) (capacity_ v) (data_ v))
    = take k (contents w v) ++ drop (S k) (contents w v).
Proof.
  intros Hok Hv Hk.
  destruct (world_ok_obj _ _ _ Hok Hv) as (Hsz & Hcap & Hd).
  destruct (data_ v) as [l|] eqn:Hdv; [|lia].
  destruct Hd as (_ & _ & b & Hb & Hlen).
  destruct (move_n_shift_left (N.to_nat (size_ v) - S k) l k b w Hb)
    as (b' & Hmove & Hlen' & Hlo & Hmid & _); [lia|].
  eexists. split_and!.
  - unfold Erase. rewrite bind_eq, (obj_Some _ _ _ Hv).
    unfold begin_of, ArrayPtr_Get, ptr_add. rewrite Hdv. cbn [blk off].
    rewrite bind_eq, ptr_diff_same by lia.
    rewrite bind_eq. unfold std_move.
    rewrite bind_eq, ptr_diff_same by lia.
    rewrite ?Nat.add_0_l, ?Nat.sub_0_r, ?Nat.add_1_r, Hmove.
    rewrite bind_eq, (set_size_Some _ _ v) by done.
    rewrite bind_eq. unfold obj. cbn [objs set_heap]. rewrite lookup_insert_eq.
    rewrite size_decr_exact by lia. cbn [data_]. rewrite Hdv. reflexivity.
  - cbn [objs]. by rewrite lookup_insert_eq.
  - unfold contents, block_of. cbn [data_ heap set_heap size_].
    rewrite Hdv, lookup_insert_eq, Hb. cbn [default from_option id].
    replace (N.to_nat (size_ v - 1)) with (N.to_nat (size_ v) - 1) by lia.
    apply (take_erased b b' k (N.to_nat (size_ v)));
      [exact Hk | lia | done | exact Hlo | exact Hmid].
Qed.


End removal.

(** ** simple_vector.h: [Resize] *)

Section resizing.
Context {T : Type} `{!Elem T} `{!Platform}.
Implicit Types (w : world T) (b : list T) (v : SimpleVector).

Import SimpleVectorH.

Local Ltac next_call :=
  rewrite bind_eq; cbn [objs heap next set_heap].

Local Tactic Notation "member" uconstr(lem) :=
  erewrite lem by (cbn [objs]; first [eassumption | apply lookup_insert_eq]);
  cbn [objs heap next size_ capacity_ data_].

(** [Resize(ns)] with [ns <= size_]. *)
Lemma Resize_shrink this ns w v :
  world_ok w → objs w !! this = Some v → (ns ≤ size_ v)%N →
  ∃ w',
    Resize this ns w = Ok tt w' ∧
    objs w' !! this = Some (mkVec ns (capacity_ v) (data_ v)) ∧
    contents w' (mkVec ns (capacity_ v) (data_ v))
    = take (N.to_nat ns) (contents w v).
Proof.
  intros Hok Hv Hns. eexists. split_and!.
  - unfold Resize. rewrite bind_eq, (obj_Some _ _ _ Hv).
    destruct (N.leb_spec ns (size_ v)); [|lia].
    by apply set_size_Some.
  - cbn [objs]. apply lookup_insert_eq.
  - unfold contents, block_of. cbn [size_ data_ heap set_heap].
    rewrite take_take. f_equal. lia.
Qed.

(** [Resize(ns)] with [size_ < ns <= capacity_]. *)
Lemma Resize_in_place this ns w v :
  world_ok w → objs w !! this = Some v →
  (size_ v < ns)%N → (ns ≤ capacity_ v)%N →
  ∃ w',
    Resize this ns w = Ok tt w' ∧
    objs w' !! this = Some (mkVec ns (capacity_ v) (data_ v)) ∧
    contents w' (mkVec ns (capacity_ v) (data_ v))
    = contents w v ++ replicate (N.to_nat (ns - size_ v)) Type_default.
Proof.
  intros Hok Hv Hlo Hhi.
  destruct (world_ok_obj _ _ _ Hok Hv) as (Hsz & Hcap & Hd).
  destruct (data_ v) as [l|] eqn:Hdv; [|lia].
  destruct Hd as (_ & _ & b & Hb & Hlen).
  eexists. split_and!.
  - unfold Resize. rewrite bind_eq, (obj_Some _ _ _ Hv).
    destruct (N.leb_spec ns (size_ v)); [lia|].
    destruct (N.leb_spec ns (capacity_ v)); [|lia].
    next_call. unfold default_range, ArrayPtr_index. rewrite Hdv.
    rewrite (fill_n_block _ l _ b) by (done || lia).
    cbn [objs heap next set_heap]. member set_size_Some. rewrite Hdv.
    reflexivity.
  - cbn [objs]. apply lookup_insert_eq.
  - unfold contents, block_of. cbn [size_ data_ heap set_heap].
    rewrite Hdv, lookup_insert_eq, Hb. cbn [default from_option id].
    rewrite N2Nat.inj_sub. apply take_resized; lia.
Qed.

(** [Resize(ns)] with [capacity_ < ns]. *)
Lemma Resize_realloc this ns w v :
  world_ok w → objs w !! this = Some v →
  (capacity_ v < ns)%N → (N.max ns (2 * capacity_ v) ≤ max_elems)%N →
  ∃ w',
    Resize this ns w = Ok tt w' ∧
    objs w' !! this
    = Some (mkVec ns (N.max ns (2 * capacity_ v)) (Some (next w))) ∧
    contents w' (mkVec ns (N.max ns (2 * capacity_ v)) (Some (next w)))
    = contents w v ++ replicate (N.to_nat (ns - size_ v)) Type_default.
Proof.
  intros Hok Hv Hlo Hfit.
  destruct (world_ok_obj _ _ _ Hok Hv) as (Hsz & Hcap & Hd).
  pose proof (world_ok_fresh _ Hok) as Hfresh.
  assert (size_double (capacity_ v) = (2 * capacity_ v)%N) as Hdbl
    by (apply size_double_exact; lia).
  set (nc := N.max ns (2 * capacity_ v)) in *.
  set (fresh := replicate (N.to_nat nc) (new_slot (T:=T))).
  assert (length fresh = N.to_nat nc) as Hfl by apply length_replicate.
  assert (Resize this ns w
          = (new_data ← ArrayPtr_new nc;
             std_move (ArrayPtr_Get (data_ v))
                      (ptr_add (ArrayPtr_Get (data_ v)) (N.to_nat (size_ v)))
                      (ArrayPtr_Get new_data);;
             default_range new_data (size_ v) ns;;
             set_data this new_data;;
             set_size this ns;;
             set_capacity this nc;;
             ArrayPtr_delete (data_ v)) w) as ->.
  { unfold Resize. rewrite bind_eq, (obj_Some _ _ _ Hv).
    destruct (N.leb_spec ns (size_ v)); [lia|].
    destruct (N.leb_spec ns (capacity_ v)); [lia|].
    cbv zeta. by rewrite Hdbl. }
  rewrite bind_eq, ArrayPtr_new_Some by lia. fold fresh.
  unfold std_move, ArrayPtr_Get, ptr_add, default_range, ArrayPtr_index.
  cbn [blk off]. next_call. rewrite bind_eq, ptr_diff_same by lia.
  rewrite Nat.add_0_l, Nat.sub_0_r.
  destruct (data_ v) as [l|] eqn:Hdv.
  - destruct Hd as (_ & Hl & b & Hb & Hlen).
    assert (l ≠ next w) as Hne by lia.
    rewrite (move_n_cross _ l (next w) 0 0 b fresh);
      [| done | cbn [heap]; by rewrite lookup_insert_ne | cbn [heap];
         apply lookup_insert_eq | lia | lia].
    cbn [objs heap next set_heap]. rewrite drop_0.
    next_call.
    erewrite fill_n_block;
      [| cbn [heap]; apply lookup_insert_eq | rewrite length_inserts; lia].
    cbn [objs heap next set_heap].
    next_call. member set_data_Some.
    next_call. member set_size_Some.
    next_call. member set_capacity_Some.
    erewrite ArrayPtr_delete_Some;
      [| cbn [heap]; rewrite !lookup_insert_ne by done; apply lookup_insert_eq].
    cbn [objs heap next set_heap].
    eexists. split_and!; [reflexivity | cbn [objs]; apply lookup_insert_eq |].
    unfold contents, block_of. cbn [size_ data_ heap set_heap].
    rewrite Hdv, Hb, lookup_delete_ne, lookup_insert_eq by done. cbn [default from_option id].
    rewrite N2Nat.inj_sub. apply take_resized_realloc; lia.
  - assert (size_ v = 0%N) as Hs0 by lia.
    rewrite Hs0. change (N.to_nat 0) with 0. rewrite move_n_0.
    next_call.
    erewrite fill_n_block;
      [| cbn [heap]; apply lookup_insert_eq | lia].
    cbn [objs heap next set_heap].
    next_call. member set_data_Some.
    next_call. member set_size_Some.
    next_call. member set_capacity_Some.
    unfold ArrayPtr_delete.
    eexists. split_and!; [reflexivity | cbn [objs]; apply lookup_insert_eq |].
    unfold contents, block_of. cbn [size_ data_ heap set_heap].
    rewrite Hdv, Hs0, lookup_insert_eq. cbn [default from_option id].
    rewrite N.sub_0_r. change (N.to_nat 0) with 0. rewrite take_0, app_nil_l.
    replace (N.to_nat ns) with (N.to_nat ns - 0) at 2 3 by lia.
    rewrite (take_resized fresh 0 (N.to_nat ns)) by lia.
    by rewrite take_0, Nat.sub_0_r.
Qed.

(** C5.  For every well-formed vector, [Resize(ns)] returns (as long as
    the allocator can serve the next capacity when [ns] exceeds the
    capacity) with size [ns].  With [ns <= size] the elements are the first
    [ns] old ones and the capacity is unchanged; with
    [size < ns <= capacity] the elements are the old ones followed by
    [ns - size] default-constructed values and the capacity is unchanged;
    with [capacity < ns] the capacity becomes [max(ns, 2 * capacity)] and
    the elements are the old ones followed by [ns - size]
    default-constructed values. *)
Theorem Resize_three_cases this ns w v :
  world_ok w → objs w !! this = Some v →
  ((capacity_ v < ns)%N → (N.max ns (2 * capacity_ v) ≤ max_elems)%N) →
  ∃ w' v',
    Resize this ns w = Ok tt w' ∧
    objs w' !! this = Some v' ∧
    size_ v' = ns ∧
    ((ns ≤ size_ v)%N →
       capacity_ v' = capacity_ v ∧
       contents w' v' = take (N.to_nat ns) (contents w v)) ∧
    ((size_ v < ns)%N → (ns ≤ capacity_ v)%N →
       capacity_ v' = capacity_ v ∧
       contents w' v'
       = contents w v ++ replicate (N.to_nat (ns - size_ v)) Type_default) ∧
    ((capacity_ v < ns)%N →
       capacity_ v' = N.max ns (2 * capacity_ v) ∧
       contents w' v'
       = contents w v ++ replicate (N.to_nat (ns - size_ v)) Type_default).
Proof.
  intros Hok Hv Hfit.
  destruct (world_ok_obj _ _ _ Hok Hv) as (Hsz & _).
  destruct (N.le_gt_cases ns (size_ v)) as [Ha|Hgt].
  - destruct (Resize_shrink this ns w v Hok Hv Ha) as (w' & Hrun & Hv' & Hc).
    exists w', (mkVec ns (capacity_ v) (data_ v)).
    split_and!; [done | done | done | done | intros; lia | intros; lia].
  - destruct (N.le_gt_cases ns (capacity_ v)) as [Hb|Hc].
    + destruct (Resize_in_place this ns w v Hok Hv Hgt Hb)
        as (w' & Hrun & Hv' & Hcont).
      exists w', (mkVec ns (capacity_ v) (data_ v)).
      split_and!; [done | done | done | intros; lia | done | intros; lia].
    + destruct (Resize_realloc this ns w v Hok Hv Hc (Hfit Hc))
        as (w' & Hrun & Hv' & Hcont).
      exists w', (mkVec ns (N.max ns (2 * capacity_ v)) (Some (next w))).
      split_and!; [done | done | done | intros; lia | intros; lia | done].
Qed.

End resizing.

(** ** simple_vector.h: checked access, [Clear], moves and the invariant *)

Section access.
Context {T : Type} `{!Elem T} `{!Platform}.
Implicit Types (w : world T) (b : list T) (v : SimpleVector).

Import SimpleVectorH.

Lemma cell_contents w v i x :
  contents w v !! i = Some x → cell w (Ptr (data_ v) i) = Some x.
Proof.
  unfold contents, block_of, cell. intros [Hx _]%lookup_take_Some. simpl.
  destruct (data_ v) as [l|]; [|done]. simpl. by destruct (heap w !! l).
Qed.

(** C6.  For every well-formed vector, [At(i)] throws exactly when
    [i >= size]; what it throws is [out_of_range], and the world after the
    throw is the world before the call, so the size, the capacity and the
    elements are the ones before.  For [i < size] it returns a reference to
    the [i]-th element of the sequence and changes nothing. *)
Theorem At_checks_index this i w v :
  world_ok w → objs w !! this = Some v →
  (∀ e w', At this i w = Throw e w' ↔
           (size_ v ≤ i)%N ∧ e = out_of_range ∧ w' = w) ∧
  ((i < size_ v)%N →
   ∃ p x, At this i w = Ok p w ∧ cell w p = Some x ∧
          contents w v !! N.to_nat i = Some x).
Proof.
  intros Hok Hv. unfold At. rewrite bind_eq, (obj_Some _ _ _ Hv).
  destruct (N.leb_spec (size_ v) i) as [Hge|Hlt].
  - split; [|intros; lia]. intros e w'. unfold throw. split.
    + by intros [= <- <-].
    + by intros (_ & -> & ->).
  - split.
    + intros e w'. split; [done | intros (? & _); lia].
    + intros _.
      destruct (lookup_lt_is_Some_2 (contents w v) (N.to_nat i)) as [x Hx].
      { rewrite (length_contents _ this) by done. lia. }
      exists (ArrayPtr_index (data_ v) i), x. split_and!; [done | | done].
      by apply cell_contents.
Qed.

(** C9.  For every vector, [Clear()] returns with size 0; the capacity,
    the buffer the vector owns, every slot of the free store and every
    other object are the ones before the call. *)
Theorem Clear_keeps_buffer this w v :
  objs w !! this = Some v →
  ∃ w' v',
    Clear this w = Ok tt w' ∧
    objs w' !! this = Some v' ∧
    size_ v' = 0%N ∧
    capacity_ v' = capacity_ v ∧
    data_ v' = data_ v ∧
    heap w' = heap w ∧
    block_of w' v' = block_of w v ∧
    ∀ y, y ≠ this → objs w' !! y = objs w !! y.
Proof.
  intros Hv. eexists _, (mkVec 0 (capacity_ v) (data_ v)).
  split_and!; [by apply Clear_Some | ..]; try done.
  - apply lookup_insert_eq.
  - intros y Hy. simpl. by rewrite lookup_insert_ne.
Qed.

(** C1, as the code has it.  Move construction leaves the source with
    size 0, capacity 0 and no buffer, and the new vector with the members,
    hence the elements in order, the source had.  Move assignment between
    two distinct vectors leaves the destination with the members, hence the
    elements in order, the source had, and the source with size 0 and with
    the capacity and the buffer the destination had before.  Move
    assignment of a vector to itself changes nothing.  No slot of the free
    store is written by either. *)
Theorem move_transfers_buffer new dst src w d s :
  objs w !! new = None → objs w !! dst = Some d → objs w !! src = Some s →
  dst ≠ src →
  (∃ w', SimpleVector_move new src w = Ok tt w' ∧
         objs w' !! src = Some (mkVec 0 0 None) ∧
         objs w' !! new = Some s ∧
         heap w' = heap w ∧ contents w' s = contents w s) ∧
  (∃ w', assign_move dst src w = Ok tt w' ∧
         objs w' !! src = Some (mkVec 0 (capacity_ d) (data_ d)) ∧
         objs w' !! dst = Some s ∧
         heap w' = heap w ∧ contents w' s = contents w s) ∧
  assign_move src src w = Ok tt w.
Proof.
  intros Hnew Hd Hs Hne.
  assert (new ≠ src) as Hne' by congruence.
  split_and!.
  - eexists. split_and!; [by apply SimpleVector_move_Some | ..]; simpl.
    + rewrite lookup_insert_ne by done. apply lookup_insert_eq.
    + apply lookup_insert_eq.
    + done.
    + done.
  - eexists. split_and!; [by apply assign_move_distinct | ..]; simpl.
    + apply lookup_insert_eq.
    + rewrite lookup_insert_ne by done. apply lookup_insert_eq.
    + done.
    + done.
  - by eapply assign_move_self.
Qed.

(** C7.  In every world a client program reaches from the empty world, by
    any sequence of constructors, destructors and public operations, some
    of which may have thrown, every vector has [size_ <= capacity_]. *)
Theorem size_within_capacity (p : list (op T)) tr w x v :
  run simple_vector_h p empty_world = Some (tr, w) →
  objs w !! x = Some v →
  (size_ v ≤ capacity_ v)%N.
Proof.
  intros Hrun Hv.
  assert (world_ok w) as Hok by (eapply run_ok; [apply empty_world_ok | done]).
  by destruct (world_ok_obj _ _ _ Hok Hv) as (? & _).
Qed.

End access.

(** ** Operations leave the vectors they do not name alone *)

Section independence.
Context {T : Type} `{!Elem T} `{!Platform}.
Implicit Types (w : world T) (v u : SimpleVector) (y : var).

Import SimpleVectorH.

Local Abbreviation writes := (writes (T:=T)).

Lemma untouched_refl y u w : objs w !! y = Some u → untouched y u w w.
Proof. by split. Qed.

Lemma untouched_trans y u w1 w2 w3 :
  untouched y u w1 w2 → untouched y u w2 w3 → untouched y u w1 w3.
Proof. intros [? H12] [? H23]. split; [done|]. by rewrite H23. Qed.

Lemma untouched_objs y u w w' :
  objs w' !! y = Some u → heap w' = heap w → untouched y u w w'.
Proof. intros Hy Hh. split; [done|]. unfold block_of. by rewrite Hh. Qed.

Lemma untouched_stores_in (P : loc → Prop) y u w w' :
  objs w !! y = Some u → (∀ l, data_ u = Some l → ¬ P l) →
  stores_in P w w' → untouched y u w w'.
Proof.
  intros Hy HP (Ho & _ & _ & Hh). split; [by rewrite Ho|].
  unfold block_of. destruct (data_ u) as [l|]; [|done].
  rewrite Hh; [done|]. by apply HP.
Qed.

Lemma untouched_evolves (P : loc → Prop) this v v' y u w w' :
  world_ok w → objs w !! y = Some u → y ≠ this →
  (∀ l, data_ u = Some l → ¬ P l) →
  evolves P this v v' w w' → untouched y u w w'.
Proof.
  intros Hok Hy Hne HP (Ho & _ & _ & Hh). split.
  - by rewrite Ho, lookup_insert_ne.
  - destruct (world_ok_obj _ _ _ Hok Hy) as (_ & _ & Hd).
    unfold block_of. destruct (data_ u) as [l|]; [|done].
    destruct Hd as (_ & Hl & _). rewrite Hh; [done | by apply HP | done].
Qed.

(** Two vectors never own the same array. *)
Lemma other_block w x y vx vy :
  world_ok w → objs w !! x = Some vx → objs w !! y = Some vy → y ≠ x →
  ∀ l, data_ vy = Some l → ¬ data_ vx = Some l.
Proof.
  intros Hok Hx Hy Hne l Hl Hl'. apply Hne.
  by apply (world_ok_disjoint w y x vy vx l).
Qed.

(** *** Constructors *)

Lemma untouched_construct this s c d w w1 (m : M T unit) y u w' :
  world_ok w → objs w !! this = None → ArrayPtr_new c w = Ok d w1 →
  objs w !! y = Some u →
  writes (λ l, d = Some l) m →
  m (World (<[this := mkVec s c d]> (objs w1)) (heap w1) (next w1)) = Ok tt w' →
  untouched y u w w'.
Proof.
  intros Hok Hthis Hnew Hy Hm Hrun.
  assert (y ≠ this) as Hne by congruence.
  destruct (world_ok_obj _ _ _ Hok Hy) as (_ & _ & Hd).
  apply (writes_Ok _ _ _ _ _ Hm) in Hrun.
  assert (untouched y u w
            (World (<[this := mkVec s c d]> (objs w1)) (heap w1) (next w1)) ∧
          ∀ l, data_ u = Some l → d ≠ Some l) as [H1 Hfresh].
  { apply ArrayPtr_new_inv in Hnew as [(-> & -> & ->)|(Hnz & Hmax & -> & ->)].
    - split; [|done]. apply untouched_objs; [|done]. simpl.
      by rewrite lookup_insert_ne.
    - assert (∀ l, data_ u = Some l → Some (next w) ≠ Some l) as Hfresh.
      { intros l Hl [= <-]. rewrite Hl in Hd. lia. }
      split; [|done]. split; simpl; [by rewrite lookup_insert_ne|].
      unfold block_of. destruct (data_ u) as [l|] eqn:Hl; [|done]. simpl.
      rewrite lookup_insert_ne; [done|]. intros <-. by eapply Hfresh. }
  eapply untouched_trans; [exact H1|].
  apply (untouched_stores_in (λ l, d = Some l)); [apply H1 | | exact Hrun].
  intros l Hl Hd2. by apply (Hfresh l).
Qed.

Lemma SimpleVector_default_untouched this y u w w' :
  objs w !! y = Some u → SimpleVector_default this w = Ok tt w' →
  untouched y u w w'.
Proof.
  intros Hy. unfold SimpleVector_default.
  intros ([] & w1 & [-> Hthis]%declare_inv & [= <-])%bind_Ok_inv.
  apply untouched_objs; [|done]. simpl. rewrite lookup_insert_ne; congruence.
Qed.

Lemma SimpleVector_reserve_untouched this n y u w w' :
  world_ok w → objs w !! y = Some u →
  SimpleVector_reserve this n w = Ok tt w' → untouched y u w w'.
Proof.
  intros Hok Hy. unfold SimpleVector_reserve.
  intros ([] & w1 & [-> Hthis]%declare_inv & Hrun)%bind_Ok_inv.
  apply bind_Ok_inv in Hrun as (d & w2 & Hnew & Hrun).
  eapply (untouched_construct this 0 n d w w2 (mret tt));
    first [done | apply writes_ret].
Qed.

Lemma SimpleVector_size_untouched this n y u w w' :
  world_ok w → objs w !! y = Some u →
  SimpleVector_size this n w = Ok tt w' → untouched y u w w'.
Proof.
  intros Hok Hy. unfold SimpleVector_size.
  intros ([] & w1 & [-> Hthis]%declare_inv & Hrun)%bind_Ok_inv.
  apply bind_Ok_inv in Hrun as (d & w2 & Hnew & Hrun).
  apply bind_Ok_inv in Hrun as ([] & w3 & [= <-] & Hrun).
  eapply (untouched_construct this n n d w w2); [done.. | | exact Hrun].
  destruct (0 <? n)%N; [by apply writes_std_fill | apply writes_ret].
Qed.

Lemma SimpleVector_fill_untouched this n x y u w w' :
  world_ok w → objs w !! y = Some u →
  SimpleVector_fill this n x w = Ok tt w' → untouched y u w w'.
Proof.
  intros Hok Hy. unfold SimpleVector_fill.
  intros ([] & w1 & [-> Hthis]%declare_inv & Hrun)%bind_Ok_inv.
  apply bind_Ok_inv in Hrun as (d & w2 & Hnew & Hrun).
  apply bind_Ok_inv in Hrun as ([] & w3 & [= <-] & Hrun).
  eapply (untouched_construct this n n d w w2); [done.. | | exact Hrun].
  destruct (0 <? n)%N; [by apply writes_std_fill | apply writes_ret].
Qed.

Lemma SimpleVector_init_untouched this init y u w w' :
  world_ok w → objs w !! y = Some u →
  SimpleVector_init this init w = Ok tt w' → untouched y u w w'.
Proof.
  intros Hok Hy. unfold SimpleVector_init.
  intros ([] & w1 & [-> Hthis]%declare_inv & Hrun)%bind_Ok_inv.
  apply bind_Ok_inv in Hrun as (d & w2 & Hnew & Hrun).
  apply bind_Ok_inv in Hrun as ([] & w3 & [= <-] & Hrun).
  eapply (untouched_construct this _ _ d w w2); [done.. | | exact Hrun].
  destruct (0 <? _)%N; [by apply writes_copy_list | apply writes_ret].
Qed.

Lemma SimpleVector_copy_untouched this other y u w w' :
  world_ok w → objs w !! y = Some u →
  SimpleVector_copy this other w = Ok tt w' → untouched y u w w'.
Proof.
  intros Hok Hy. unfold SimpleVector_copy.
  intros ([] & w1 & [-> Hthis]%declare_inv & Hrun)%bind_Ok_inv.
  apply obj_needed in Hrun as (o & Ho & Hrun).
  apply bind_Ok_inv in Hrun as (d & w2 & Hnew & Hrun).
  apply bind_Ok_inv in Hrun as ([] & w3 & [= <-] & Hrun).
  eapply (untouched_construct this _ _ d w w2); [done.. | | exact Hrun].
  destruct (0 <? _)%N; [by apply writes_std_copy | apply writes_ret].
Qed.

Lemma SimpleVector_move_untouched this other y u w w' :
  objs w !! y = Some u → y ≠ other →
  SimpleVector_move this other w = Ok tt w' → untouched y u w w'.
Proof.
  intros Hy Hne Hrun. pose proof Hrun as Hrun'. unfold SimpleVector_move in Hrun'.
  apply bind_Ok_inv in Hrun' as ([] & w1 & [-> Hthis]%declare_inv & Hrun').
  apply obj_needed in Hrun' as (o & Ho & _).
  rewrite (SimpleVector_move_Some _ _ o) in Hrun by done. injection Hrun as <-.
  apply untouched_objs; [|done]. simpl.
  rewrite !lookup_insert_ne; congruence.
Qed.

(** *** Destruction, exchange and assignment *)

Lemma destroy_untouched this y u w w' :
  world_ok w → objs w !! y = Some u → y ≠ this →
  destroy this w = Ok tt w' → untouched y u w w'.
Proof.
  intros Hok Hy Hne. unfold destroy. intros (v & Hv & Hrun)%obj_needed.
  apply bind_Ok_inv in Hrun as ([] & w1 & Hdel & [= <-]).
  apply ArrayPtr_delete_inv in Hdel as (Ho & Hn & Hh).
  split; simpl; [by rewrite Ho, lookup_delete_ne|].
  unfold block_of. rewrite Hh. destruct (data_ u) as [l|] eqn:Hl; [|done].
  unfold delete_opt. destruct (data_ v) as [l'|] eqn:Hl'; [|done].
  cbn [heap]. rewrite lookup_delete_ne; [done|]. intros <-.
  by apply (other_block w this y v u Hok Hv Hy Hne l').
Qed.

Lemma swap_untouched this other y u w w' :
  objs w !! y = Some u → y ≠ this → y ≠ other →
  swap this other w = Ok tt w' → untouched y u w w'.
Proof.
  intros Hy Hne1 Hne2 Hrun. pose proof Hrun as Hrun'. unfold swap in Hrun'.
  apply obj_needed in Hrun' as (a & Ha & Hrun').
  apply obj_needed in Hrun' as (b & Hb & _).
  destruct (decide (this = other)) as [->|Hne].
  - rewrite (swap_self _ a) in Hrun by done. injection Hrun as <-.
    by apply untouched_refl.
  - rewrite (swap_distinct _ _ a b) in Hrun by done. injection Hrun as <-.
    apply untouched_objs; [|done]. simpl. by rewrite !lookup_insert_ne.
Qed.

Lemma assign_move_untouched this rhs y u w w' :
  objs w !! y = Some u → y ≠ this → y ≠ rhs →
  assign_move this rhs w = Ok tt w' → untouched y u w w'.
Proof.
  intros Hy Hne1 Hne2 Hrun. pose proof Hrun as Hrun'. unfold assign_move in Hrun'.
  apply obj_needed in Hrun' as (a & Ha & Hrun').
  apply obj_needed in Hrun' as (b & Hb & _).
  destruct (decide (this = rhs)) as [->|Hne].
  - rewrite (assign_move_self _ a) in Hrun by done. injection Hrun as <-.
    by apply untouched_refl.
  - rewrite (assign_move_distinct _ _ a b) in Hrun by done. injection Hrun as <-.
    apply untouched_objs; [|done]. simpl. by rewrite !lookup_insert_ne.
Qed.

Lemma assign_copy_untouched this rhs y u w w' :
  world_ok w → objs w !! y = Some u → y ≠ this →
  assign_copy this rhs w = Ok tt w' → untouched y u w w'.
Proof.
  intros Hok Hy Hne. unfold assign_copy.
  intros (a & Ha & Hrun)%obj_needed. apply obj_needed in Hrun as (b & Hb & Hrun).
  case_decide; [|injection Hrun as <-; by apply untouched_refl].
  unfold with_local in Hrun.
  set (temp := fresh (dom (objs w))) in *.
  assert (y ≠ temp) as Htemp.
  { intros ->. apply (is_fresh (dom (objs w))). fold temp.
    apply elem_of_dom. by eexists. }
  apply bind_Ok_inv in Hrun as ([] & w1 & Hcopy & Hrun).
  apply bind_Ok_inv in Hrun as ([] & w2 & Hswap & Hrun).
  pose proof (SimpleVector_copy_ok _ _ _ _ Hok Hcopy) as Hok1.
  pose proof (swap_ok _ _ _ _ Hok1 Hswap) as Hok2.
  pose proof (SimpleVector_copy_untouched _ _ _ _ _ _ Hok Hy Hcopy) as H1.
  pose proof (swap_untouched _ _ _ _ _ _ (proj1 H1) Hne Htemp Hswap) as H2.
  pose proof (destroy_untouched _ _ _ _ _ Hok2 (proj1 H2) Htemp Hrun) as H3.
  eapply untouched_trans; [|exact H3]. by eapply untouched_trans.
Qed.

End independence.

(** ** simple_vector.h: statements leave the vectors they do not name alone *)

Section copies.
Context {T : Type} `{!Elem T} `{!Platform}.
Implicit Types (w : world T) (v u : SimpleVector) (y : var).

Import SimpleVectorH.

(** *** Member functions *)

Lemma bind_arg_inv a r w w' :
  bind_arg simple_vector_h a w = Ok r w' →
  w' = w ∧
  match a with
  | AVal x => r = RVal x
  | AElem z i => ∃ vz, objs w !! z = Some vz ∧
                       r = RPtr (ArrayPtr_index (data_ vz) i)
  end.
Proof.
  destruct a as [x|z i]; simpl.
  - by intros [= <- <-].
  - intros (p & w1 & Hp & [= <- <-])%bind_Ok_inv. unfold index in Hp.
    apply obj_needed in Hp as (vz & Hz & [= <- <-]). eauto.
Qed.

Lemma arg_elsewhere a r mv x v y u w :
  world_ok w → objs w !! x = Some v → objs w !! y = Some u → y ≠ x →
  arg_names y a = false → bind_arg simple_vector_h a w = Ok r w →
  ∀ l, data_ u = Some l → ¬ own_or_arg v mv r l.
Proof.
  intros Hok Hx Hy Hne Ha [_ Hr]%bind_arg_inv l Hl [Hown|Harg].
  - by apply (other_block w x y v u Hok Hx Hy Hne l).
  - destruct a as [?|z i]; [subst r; by destruct mv|].
    destruct Hr as (vz & Hz & ->). simpl in Ha.
    apply bool_decide_eq_false in Ha.
    destruct mv; [|done]. simpl in Harg.
    apply (other_block w z y vz u Hok Hz Hy) with l; (done || congruence).
Qed.

Lemma store_untouched p x y u w w' :
  objs w !! y = Some u → data_ u ≠ blk p ∨ data_ u = None →
  store p x w = Ok tt w' → untouched y u w w'.
Proof.
  intros Hy Hp Hst%store_stores_in.
  apply (untouched_stores_in (λ l, blk p = Some l)); [done | | done].
  intros l Hl Hb. destruct Hp; congruence.
Qed.

Lemma index_inv this i p w w' :
  index this i w = Ok p w' →
  w' = w ∧ ∃ v, objs w !! this = Some v ∧ p = ArrayPtr_index (data_ v) i.
Proof.
  unfold index. intros (v & Hv & [= <- <-])%obj_needed. eauto.
Qed.

Lemma At_inv this i p w w' :
  At this i w = Ok p w' →
  w' = w ∧ ∃ v, objs w !! this = Some v ∧ p = ArrayPtr_index (data_ v) i.
Proof.
  unfold At. intros (v & Hv & Hrun)%obj_needed.
  destruct (size_ v <=? i)%N; [done|]. injection Hrun as <- <-. eauto.
Qed.

Lemma element_store_untouched x v i a y u w w' :
  world_ok w → objs w !! x = Some v → objs w !! y = Some u → y ≠ x →
  store (ArrayPtr_index (data_ v) i) a w = Ok tt w' → untouched y u w w'.
Proof.
  intros Hok Hx Hy Hne. apply store_untouched; [done|]. simpl.
  destruct (data_ u) as [l|] eqn:Hl; [left | by right].
  intros Heq. by apply (other_block w x y v u Hok Hx Hy Hne l).
Qed.

(** A statement that returns leaves every vector it does not name, and
    the array of that vector, as they were. *)
Lemma run_op_untouched o y u w r w' :
  world_ok w → objs w !! y = Some u → names y o = false →
  run_op simple_vector_h o w = Ok r w' → untouched y u w w'.
Proof.
  intros Hok Hy Hnames Hrun.
  destruct o; simpl in Hrun, Hnames;
    repeat match goal with
    | H : _ || _ = false |- _ => apply orb_false_elim in H as [? ?]
    | H : bool_decide _ = false |- _ => apply bool_decide_eq_false in H
    end;
    apply bind_Ok_inv in Hrun as (r1 & w1 & Hc1 & Hrun);
    try lazymatch type of r1 with unit => destruct r1 end.
  - apply mret_inv in Hrun as ->. by eapply SimpleVector_default_untouched.
  - apply mret_inv in Hrun as ->. by eapply SimpleVector_reserve_untouched.
  - apply mret_inv in Hrun as ->. by eapply SimpleVector_size_untouched.
  - apply mret_inv in Hrun as ->. by eapply SimpleVector_fill_untouched.
  - apply mret_inv in Hrun as ->. by eapply SimpleVector_init_untouched.
  - apply mret_inv in Hrun as ->. by eapply SimpleVector_copy_untouched.
  - apply mret_inv in Hrun as ->.
    eapply SimpleVector_move_untouched; [done | | done]. congruence.
  - apply mret_inv in Hrun as ->.
    eapply destroy_untouched; [done | done | | done]. congruence.
  - apply mret_inv in Hrun as ->.
    eapply assign_copy_untouched; [done | done | | done]. congruence.
  - apply mret_inv in Hrun as ->.
    eapply assign_move_untouched; [done | | | done]; congruence.
  - apply mret_inv in Hrun as ->.
    pose proof Hc1 as (v & Hv & _)%obj_needed.
    destruct (Reserve_evolves _ _ _ _ _ Hok Hv Hc1) as (v' & Hev).
    eapply untouched_evolves; [done | done | | | exact Hev]; [congruence|].
    apply (other_block w x y v u); (done || congruence).
  - apply mret_inv in Hrun as ->.
    apply (reads_Ok (GetSize x)) in Hc1 as ->; [by apply untouched_refl|].
    unfold GetSize. apply reads_bind; [apply reads_obj | intros; apply reads_ret].
  - apply mret_inv in Hrun as ->.
    apply (reads_Ok (GetCapacity x)) in Hc1 as ->; [by apply untouched_refl|].
    unfold GetCapacity.
    apply reads_bind; [apply reads_obj | intros; apply reads_ret].
  - apply mret_inv in Hrun as ->.
    apply (reads_Ok (IsEmpty x)) in Hc1 as ->; [by apply untouched_refl|].
    unfold IsEmpty. apply reads_bind; [apply reads_obj | intros; apply reads_ret].
  - apply (reads_Ok (index x i)) in Hc1 as ->; [|apply reads_index].
    apply bind_Ok_inv in Hrun as (? & w2 & [-> _]%load_inv & ->%mret_inv).
    by apply untouched_refl.
  - apply index_inv in Hc1 as (-> & v & Hv & ->).
    apply bind_Ok_inv in Hrun as ([] & w2 & Hst & ->%mret_inv).
    eapply (element_store_untouched x v); [done.. | congruence | exact Hst].
  - apply (reads_Ok (At x i)) in Hc1 as ->; [|apply reads_At].
    apply bind_Ok_inv in Hrun as (? & w2 & [-> _]%load_inv & ->%mret_inv).
    by apply untouched_refl.
  - apply At_inv in Hc1 as (-> & v & Hv & ->).
    apply bind_Ok_inv in Hrun as ([] & w2 & Hst & ->%mret_inv).
    eapply (element_store_untouched x v); [done.. | congruence | exact Hst].
  - apply mret_inv in Hrun as ->.
    pose proof Hc1 as (v & Hv & _)%obj_needed.
    destruct (Clear_evolves _ _ _ _ Hok Hv Hc1) as (v' & Hev).
    eapply untouched_evolves; [done | done | | | exact Hev]; [congruence|].
    apply (other_block w x y v u); (done || congruence).
  - apply mret_inv in Hrun as ->.
    pose proof Hc1 as (v & Hv & _)%obj_needed.
    destruct (Resize_evolves _ _ _ _ _ Hok Hv Hc1) as (v' & Hev).
    eapply untouched_evolves; [done | done | | | exact Hev]; [congruence|].
    apply (other_block w x y v u); (done || congruence).
  - pose proof Hc1 as [-> _]%bind_arg_inv.
    apply bind_Ok_inv in Hrun as ([] & w2 & Hp & ->%mret_inv).
    pose proof Hp as (v & Hv & _)%obj_needed.
    destruct (PushBack_body_evolves _ _ _ _ _ _ Hok Hv Hp) as (v' & Hev).
    eapply untouched_evolves; [done | done | | | exact Hev]; [congruence|].
    eapply arg_elsewhere; [done.. | congruence | done | exact Hc1].
  - pose proof Hc1 as [-> _]%bind_arg_inv.
    apply bind_Ok_inv in Hrun as ([] & w2 & Hp & ->%mret_inv).
    pose proof Hp as (v & Hv & _)%obj_needed.
    destruct (PushBack_body_evolves _ _ _ _ _ _ Hok Hv Hp) as (v' & Hev).
    eapply untouched_evolves; [done | done | | | exact Hev]; [congruence|].
    eapply arg_elsewhere; [done.. | congruence | done | exact Hc1].
  - apply (reads_Ok (begin x)) in Hc1 as ->; [|apply reads_begin].
    apply bind_Ok_inv in Hrun as (r2 & w2 & Hc2 & Hrun).
    pose proof Hc2 as [-> _]%bind_arg_inv.
    apply bind_Ok_inv in Hrun as (? & w3 & Hp & ->%mret_inv).
    pose proof Hp as (v & Hv & _)%obj_needed.
    destruct (InsertImpl_evolves _ _ _ _ _ _ _ _ Hok Hv Hp) as (v' & Hev).
    eapply untouched_evolves; [done | done | | | exact Hev]; [congruence|].
    eapply arg_elsewhere; [done.. | congruence | done | exact Hc2].
  - apply (reads_Ok (begin x)) in Hc1 as ->; [|apply reads_begin].
    apply bind_Ok_inv in Hrun as (r2 & w2 & Hc2 & Hrun).
    pose proof Hc2 as [-> _]%bind_arg_inv.
    apply bind_Ok_inv in Hrun as (? & w3 & Hp & ->%mret_inv).
    pose proof Hp as (v & Hv & _)%obj_needed.
    destruct (InsertImpl_evolves _ _ _ _ _ _ _ _ Hok Hv Hp) as (v' & Hev).
    eapply untouched_evolves; [done | done | | | exact Hev]; [congruence|].
    eapply arg_elsewhere; [done.. | congruence | done | exact Hc2].
  - apply mret_inv in Hrun as ->.
    pose proof Hc1 as (v & Hv & _)%obj_needed.
    destruct (PopBack_evolves _ _ _ _ Hok Hv Hc1) as (v' & Hev).
    eapply untouched_evolves; [done | done | | | exact Hev]; [congruence|].
    apply (other_block w x y v u); (done || congruence).
  - apply (reads_Ok (begin x)) in Hc1 as ->; [|apply reads_begin].
    apply bind_Ok_inv in Hrun as (? & w3 & Hp & ->%mret_inv).
    pose proof Hp as (v & Hv & _)%obj_needed.
    destruct (Erase_evolves _ _ _ _ _ _ Hok Hv Hp) as (v' & Hev).
    eapply untouched_evolves; [done | done | | | exact Hev]; [congruence|].
    apply (other_block w x y v u); (done || congruence).
  - apply mret_inv in Hrun as ->.
    eapply swap_untouched; [done | | | done]; congruence.
  - apply mret_inv in Hrun as ->.
    apply (reads_Ok (begin x)) in Hc1 as ->; [|apply reads_begin].
    by apply untouched_refl.
  - apply mret_inv in Hrun as ->.
    apply (reads_Ok (end_ x)) in Hc1 as ->; [by apply untouched_refl|].
    unfold end_. apply reads_bind; [apply reads_obj | intros; apply reads_ret].
Qed.

(** A program that runs leaves every vector none of its statements names,
    and the array of that vector, as they were. *)
Lemma run_untouched p y u : ∀ w tr w',
  world_ok w → objs w !! y = Some u →
  Forall (λ o, names y o = false) p →
  run simple_vector_h p w = Some (tr, w') → untouched y u w w'.
Proof.
  induction p as [|o p IH]; intros w tr w' Hok Hy Hp Hrun; simpl in Hrun.
  - injection Hrun as _ <-. by apply untouched_refl.
  - apply Forall_cons in Hp as [Ho Hp].
    destruct (run_op simple_vector_h o w) as [r w1|e w1|] eqn:Hop; [| |done].
    + destruct (run simple_vector_h p w1) as [[tr1 w2]|] eqn:Hrest; [|done].
      injection Hrun as _ <-.
      pose proof (run_op_untouched _ _ _ _ _ _ Hok Hy Ho Hop) as H1.
      eapply untouched_trans; [exact H1|].
      eapply IH; [by eapply run_op_ok | apply H1 | done | exact Hrest].
    + destruct (run simple_vector_h p w1) as [[tr1 w2]|] eqn:Hrest; [|done].
      injection Hrun as _ <-. apply run_op_strong in Hop as ->.
      by eapply IH.
Qed.

End copies.

(** ** simple_vector.h: the copy constructor *)

Section copying.
Context {T : Type} `{!Elem T} `{!Platform}.
Implicit Types (w : world T) (v u : SimpleVector) (y : var).

Import SimpleVectorH.

(** The copy constructor on a well-formed source. *)
Lemma SimpleVector_copy_run this other w v :
  world_ok w → objs w !! this = None → objs w !! other = Some v →
  ∃ w' d,
    SimpleVector_copy this other w = Ok tt w' ∧
    objs w' !! this = Some (mkVec (size_ v) (size_ v) d) ∧
    contents w' (mkVec (size_ v) (size_ v) d) = contents w v.
Proof.
  intros Hok Hthis Hv.
  destruct (world_ok_obj _ _ _ Hok Hv) as (Hsz & Hcap & Hd).
  pose proof (world_ok_fresh _ Hok) as Hfresh.
  unfold SimpleVector_copy.
  rewrite bind_eq, (declare_None _ _ Hthis).
  rewrite bind_eq, (obj_Some _ _ _ Hv). rewrite bind_eq.
  destruct (N.eq_dec (size_ v) 0%N) as [Hz|Hnz].
  - exists (World (<[this := mkVec 0 0 None]> (objs w)) (heap w) (next w)), None.
    rewrite Hz. split_and!; [done | apply lookup_insert_eq |].
    unfold contents. simpl. by rewrite Hz.
  - rewrite ArrayPtr_new_Some by (done || lia).
    set (fresh := replicate (N.to_nat (size_ v)) (new_slot (T:=T))).
    rewrite bind_eq. cbn [put objs heap next].
    destruct (N.ltb_spec 0%N (size_ v)); [|lia].
    destruct (data_ v) as [l|] eqn:Hl; [|lia].
    destruct Hd as (_ & Hlt & b & Hb & Hlen).
    unfold std_copy, begin_of, end_of, ArrayPtr_Get, ptr_add. rewrite Hl.
    cbn [blk off]. rewrite bind_eq, ptr_diff_same by lia.
    rewrite Nat.add_0_l, Nat.sub_0_r.
    rewrite (copy_n_cross _ l (next w) 0 0 b fresh);
      [| lia | cbn [heap]; rewrite lookup_insert_ne by lia; done
       | cbn [heap]; apply lookup_insert_eq | lia
       | unfold fresh; rewrite length_replicate; lia].
    eexists _, _. split_and!; [reflexivity | apply lookup_insert_eq |].
    unfold contents, block_of. cbn [size_ data_ heap set_heap].
    rewrite Hl, Hb, lookup_insert_eq. cbn [default from_option id].
    rewrite drop_0. apply take_copied; [lia|].
    unfold fresh. rewrite length_replicate. lia.
Qed.

(** C8.  For every well-formed vector, copy construction returns with a
    new vector that has the elements of the source, in order, and a
    capacity equal to its size, which is the size of the source; the source
    keeps its size, capacity and elements.  Whatever statements run
    afterwards on the copy, or on any vector but the source, the source
    still has the size, the capacity and the elements it had. *)
Theorem copy_is_independent this other w v :
  world_ok w → objs w !! this = None → objs w !! other = Some v →
  ∃ w1 c,
    SimpleVector_copy this other w = Ok tt w1 ∧
    objs w1 !! this = Some c ∧
    contents w1 c = contents w v ∧
    size_ c = size_ v ∧
    capacity_ c = size_ c ∧
    objs w1 !! other = Some v ∧
    contents w1 v = contents w v ∧
    ∀ p tr w2,
      Forall (λ o, names other o = false) p →
      run simple_vector_h p w1 = Some (tr, w2) →
      objs w2 !! other = Some v ∧ contents w2 v = contents w v.
Proof.
  intros Hok Hthis Hv.
  destruct (SimpleVector_copy_run this other w v Hok Hthis Hv)
    as (w1 & d & Hrun & Hc & Hcont).
  pose proof (SimpleVector_copy_ok _ _ _ _ Hok Hrun) as Hok1.
  pose proof (SimpleVector_copy_untouched _ _ _ _ _ _ Hok Hv Hrun) as [Hv1 Hb1].
  exists w1, (mkVec (size_ v) (size_ v) d).
  split_and!; try done.
  - unfold contents. by rewrite Hb1.
  - intros p tr w2 Hp Hp2.
    destruct (run_untouched p other v w1 tr w2 Hok1 Hv1 Hp Hp2) as [Hv2 Hb2].
    split; [done|]. unfold contents. by rewrite Hb2, Hb1.
Qed.

End copying.

(** ** part_001 against simple_vector.h *)

Section agreement.
Context {T : Type} `{!Elem T} `{!Platform}.
Implicit Types (w : world T) (v u : SimpleVector) (r : ref T).

Lemma begin_Some this v w :
  objs w !! this = Some v → Part001.begin this w = Ok (Part001.begin_of v) w.
Proof. intros Hv. unfold Part001.begin. by rewrite bind_eq, (obj_Some _ _ _ Hv). Qed.

Lemma end_Some this v w :
  objs w !! this = Some v → Part001.end_ this w = Ok (Part001.end_of v) w.
Proof. intros Hv. unfold Part001.end_. by rewrite bind_eq, (obj_Some _ _ _ Hv). Qed.

Lemma obj_None {A} this (f : SimpleVector → M T A) w :
  objs w !! this = None → (obj this ≫= f) w = Undefined.
Proof. intros Hv. rewrite bind_eq. unfold obj. by rewrite Hv. Qed.

Lemma begin_None {A} this (f : ptr → M T A) w :
  objs w !! this = None → (Part001.begin this ≫= f) w = Undefined.
Proof.
  intros Hv. rewrite bind_eq. unfold Part001.begin. by rewrite obj_None.
Qed.

(** Algorithms on an empty range of a null array do nothing. *)
Lemma std_fill_empty a x w :
  std_fill (Ptr a 0) (ptr_add (Ptr a 0) 0) x w = Ok tt w.
Proof.
  unfold std_fill, ptr_add. cbn [blk off]. by rewrite bind_eq, ptr_diff_same by lia.
Qed.

Lemma std_copy_empty a d w :
  std_copy (Ptr a 0) (ptr_add (Ptr a 0) 0) d w = Ok tt w.
Proof.
  unfold std_copy, ptr_add. cbn [blk off]. by rewrite bind_eq, ptr_diff_same by lia.
Qed.

Lemma SimpleVector_size_agree this n w :
  Part001.SimpleVector_size this n w = SimpleVectorH.SimpleVector_size this n w.
Proof.
  unfold Part001.SimpleVector_size, SimpleVectorH.SimpleVector_size.
  rewrite !(bind_eq (declare this)). destruct (declare this w) as [[] w1| |]; [|done..].
  rewrite !(bind_eq (ArrayPtr_new n)).
  destruct (ArrayPtr_new n w1) as [d w2| |] eqn:Hnew; [|done..].
  rewrite !bind_eq. cbn [put]. rewrite bind_eq.
  rewrite (begin_Some this (mkVec n n d)) by apply lookup_insert_eq.
  rewrite bind_eq, (end_Some this (mkVec n n d)) by apply lookup_insert_eq.
  unfold Part001.begin_of, Part001.end_of. cbn [size_ data_].
  destruct (N.ltb_spec 0%N n); [done|].
  assert (n = 0%N) as -> by lia. apply std_fill_empty.
Qed.

Lemma SimpleVector_fill_agree this n x w :
  Part001.SimpleVector_fill this n x w
  = SimpleVectorH.SimpleVector_fill this n x w.
Proof.
  unfold Part001.SimpleVector_fill, SimpleVectorH.SimpleVector_fill.
  rewrite !(bind_eq (declare this)). destruct (declare this w) as [[] w1| |]; [|done..].
  rewrite !(bind_eq (ArrayPtr_new n)).
  destruct (ArrayPtr_new n w1) as [d w2| |] eqn:Hnew; [|done..].
  rewrite !bind_eq. cbn [put]. rewrite bind_eq.
  rewrite (begin_Some this (mkVec n n d)) by apply lookup_insert_eq.
  rewrite bind_eq, (end_Some this (mkVec n n d)) by apply lookup_insert_eq.
  unfold Part001.begin_of, Part001.end_of. cbn [size_ data_].
  destruct (N.ltb_spec 0%N n); [done|].
  assert (n = 0%N) as -> by lia. apply std_fill_empty.
Qed.

Lemma SimpleVector_init_agree this init w :
  Part001.SimpleVector_init this init w
  = SimpleVectorH.SimpleVector_init this init w.
Proof.
  unfold Part001.SimpleVector_init, SimpleVectorH.SimpleVector_init.
  rewrite !(bind_eq (declare this)). destruct (declare this w) as [[] w1| |]; [|done..].
  rewrite !(bind_eq (ArrayPtr_new _)).
  destruct (ArrayPtr_new _ w1) as [d w2| |] eqn:Hnew; [|done..].
  rewrite !bind_eq. cbn [put]. rewrite bind_eq.
  rewrite (begin_Some this (mkVec (N.of_nat (length init))
                              (N.of_nat (length init)) d))
    by apply lookup_insert_eq.
  unfold Part001.begin_of. cbn [data_].
  destruct (N.ltb_spec 0%N (N.of_nat (length init))); [done|].
  by destruct init; [|simpl in *; lia].
Qed.

Lemma SimpleVector_copy_agree this other w :
  Part001.SimpleVector_copy this other w
  = SimpleVectorH.SimpleVector_copy this other w.
Proof.
  unfold Part001.SimpleVector_copy, SimpleVectorH.SimpleVector_copy.
  rewrite !(bind_eq (declare this)).
  destruct (declare this w) as [[] w1| |] eqn:Hdecl; [|done..].
  apply declare_inv in Hdecl as [-> Hthis].
  destruct (objs w !! other) as [o|] eqn:Ho; [|by rewrite !obj_None].
  rewrite !(bind_eq (obj other)), (obj_Some _ _ _ Ho).
  rewrite !(bind_eq (ArrayPtr_new _)).
  destruct (ArrayPtr_new _ w) as [d w2| |] eqn:Hnew; [|done..].
  assert (objs w2 = objs w) as Ho2.
  { by apply ArrayPtr_new_inv in Hnew as [(_ & _ & ->)|(_ & _ & _ & ->)]. }
  assert (other ≠ this) as Hne by congruence.
  rewrite !bind_eq. cbn [put]. rewrite bind_eq.
  rewrite (begin_Some other o)
    by (cbn [objs]; rewrite lookup_insert_ne, Ho2 by done; done).
  rewrite bind_eq, (end_Some other o)
    by (cbn [objs]; rewrite lookup_insert_ne, Ho2 by done; done).
  rewrite bind_eq, (begin_Some this (mkVec (size_ o) (size_ o) d))
    by apply lookup_insert_eq.
  unfold Part001.begin_of, Part001.end_of. cbn [size_ data_].
  destruct (N.ltb_spec 0%N (size_ o)); [done|].
  assert (size_ o = 0%N) as -> by lia. apply std_copy_empty.
Qed.

Lemma assign_copy_agree this rhs w :
  Part001.assign_copy this rhs w = SimpleVectorH.assign_copy this rhs w.
Proof.
  unfold Part001.assign_copy, SimpleVectorH.assign_copy.
  rewrite !(bind_eq (obj this)). destruct (obj this w) as [a w1| |]; [|done..].
  rewrite !(bind_eq (obj rhs)). destruct (obj rhs w1) as [b w2| |]; [|done..].
  case_decide; [|done]. unfold with_local.
  by rewrite !(bind_eq (_ _ rhs)), SimpleVector_copy_agree.
Qed.

Lemma Reserve_agree this n w :
  Part001.Reserve this n w = SimpleVectorH.Reserve this n w.
Proof.
  unfold Part001.Reserve, SimpleVectorH.Reserve.
  destruct (objs w !! this) as [v|] eqn:Hv; [|by rewrite !obj_None].
  rewrite !(bind_eq (obj this)), (obj_Some _ _ _ Hv).
  destruct (capacity_ v <? n)%N; [|done].
  rewrite !(bind_eq (ArrayPtr_new _)).
  destruct (ArrayPtr_new _ w) as [d w2| |] eqn:Hnew; [|done..].
  assert (objs w2 = objs w) as Ho2.
  { by apply ArrayPtr_new_inv in Hnew as [(_ & _ & ->)|(_ & _ & _ & ->)]. }
  rewrite bind_eq, (begin_Some this v) by by rewrite Ho2.
  by rewrite bind_eq, (end_Some this v) by by rewrite Ho2.
Qed.

Lemma Resize_agree this n w :
  Part001.Resize this n w = SimpleVectorH.Resize this n w.
Proof.
  unfold Part001.Resize, SimpleVectorH.Resize.
  destruct (objs w !! this) as [v|] eqn:Hv; [|by rewrite !obj_None].
  rewrite !(bind_eq (obj this)), (obj_Some _ _ _ Hv).
  destruct (n <=? size_ v)%N; [done|]. destruct (n <=? capacity_ v)%N; [done|].
  cbv zeta. rewrite !(bind_eq (ArrayPtr_new _)).
  destruct (ArrayPtr_new _ w) as [d w2| |] eqn:Hnew; [|done..].
  assert (objs w2 = objs w) as Ho2.
  { by apply ArrayPtr_new_inv in Hnew as [(_ & _ & ->)|(_ & _ & _ & ->)]. }
  rewrite bind_eq, (begin_Some this v) by by rewrite Ho2.
  by rewrite bind_eq, (end_Some this v) by by rewrite Ho2.
Qed.

Lemma Erase_agree this pos w :
  Part001.Erase this pos w = SimpleVectorH.Erase this pos w.
Proof.
  unfold Part001.Erase, SimpleVectorH.Erase.
  destruct (objs w !! this) as [v|] eqn:Hv;
    [|by rewrite begin_None, obj_None].
  rewrite bind_eq, (begin_Some _ _ _ Hv), (bind_eq (obj this)), (obj_Some _ _ _ Hv).
  unfold Part001.begin_of, SimpleVectorH.begin_of.
  rewrite !(bind_eq (ptr_diff _ _)).
  destruct (ptr_diff pos (ArrayPtr_Get (data_ v)) w) as [k w1| |] eqn:Hd;
    [|done..].
  apply ptr_diff_inv in Hd as (-> & _).
  rewrite bind_eq, (end_Some _ _ _ Hv). unfold Part001.end_of.
  rewrite !(bind_eq (std_move _ _ _)).
  destruct (std_move _ _ _ w) as [[] w1| |] eqn:Hmove; [|done..].
  assert (objs w1 = objs w) as Ho1.
  { eapply (writes_Ok (λ _, True)) in Hmove as (? & _); [done|].
    by apply writes_std_move. }
  rewrite bind_eq, (obj_Some _ v) by by rewrite Ho1.
  rewrite !(bind_eq (set_size _ _)).
  destruct (set_size this (size_decr (size_ v)) w1) as [[] w2| |]; [|done..].
  unfold Part001.begin, Part001.begin_of, SimpleVectorH.begin_of.
  rewrite !bind_eq. by destruct (obj this w2).
Qed.

End agreement.

(** *** Adding an element when there is room, and [Reserve] *)

Section agreement_in_place.
Context {T : Type} `{!Elem T} `{!Platform}.
Implicit Types (w : world T) (v u : SimpleVector) (r : ref T).

Lemma assign_objs mv dst r w w' :
  assign mv dst r w = Ok tt w' → objs w' = objs w.
Proof.
  intros Hrun. eapply (writes_Ok (λ _, True)) in Hrun as (? & _); [done|].
  by apply writes_assign.
Qed.

Lemma std_move_backward_objs first last d_last w w' :
  std_move_backward first last d_last w = Ok tt w' → objs w' = objs w.
Proof.
  intros Hrun. eapply (writes_Ok (λ _, True)) in Hrun as (? & _); [done|].
  by apply writes_std_move_backward.
Qed.

(** With room for one more element the two versions of [PushBack] and of
    [InsertImpl] differ only in where they read the members again. *)
Lemma PushBack_body_room_agree mv this r w v :
  objs w !! this = Some v → (size_ v < capacity_ v)%N →
  Part001.PushBack_body mv this r w = SimpleVectorH.PushBack_body mv this r w.
Proof.
  intros Hv Hroom.
  unfold Part001.PushBack_body, SimpleVectorH.PushBack_body.
  rewrite !(bind_eq (obj this)), (obj_Some _ _ _ Hv).
  destruct (N.leb_spec (capacity_ v) (size_ v)); [lia|].
  rewrite !bind_eq. unfold mret at 1, M_ret at 1. rewrite !bind_eq.
  rewrite (obj_Some _ _ _ Hv). rewrite ?bind_eq.
  destruct (assign mv _ r w) as [[] w1| |] eqn:Hassign; [|done..].
  apply assign_objs in Hassign. rewrite ?bind_eq.
  rewrite (obj_Some _ v); [done|]. by rewrite Hassign.
Qed.

Lemma InsertImpl_room_agree mv this pos r w v :
  objs w !! this = Some v → (size_ v < capacity_ v)%N →
  Part001.InsertImpl mv this pos r w = SimpleVectorH.InsertImpl mv this pos r w.
Proof.
  intros Hv Hroom.
  unfold Part001.InsertImpl, SimpleVectorH.InsertImpl.
  rewrite bind_eq, (begin_Some _ _ _ Hv), (bind_eq (obj this)), (obj_Some _ _ _ Hv).
  unfold Part001.begin_of, SimpleVectorH.begin_of.
  rewrite !(bind_eq (ptr_diff _ _)).
  destruct (ptr_diff pos (ArrayPtr_Get (data_ v)) w) as [k w1| |] eqn:Hd;
    [|done..].
  apply ptr_diff_inv in Hd as (-> & _).
  rewrite bind_eq, (obj_Some _ _ _ Hv).
  destruct (N.leb_spec (capacity_ v) (size_ v)); [lia|].
  rewrite !bind_eq. unfold mret at 1, M_ret at 1. rewrite ?bind_eq.
  rewrite (begin_Some _ _ _ Hv). rewrite ?bind_eq.
  rewrite (end_Some _ _ _ Hv). rewrite ?bind_eq.
  unfold Part001.begin_of, Part001.end_of.
  destruct (std_move_backward _ _ _ w) as [[] w1| |] eqn:Hmove; [|done..].
  apply std_move_backward_objs in Hmove. rewrite ?bind_eq.
  rewrite (obj_Some _ v) by (by rewrite Hmove). rewrite ?bind_eq.
  destruct (assign mv _ r w1) as [[] w2| |] eqn:Hassign; [|done..].
  apply assign_objs in Hassign. rewrite ?bind_eq.
  rewrite (obj_Some _ v) by (by rewrite Hassign, Hmove). rewrite ?bind_eq.
  destruct (set_size this (size_incr (size_ v)) w2) as [[] w3| |]; [|done..].
  unfold Part001.begin, Part001.begin_of. rewrite ?bind_eq.
  by destruct (obj this w3).
Qed.

(** [Reserve] beyond the capacity, in closed form. *)
Lemma Reserve_grow this n w v :
  world_ok w → objs w !! this = Some v → (capacity_ v < n)%N →
  SimpleVectorH.Reserve this n w
  = if (max_elems <? n)%N then Throw bad_alloc w
    else Ok tt (World
           (<[this := mkVec (size_ v) n (Some (next w))]> (objs w))
           (<[next w :=
                list_inserts 0 (take (N.to_nat (size_ v)) (block_of w v))
                  (replicate (N.to_nat n) new_slot)]>
              (delete_opt (data_ v) (heap w)))
           (S (next w))).
Proof.
  intros Hok Hv Hn. unfold SimpleVectorH.Reserve.
  destruct (world_ok_obj _ _ _ Hok Hv) as (Hsz & Hcap & Hd).
  pose proof (world_ok_fresh _ Hok) as Hfresh.
  rewrite bind_eq, (obj_Some _ _ _ Hv).
  destruct (N.ltb_spec (capacity_ v) n); [|lia].
  destruct (N.ltb_spec max_elems n) as [Hfar|Hfit].
  { by rewrite bind_eq, ArrayPtr_new_too_large. }
  rewrite bind_eq, ArrayPtr_new_Some by lia.
  set (fresh := replicate (N.to_nat n) new_slot).
  assert (length fresh = N.to_nat n) as Hlf by apply length_replicate.
  unfold std_move, ArrayPtr_Get, ptr_add. cbn [blk off].
  rewrite !bind_eq, ptr_diff_same by lia. rewrite Nat.add_0_l, Nat.sub_0_r.
  destruct (data_ v) as [l|] eqn:Hdv.
  - destruct Hd as (Hnz & Hlt & b & Hb & Hlen).
    rewrite (block_of_Some _ _ l b) by done.
    rewrite (move_n_cross _ l (next w) 0 0 b fresh);
      [| lia | cbn [heap]; by rewrite lookup_insert_ne by lia
       | cbn [heap]; apply lookup_insert_eq | lia | lia].
    unfold set_heap; cbn [objs heap next drop].
    rewrite ?bind_eq, (set_data_Some _ _ v) by done.
    rewrite bind_eq, (set_capacity_Some _ _ (mkVec (size_ v) (capacity_ v) (Some (next w))))
      by apply lookup_insert_eq.
    cbn [objs heap next size_ capacity_ data_].
    erewrite ArrayPtr_delete_Some
      by (cbn [heap]; rewrite lookup_insert_ne by lia; apply lookup_insert_eq).
    unfold set_heap; cbn [objs heap next delete_opt].
    rewrite insert_insert_eq. f_equal. f_equal. map_lookups.
  - assert (size_ v = 0%N) as Hs0 by lia.
    rewrite Hs0. change (N.to_nat 0) with 0. rewrite move_n_0.
    rewrite ?bind_eq, (set_data_Some _ _ v) by done.
    rewrite bind_eq, (set_capacity_Some _ _ (mkVec (size_ v) (capacity_ v) (Some (next w))))
      by apply lookup_insert_eq.
    cbn [objs heap next size_ capacity_ data_ ArrayPtr_delete delete_opt
         take list_inserts].
    by rewrite insert_insert_eq, Hs0.
Qed.

End agreement_in_place.

(** *** [PushBack] on a full vector *)

Section agreement_on_growth.
Context {T : Type} `{!Elem T} `{!Platform}.
Implicit Types (w : world T) (v u : SimpleVector) (r : ref T).

Lemma grown_above c : (c ≤ max_elems)%N → (c < N.max 1 (2 * c))%N.
Proof. lia. Qed.

(** [PushBack] on a full vector whose argument lives elsewhere: part_001
    reaches the world simple_vector.h reaches. *)
Lemma PushBack_body_full_agree mv this r w v :
  world_ok w → objs w !! this = Some v → elsewhere r v w →
  (capacity_ v ≤ size_ v)%N →
  Part001.PushBack_body mv this r w = SimpleVectorH.PushBack_body mv this r w.
Proof.
  intros Hok Hv Hr Hfull.
  rewrite (PushBack_body_run mv this r w v Hok Hv Hr).
  destruct (world_ok_obj _ _ _ Hok Hv) as (Hsz & Hcap & Hd).
  pose proof (world_ok_fresh _ Hok) as Hfresh.
  unfold Part001.PushBack_body.
  rewrite bind_eq, (obj_Some _ _ _ Hv).
  destruct (N.leb_spec (capacity_ v) (size_ v)); [|lia].
  fold (grown (capacity_ v)). rewrite grown_exact by done.
  rewrite bind_eq, Reserve_agree, (Reserve_grow this _ w v Hok Hv)
    by by apply grown_above.
  unfold grows_too_far, pushed. rewrite added_full by done.
  destruct (N.ltb_spec (size_ v) (capacity_ v)) as [|_]; [lia|]. simpl negb.
  set (nc := N.max 1 (2 * capacity_ v)) in *.
  destruct (N.ltb_spec max_elems nc) as [Hfar|Hfit]; simpl andb; cbv iota;
    [done|].
  set (n := N.to_nat (size_ v)) in *.
  set (fresh := replicate (N.to_nat nc) new_slot).
  assert (length fresh = N.to_nat nc) as Hlf by apply length_replicate.
  set (B := list_inserts 0 (take n (block_of w v)) fresh).
  assert (length B = N.to_nat nc) as HlB by (unfold B; by rewrite length_inserts).
  rewrite bind_eq, (obj_Some _ (mkVec (size_ v) nc (Some (next w))))
    by apply lookup_insert_eq.
  unfold ArrayPtr_index. cbn [size_ data_]. fold n.
  assert (ref_loc r ≠ Some (next w)) as Hrn.
  { intros Heq. destruct (Hr _ Heq). lia. }
  rewrite bind_eq, (assign_run _ (next w) _ B);
    [| cbn [heap]; apply lookup_insert_eq | lia | done].
  rewrite ref_value_frame with (w := w).
  2: { intros lp Hlp. destruct (Hr _ Hlp) as [Hne Hlt']. cbn [heap].
       rewrite lookup_insert_ne by lia.
       unfold delete_opt. destruct (data_ v) as [l|]; [|done].
       rewrite lookup_delete_ne; [done | congruence]. }
  destruct (ref_value w r) as [x|]; [|done].
  unfold set_heap; cbn [objs heap next].
  rewrite (set_size_Some _ _ (mkVec (size_ v) nc (Some (next w))))
    by apply lookup_insert_eq.
  cbn [objs heap next size_ capacity_ data_].
  rewrite !insert_insert_eq. by rewrite size_incr_exact by lia.
Qed.

Lemma PushBack_body_agree mv this r w :
  world_ok w →
  (∀ v, objs w !! this = Some v → elsewhere r v w) →
  Part001.PushBack_body mv this r w = SimpleVectorH.PushBack_body mv this r w.
Proof.
  intros Hok Hr.
  destruct (objs w !! this) as [v|] eqn:Hv.
  - destruct (N.le_gt_cases (capacity_ v) (size_ v)).
    + by apply (PushBack_body_full_agree mv this r w v); [..|apply Hr|].
    + by apply (PushBack_body_room_agree mv this r w v).
  - unfold Part001.PushBack_body, SimpleVectorH.PushBack_body.
    by rewrite !obj_None.
Qed.

End agreement_on_growth.

(** *** [Insert] on a full vector *)

Section agreement_on_insertion.
Context {T : Type} `{!Elem T} `{!Platform}.
Implicit Types (w : world T) (v u : SimpleVector) (r : ref T).

(** [Insert] within the elements of a full vector whose argument lives
    elsewhere. *)
Lemma InsertImpl_full_agree mv this k r w v :
  world_ok w → objs w !! this = Some v → elsewhere r v w →
  (capacity_ v ≤ size_ v)%N → k ≤ N.to_nat (size_ v) →
  Part001.InsertImpl mv this (Ptr (data_ v) k) r w
  = SimpleVectorH.InsertImpl mv this (Ptr (data_ v) k) r w.
Proof.
  intros Hok Hv Hr Hfull Hk.
  rewrite (InsertImpl_run mv this k r w v Hok Hv Hr Hk).
  destruct (world_ok_obj _ _ _ Hok Hv) as (Hsz & Hcap & Hd).
  pose proof (world_ok_fresh _ Hok) as Hfresh.
  pose proof (length_block_of _ _ _ Hok Hv) as Hlb.
  unfold Part001.InsertImpl.
  rewrite bind_eq, (begin_Some _ _ _ Hv).
  unfold Part001.begin_of, ArrayPtr_Get.
  rewrite bind_eq, ptr_diff_same by lia. rewrite Nat.sub_0_r.
  rewrite bind_eq, (obj_Some _ _ _ Hv).
  destruct (N.leb_spec (capacity_ v) (size_ v)); [|lia].
  fold (grown (capacity_ v)). rewrite grown_exact by done.
  rewrite bind_eq, Reserve_agree, (Reserve_grow this _ w v Hok Hv)
    by by apply grown_above.
  unfold grows_too_far, inserted. rewrite added_full by done.
  destruct (N.ltb_spec (size_ v) (capacity_ v)) as [|_]; [lia|]. simpl negb.
  set (nc := N.max 1 (2 * capacity_ v)) in *.
  destruct (N.ltb_spec max_elems nc) as [Hfar|Hfit]; simpl andb; cbv iota;
    [done|].
  set (n := N.to_nat (size_ v)) in *.
  set (old := block_of w v) in *.
  set (fresh := replicate (N.to_nat nc) new_slot).
  assert (length fresh = N.to_nat nc) as Hlf by apply length_replicate.
  set (B := list_inserts 0 (take n old) fresh).
  assert (length B = N.to_nat nc) as HlB by (unfold B; by rewrite length_inserts).
  set (v1 := mkVec (size_ v) nc (Some (next w))).
  set (O1 := <[this := v1]> (objs w)).
  assert (O1 !! this = Some v1) as Hv1 by apply lookup_insert_eq.
  rewrite bind_eq, (begin_Some this v1) by done.
  rewrite bind_eq, (end_Some this v1) by done.
  unfold Part001.begin_of, Part001.end_of, ArrayPtr_Get, ptr_add.
  cbn [blk off size_ data_ v1]. fold n. rewrite !Nat.add_0_l.
  unfold std_move_backward. cbn [blk off].
  rewrite !bind_eq, ptr_diff_same by lia.
  destruct (move_backward_n_shift_right (n - k) (next w) k B
              (World O1 (<[next w := B]> (delete_opt (data_ v) (heap w)))
                     (S (next w))))
    as (b' & Hrun & Hlen' & Hlo & Hmid & Hhi);
    [cbn [heap]; apply lookup_insert_eq | lia |].
  replace (k + (n - k)) with n in Hrun by lia.
  rewrite Hrun. cbv beta iota. unfold set_heap; cbn [objs heap next].
  rewrite insert_insert_eq.
  rewrite bind_eq, (obj_Some _ v1) by done. cbn [data_ v1].
  assert (ref_loc r ≠ Some (next w)) as Hrn.
  { intros Heq. destruct (Hr _ Heq). lia. }
  rewrite bind_eq, (assign_run _ (next w) _ b');
    [| cbn [heap]; apply lookup_insert_eq | lia | done].
  rewrite ref_value_frame with (w := w).
  2: { intros lp Hlp. destruct (Hr _ Hlp) as [Hne Hlt']. cbn [heap].
       rewrite lookup_insert_ne by lia.
       unfold delete_opt. destruct (data_ v) as [l|]; [|done].
       rewrite lookup_delete_ne; [done | congruence]. }
  destruct (ref_value w r) as [x|]; [|done].
  unfold set_heap; cbn [objs heap next].
  rewrite bind_eq, (set_size_Some _ _ v1) by done.
  cbn [objs heap next size_ capacity_ data_ v1].
  rewrite bind_eq, (begin_Some this (mkVec (size_incr (size_ v)) nc (Some (next w))))
    by apply lookup_insert_eq.
  unfold Part001.begin_of, ArrayPtr_Get, ptr_add. cbn [blk off data_].
  unfold O1. rewrite !insert_insert_eq. rewrite size_incr_exact by lia.
  unfold mret, M_ret. f_equal. f_equal. f_equal. f_equal.
  rewrite (shifted_right_written B b' k (n - k) x); [| lia | done..].
  unfold B. apply inserted_via_reserve; lia.
Qed.

(** A range that runs past the end of its array cannot be moved. *)
Lemma move_n_in_range n : ∀ p q w w',
  move_n n p q w = Ok tt w' →
  n = 0 ∨ ∃ l b, blk p = Some l ∧ heap w !! l = Some b ∧ off p + n ≤ length b.
Proof.
  induction n as [|n IH]; intros p q w w' Hrun; [by left|]. right.
  simpl in Hrun. apply bind_Ok_inv in Hrun as ([] & w1 & Hassign & Hrest).
  pose proof Hassign as Hst.
  eapply (writes_Ok (λ _, True)) in Hst as (_ & _ & Hlens & _);
    [|by apply writes_assign].
  unfold assign in Hassign. simpl read_ref in Hassign.
  apply bind_Ok_inv in Hassign as (x & w0 & [-> Hx]%load_inv & _).
  unfold cell in Hx. destruct (blk p) as [l|] eqn:Hl; [|done]. simpl in Hx.
  destruct (heap w !! l) as [b|] eqn:Hb; [|done]. simpl in Hx.
  apply lookup_lt_Some in Hx.
  exists l, b. split_and!; [done | done |].
  apply IH in Hrest as [->|(l' & b1 & Hl' & Hb1 & Hn)]; [lia|].
  simpl in Hl', Hn. assert (l' = l) as -> by congruence.
  assert (lens (heap w1) !! l = Some (length b1)) as Hlen1
    by (apply lens_lookup; eauto).
  rewrite Hlens in Hlen1. apply lens_lookup in Hlen1 as (b0 & Hb0 & Hlen0).
  assert (b0 = b) as -> by congruence. lia.
Qed.

Lemma std_move_overrun a k d w :
  (∀ l b, a = Some l → heap w !! l = Some b → length b < k) → 0 < k →
  std_move (Ptr a 0) (Ptr a k) d w = Undefined.
Proof.
  intros Hover Hk.
  destruct (std_move (Ptr a 0) (Ptr a k) d w) as [[] w'|e w'|] eqn:Hrun;
    [| |done].
  - unfold std_move in Hrun.
    rewrite bind_eq, ptr_diff_same in Hrun by lia.
    apply move_n_in_range in Hrun as [?|(l & b & Hl & Hb & Hn)]; [lia|].
    simpl in Hl, Hn. specialize (Hover l b Hl Hb). lia.
  - exfalso. eapply (writes_no_throw (λ _, True)); [|exact Hrun].
    by apply writes_std_move.
Qed.

(** [Insert] behind the end of a full vector has no outcome in either
    version, unless the allocation has thrown before. *)
Lemma InsertImpl_behind_agree mv this k r w v :
  world_ok w → objs w !! this = Some v →
  (capacity_ v ≤ size_ v)%N → N.to_nat (size_ v) < k →
  Part001.InsertImpl mv this (Ptr (data_ v) k) r w
  = SimpleVectorH.InsertImpl mv this (Ptr (data_ v) k) r w.
Proof.
  intros Hok Hv Hfull Hk.
  destruct (world_ok_obj _ _ _ Hok Hv) as (Hsz & Hcap & Hd).
  pose proof (world_ok_fresh _ Hok) as Hfresh.
  unfold Part001.InsertImpl, SimpleVectorH.InsertImpl.
  rewrite bind_eq, (begin_Some _ _ _ Hv), (bind_eq (obj this)), (obj_Some _ _ _ Hv).
  unfold Part001.begin_of, SimpleVectorH.begin_of, ArrayPtr_Get.
  rewrite !(bind_eq (ptr_diff _ _)), ptr_diff_same by lia. rewrite Nat.sub_0_r.
  rewrite bind_eq, (obj_Some _ _ _ Hv).
  destruct (N.leb_spec (capacity_ v) (size_ v)); [|lia].
  fold (grown (capacity_ v)). rewrite grown_exact by done.
  rewrite bind_eq, Reserve_agree, (Reserve_grow this _ w v Hok Hv)
    by by apply grown_above.
  set (nc := N.max 1 (2 * capacity_ v)) in *.
  destruct (N.ltb_spec max_elems nc) as [Hfar|Hfit].
  { by rewrite !bind_eq, ArrayPtr_new_too_large. }
  set (v1 := mkVec (size_ v) nc (Some (next w))).
  rewrite bind_eq, (begin_Some this v1) by apply lookup_insert_eq.
  rewrite bind_eq, (end_Some this v1) by apply lookup_insert_eq.
  unfold Part001.begin_of, Part001.end_of, ArrayPtr_Get, ptr_add.
  cbn [blk off size_ data_ v1]. rewrite !Nat.add_0_l.
  unfold std_move_backward at 1. rewrite !bind_eq. unfold ptr_diff at 1.
  cbn [blk off]. rewrite decide_False by lia.
  rewrite ArrayPtr_new_Some by lia.
  rewrite bind_eq, std_move_overrun; [done | | lia].
  intros l b Hl Hb. rewrite Hl in Hd. destruct Hd as (_ & Hlt & b0 & Hb0 & Hlen).
  cbn [heap] in Hb. rewrite lookup_insert_ne in Hb by lia.
  assert (b0 = b) as -> by congruence. lia.
Qed.

Lemma InsertImpl_agree mv this k r w :
  world_ok w →
  (∀ v, objs w !! this = Some v → elsewhere r v w) →
  ∀ b, Part001.begin this w = Ok b w →
  Part001.InsertImpl mv this (ptr_add b k) r w
  = SimpleVectorH.InsertImpl mv this (ptr_add b k) r w.
Proof.
  intros Hok Hr b Hb.
  destruct (objs w !! this) as [v|] eqn:Hv.
  2: { unfold Part001.begin in Hb. by rewrite obj_None in Hb. }
  rewrite (begin_Some _ _ _ Hv) in Hb. injection Hb as <-.
  unfold Part001.begin_of, ArrayPtr_Get, ptr_add. cbn [blk off Nat.add].
  destruct (N.le_gt_cases (capacity_ v) (size_ v)).
  - destruct (decide (k ≤ N.to_nat (size_ v))).
    + by apply (InsertImpl_full_agree mv this k r w v); [..|apply Hr| |].
    + apply (InsertImpl_behind_agree mv this k r w v); (done || lia).
  - by apply (InsertImpl_room_agree mv this _ r w v).
Qed.

End agreement_on_insertion.

(** *** Statements and programs *)

Section agreement_of_programs.
Context {T : Type} `{!Elem T} `{!Platform}.
Implicit Types (w : world T) (v u : SimpleVector) (r : ref T).

Lemma bind_arg_agree (a : arg T) w :
  bind_arg part_001 a w = bind_arg simple_vector_h a w.
Proof. by destruct a. Qed.

(** An element of another vector lives elsewhere. *)
Lemma arg_lives_elsewhere (a : arg T) r x w :
  world_ok w → arg_names x a = false →
  bind_arg simple_vector_h a w = Ok r w →
  ∀ v, objs w !! x = Some v → elsewhere r v w.
Proof.
  intros Hok Ha [_ Hr]%bind_arg_inv v Hv l Hl.
  destruct a as [?|y i]; [by subst r|].
  destruct Hr as (vy & Hy & ->). simpl in Ha, Hl.
  apply bool_decide_eq_false in Ha.
  destruct (world_ok_obj _ _ _ Hok Hy) as (_ & _ & Hd). rewrite Hl in Hd.
  split; [|by destruct Hd as (_ & ? & _)].
  apply (other_block w x y v vy Hok Hv Hy); [congruence | done].
Qed.

(** On a well-formed world, a statement that does not hand a vector one
    of its own elements has the same outcome in both versions. *)
Lemma run_op_agree (o : op T) w :
  world_ok w → own_element o = false →
  run_op part_001 o w = run_op simple_vector_h o w.
Proof.
  intros Hok Hown. destruct o; simpl in Hown |- *; try reflexivity.
  - by rewrite !bind_eq, SimpleVector_size_agree.
  - by rewrite !bind_eq, SimpleVector_fill_agree.
  - by rewrite !bind_eq, SimpleVector_init_agree.
  - by rewrite !bind_eq, SimpleVector_copy_agree.
  - by rewrite !bind_eq, assign_copy_agree.
  - by rewrite !bind_eq, Reserve_agree.
  - by rewrite !bind_eq, Resize_agree.
  - rewrite !(bind_eq (bind_arg _ _)), bind_arg_agree.
    destruct (bind_arg simple_vector_h a w) as [r w1| |] eqn:Harg; [|done..].
    pose proof Harg as [-> _]%bind_arg_inv.
    rewrite !bind_eq.
    change (Part001.PushBack x r) with (Part001.PushBack_body false x r).
    rewrite PushBack_body_agree; [done | done |].
    by eapply arg_lives_elsewhere.
  - rewrite !(bind_eq (bind_arg _ _)), bind_arg_agree.
    destruct (bind_arg simple_vector_h a w) as [r w1| |] eqn:Harg; [|done..].
    pose proof Harg as [-> _]%bind_arg_inv.
    rewrite !bind_eq.
    change (Part001.PushBack_move x r) with (Part001.PushBack_body true x r).
    rewrite PushBack_body_agree; [done | done |].
    by eapply arg_lives_elsewhere.
  - change (SimpleVectorH.begin (T:=T) x) with (Part001.begin (T:=T) x).
    rewrite !(bind_eq (Part001.begin x)).
    destruct (Part001.begin x w) as [b w1| |] eqn:Hb; [|done..].
    pose proof Hb as ->%(reads_Ok (SimpleVectorH.begin x)); [|apply reads_begin].
    rewrite !(bind_eq (bind_arg _ _)), bind_arg_agree.
    destruct (bind_arg simple_vector_h a w) as [r w1| |] eqn:Harg; [|done..].
    pose proof Harg as [-> _]%bind_arg_inv.
    rewrite !bind_eq.
    change (Part001.Insert x (ptr_add b k) r)
      with (Part001.InsertImpl false x (ptr_add b k) r).
    rewrite InsertImpl_agree; [done | done | | done].
    by eapply arg_lives_elsewhere.
  - change (SimpleVectorH.begin (T:=T) x) with (Part001.begin (T:=T) x).
    rewrite !(bind_eq (Part001.begin x)).
    destruct (Part001.begin x w) as [b w1| |] eqn:Hb; [|done..].
    pose proof Hb as ->%(reads_Ok (SimpleVectorH.begin x)); [|apply reads_begin].
    rewrite !(bind_eq (bind_arg _ _)), bind_arg_agree.
    destruct (bind_arg simple_vector_h a w) as [r w1| |] eqn:Harg; [|done..].
    pose proof Harg as [-> _]%bind_arg_inv.
    rewrite !bind_eq.
    change (Part001.Insert_move x (ptr_add b k) r)
      with (Part001.InsertImpl true x (ptr_add b k) r).
    rewrite InsertImpl_agree; [done | done | | done].
    by eapply arg_lives_elsewhere.
  - change (SimpleVectorH.begin (T:=T) x) with (Part001.begin (T:=T) x).
    rewrite !(bind_eq (Part001.begin x)).
    destruct (Part001.begin x w) as [b w1| |]; [|done..].
    by rewrite !bind_eq, Erase_agree.
Qed.

Lemma run_agree (p : list (op T)) : ∀ w,
  world_ok w → Forall (λ o, own_element o = false) p →
  run part_001 p w = run simple_vector_h p w.
Proof.
  induction p as [|o p IH]; intros w Hok Hp; [done|].
  apply Forall_cons in Hp as [Ho Hp]. simpl.
  rewrite (run_op_agree o w Hok Ho).
  destruct (run_op simple_vector_h o w) as [r w1|e w1|] eqn:Hop; [| |done].
  - rewrite IH; [done | by eapply run_op_ok | done].
  - apply run_op_strong in Hop as ->. by rewrite IH.
Qed.

(** X25.  For element types whose default constructor and assignments
    do not throw (the element types of this embedding), the two versions
    agree on every program that never hands a vector a reference to one of
    its own elements: statement by statement they return the same results
    and throw the same exceptions (the [bad_alloc] of [new Type[n]] and
    the [out_of_range] of [At]), and they leave the same world, hence the
    same sizes, capacities and elements; and one has undefined behaviour
    exactly when the other has. *)
Theorem part_001_agrees_on_foreign_arguments (p : list (op T)) :
  Forall (λ o, own_element o = false) p →
  run part_001 p empty_world = run simple_vector_h p empty_world.
Proof. apply run_agree, empty_world_ok. Qed.

End agreement_of_programs.

(** * Further properties of simple_vector.h *)

(** ** [Reserve], [PopBack], [Erase], [swap] and copy assignment *)

Section capacity_and_removal.
Context {T : Type} `{!Elem T} `{!Platform}.
Implicit Types (w : world T) (v u : SimpleVector).

Import SimpleVectorH.

(** X1.  [Reserve(n)] on a well-formed vector returns whenever the
    allocator can serve [n] elements: the capacity becomes
    [max(n, capacity)], the size and the elements stay, and with
    [n <= capacity] nothing at all changes.  A request above what the
    allocator serves throws [bad_alloc] and leaves the world as it was. *)
Theorem Reserve_keeps_elements this n w v :
  world_ok w → objs w !! this = Some v →
  ((n ≤ max_elems)%N →
   ∃ w' v',
     Reserve this n w = Ok tt w' ∧
     objs w' !! this = Some v' ∧
     size_ v' = size_ v ∧
     capacity_ v' = N.max n (capacity_ v) ∧
     contents w' v' = contents w v ∧
     ((n ≤ capacity_ v)%N → w' = w)) ∧
  ((max_elems < n)%N → Reserve this n w = Throw bad_alloc w).
Proof.
  intros Hok Hv.
  destruct (world_ok_obj _ _ _ Hok Hv) as (Hsz & Hcap & Hd).
  pose proof (length_block_of _ _ _ Hok Hv) as Hlb.
  split.
  - intros Hn. destruct (N.le_gt_cases n (capacity_ v)) as [Hle|Hgt].
    + exists w, v. split_and!; try done; [|lia].
      unfold Reserve. rewrite bind_eq, (obj_Some _ _ _ Hv).
      by destruct (N.ltb_spec (capacity_ v) n); [lia|].
    + rewrite (Reserve_grow this n w v Hok Hv Hgt).
      destruct (N.ltb_spec max_elems n); [lia|].
      eexists _, (mkVec (size_ v) n (Some (next w))).
      split_and!; [done | apply lookup_insert_eq | done | simpl; lia | | lia].
      unfold contents at 1, block_of at 1. cbn [size_ data_ heap].
      rewrite lookup_insert_eq. cbn [default from_option id].
      apply take_copied; [lia|]. rewrite length_replicate. lia.
  - intros Hn. rewrite (Reserve_grow this n w v Hok Hv) by lia.
    by destruct (N.ltb_spec max_elems n); [|lia].
Qed.

(** X2.  [PopBack()] on a well-formed vector with elements returns:
    the size drops by one, the elements are the former ones without the
    last, and the capacity, the buffer and the free store are untouched.
    On an empty vector the [assert] fails and the call has no outcome. *)
Theorem PopBack_drops_last this w v :
  world_ok w → objs w !! this = Some v →
  (size_ v ≠ 0%N →
   ∃ w' v',
     PopBack this w = Ok tt w' ∧
     objs w' !! this = Some v' ∧
     size_ v' = (size_ v - 1)%N ∧
     capacity_ v' = capacity_ v ∧
     data_ v' = data_ v ∧
     heap w' = heap w ∧
     contents w' v' = take (N.to_nat (size_ v) - 1) (contents w v)) ∧
  (size_ v = 0%N → PopBack this w = Undefined).
Proof.
  intros Hok Hv.
  destruct (world_ok_obj _ _ _ Hok Hv) as (Hsz & Hcap & Hd).
  unfold PopBack. rewrite bind_eq, (obj_Some _ _ _ Hv). split.
  - intros Hnz. destruct (N.ltb_spec 0%N (size_ v)); [|lia].
    rewrite (set_size_Some _ _ v) by done. rewrite size_decr_exact by lia.
    eexists _, (mkVec (size_ v - 1) (capacity_ v) (data_ v)).
    split_and!; [done | apply lookup_insert_eq | done..|].
    unfold contents, block_of. cbn [size_ data_ heap].
    rewrite take_take. f_equal. lia.
  - intros ->. done.
Qed.

(** X3.  [Erase(begin() + k)] on a well-formed vector with more than [k]
    elements returns [begin() + k]: the element at index [k] is gone, the
    elements before it and behind it keep their order, the size drops by
    one and the capacity and the buffer stay.  At [end()] or behind, the
    range handed to [std::move] is not a range and the call has no
    outcome. *)
Theorem Erase_removes_one this k w v :
  world_ok w → objs w !! this = Some v →
  (k < N.to_nat (size_ v) →
   ∃ w' v',
     Erase this (ptr_add (begin_of v) k) w = Ok (ptr_add (begin_of v) k) w' ∧
     objs w' !! this = Some v' ∧
     size_ v' = (size_ v - 1)%N ∧
     capacity_ v' = capacity_ v ∧
     data_ v' = data_ v ∧
     contents w' v' = take k (contents w v) ++ drop (S k) (contents w v)) ∧
  (N.to_nat (size_ v) ≤ k →
   Erase this (ptr_add (begin_of v) k) w = Undefined).
Proof.
  intros Hok Hv. split.
  - intros Hk. destruct (Erase_run this k w v Hok Hv Hk) as (w' & Hrun & Hv' & Hc).
    by exists w', (mkVec (size_ v - 1) (capacity_ v) (data_ v)).
  - intros Hk. unfold Erase. rewrite bind_eq, (obj_Some _ _ _ Hv).
    unfold begin_of, ArrayPtr_Get, ptr_add. cbn [blk off].
    rewrite bind_eq, ptr_diff_same by lia.
    rewrite bind_eq. unfold std_move. rewrite bind_eq.
    unfold ptr_diff. cbn [blk off]. rewrite decide_False; [done|]. lia.
Qed.

(** *** [swap] *)

Lemma swap_swap a b va vb w :
  a ≠ b → objs w !! a = Some va → objs w !! b = Some vb →
  <[b := vb]> (<[a := va]> (<[b := va]> (<[a := vb]> (objs w)))) = objs w.
Proof.
  intros Hne Ha Hb. apply map_eq. intros k.
  destruct (decide (k = b)) as [->|]; [by rewrite lookup_insert_eq|].
  rewrite lookup_insert_ne by done.
  destruct (decide (k = a)) as [->|]; [by rewrite lookup_insert_eq|].
  by rewrite !lookup_insert_ne by done.
Qed.

(** X4.  [a.swap(b)] on two distinct vectors returns: each has the
    members, hence the size, the capacity and the elements, the other had;
    no slot of the free store is written and no other vector changes; a
    second [a.swap(b)] restores the world. *)
Theorem swap_exchanges a b w va vb :
  a ≠ b → objs w !! a = Some va → objs w !! b = Some vb →
  ∃ w',
    swap a b w = Ok tt w' ∧
    objs w' !! a = Some vb ∧
    objs w' !! b = Some va ∧
    heap w' = heap w ∧
    contents w' vb = contents w vb ∧
    contents w' va = contents w va ∧
    (∀ y, y ≠ a → y ≠ b → objs w' !! y = objs w !! y) ∧
    swap a b w' = Ok tt w.
Proof.
  intros Hne Ha Hb. eexists. split_and!.
  - by apply swap_distinct.
  - cbn [objs]. rewrite lookup_insert_ne by done. apply lookup_insert_eq.
  - cbn [objs]. apply lookup_insert_eq.
  - done.
  - done.
  - done.
  - intros y ? ?. cbn [objs]. by rewrite !lookup_insert_ne.
  - rewrite (swap_distinct a b vb va); cbn [objs heap next].
    + rewrite swap_swap by done. by rewrite world_eta.
    + done.
    + rewrite lookup_insert_ne by done. apply lookup_insert_eq.
    + apply lookup_insert_eq.
Qed.

(** *** Copy assignment *)

Lemma destroy_Some this v w :
  objs w !! this = Some v →
  (∀ l, data_ v = Some l → is_Some (heap w !! l)) →
  destroy this w
  = Ok tt (World (delete this (objs w)) (delete_opt (data_ v) (heap w)) (next w)).
Proof.
  intros Hv Hlive. unfold destroy. rewrite bind_eq, (obj_Some _ _ _ Hv).
  rewrite bind_eq. destruct (data_ v) as [l|]; [|done].
  destruct (Hlive l eq_refl) as [b Hb]. by rewrite (ArrayPtr_delete_Some l b).
Qed.

(** X5.  [a = b] by copy, on two distinct well-formed vectors: the call
    returns, [a] has the elements of [b], in order, and a capacity equal to
    its size, [b] keeps its members and elements, and the buffer [a] owned
    before is released.  Assigning a vector to itself changes nothing. *)
Theorem copy_assignment_replaces this rhs w a b :
  world_ok w → this ≠ rhs →
  objs w !! this = Some a → objs w !! rhs = Some b →
  (∃ w' c,
     assign_copy this rhs w = Ok tt w' ∧
     objs w' !! this = Some c ∧
     size_ c = size_ b ∧
     capacity_ c = size_ b ∧
     contents w' c = contents w b ∧
     objs w' !! rhs = Some b ∧
     contents w' b = contents w b ∧
     dom (objs w') = dom (objs w) ∧
     ∀ l, data_ a = Some l → heap w' !! l = None) ∧
  assign_copy rhs rhs w = Ok tt w.
Proof.
  intros Hok Hne Ha Hb. split.
  2: { unfold assign_copy. rewrite bind_eq, (obj_Some _ _ _ Hb).
       rewrite bind_eq, (obj_Some _ _ _ Hb).
       rewrite decide_False; [done|]. intros Hf. by apply Hf. }
  set (temp := fresh (dom (objs w))).
  assert (objs w !! temp = None) as Htemp.
  { apply not_elem_of_dom, is_fresh. }
  assert (temp ≠ this ∧ temp ≠ rhs) as [Hnt Hnr] by (split; congruence).
  destruct (SimpleVector_copy_run temp rhs w b Hok Htemp Hb)
    as (w1 & d & Hcopy & Hc1 & Hcont1).
  set (c := mkVec (size_ b) (size_ b) d) in *.
  pose proof (SimpleVector_copy_ok _ _ _ _ Hok Hcopy) as Hok1.
  pose proof (SimpleVector_copy_untouched _ _ _ _ _ _ Hok Ha Hcopy) as [Ha1 Hba1].
  pose proof (SimpleVector_copy_untouched _ _ _ _ _ _ Hok Hb Hcopy) as [Hb1 Hbb1].
  assert (dom (objs w1) = {[temp]} ∪ dom (objs w)) as Hdom1.
  { unfold SimpleVector_copy in Hcopy.
    apply bind_Ok_inv in Hcopy as ([] & w0 & [-> _]%declare_inv & Hcopy).
    apply obj_needed in Hcopy as (o & Ho & Hcopy).
    apply bind_Ok_inv in Hcopy as (d' & w2 & Hnew & Hcopy).
    apply bind_Ok_inv in Hcopy as ([] & w3 & [= <-] & Hcopy).
    assert (objs w2 = objs w) as Ho2.
    { by apply ArrayPtr_new_inv in Hnew as [(_ & _ & ->)|(_ & _ & _ & ->)]. }
    assert (objs w1 = <[temp := mkVec (size_ o) (size_ o) d']> (objs w)) as ->.
    { destruct (0 <? size_ o)%N.
      - eapply (writes_Ok (λ _, True)) in Hcopy as (-> & _);
          [by rewrite <-Ho2 | by apply writes_std_copy].
      - injection Hcopy as <-. simpl. by rewrite Ho2. }
    by rewrite dom_insert_L. }
  set (w2 := World (<[temp := a]> (<[this := c]> (objs w1))) (heap w1) (next w1)).
  assert (swap this temp w1 = Ok tt w2) as Hswap
    by (apply swap_distinct; (done || congruence)).
  pose proof (swap_ok _ _ _ _ Hok1 Hswap) as Hok2.
  assert (objs w2 !! temp = Some a) as Ht2 by apply lookup_insert_eq.
  assert (objs w2 !! this = Some c) as Hc2.
  { cbn [objs w2]. rewrite lookup_insert_ne by done. apply lookup_insert_eq. }
  assert (objs w2 !! rhs = Some b) as Hb2.
  { cbn [objs w2]. by rewrite !lookup_insert_ne by done. }
  assert (destroy temp w2
          = Ok tt (World (delete temp (objs w2))
                         (delete_opt (data_ a) (heap w2)) (next w2))) as Hdestroy.
  { apply destroy_Some; [done|]. intros l Hl.
    destruct (world_ok_obj _ _ _ Hok2 Ht2) as (_ & _ & Hd). rewrite Hl in Hd.
    destruct Hd as (_ & _ & b0 & -> & _). by eexists. }
  pose proof (destroy_untouched temp this c w2 _ Hok2 Hc2
                ltac:(congruence) Hdestroy) as [Hc3 Hbc3].
  pose proof (destroy_untouched temp rhs b w2 _ Hok2 Hb2
                ltac:(congruence) Hdestroy) as [Hb3 Hbb3].
  eexists _, c. split_and!.
  - unfold assign_copy. rewrite bind_eq, (obj_Some _ _ _ Ha).
    rewrite bind_eq, (obj_Some _ _ _ Hb). rewrite decide_True by done.
    unfold with_local. fold temp. rewrite bind_eq, Hcopy, bind_eq, Hswap.
    exact Hdestroy.
  - exact Hc3.
  - done.
  - done.
  - unfold contents. rewrite Hbc3. exact Hcont1.
  - exact Hb3.
  - unfold contents. by rewrite Hbb3, <-Hbb1.
  - cbn [objs w2]. rewrite dom_delete_L, !dom_insert_L, Hdom1.
    assert (temp ∉ dom (objs w)) as Hfresh by apply is_fresh.
    assert (this ∈ dom (objs w)) as Hthis by (apply elem_of_dom; eauto).
    apply set_eq. intros k.
    rewrite elem_of_difference, !elem_of_union, !elem_of_singleton. split.
    + by intros [[->|[->|[->|Hk]]] Hnk].
    + intros Hk. split; [by right; right; right | by intros ->].
  - intros l Hl. cbn [heap]. rewrite Hl. cbn [delete_opt].
    apply lookup_delete_eq.
Qed.

End capacity_and_removal.

(** ** Exceptions *)

Section exceptions.
Context {T : Type} `{!Elem T} `{!Platform}.
Implicit Types (w : world T) (v u : SimpleVector).

Import SimpleVectorH.

Local Abbreviation nothrow := (nothrow (T:=T)).
Local Abbreviation raises_only := (raises_only (T:=T)).

Lemma raises_only_nothrow {A} e (m : M T A) : nothrow m → raises_only e m.
Proof. intros Hm w e' w' Hw. by apply Hm in Hw. Qed.

Lemma raises_only_bind {A B} e (m : M T A) (f : A → M T B) :
  raises_only e m → (∀ a, raises_only e (f a)) → raises_only e (m ≫= f).
Proof.
  intros Hm Hf w e' w'. rewrite bind_eq.
  destruct (m w) as [a w1|e1 w1|] eqn:Hw; [apply Hf | | done].
  intros [= <- _]. by eapply Hm.
Qed.

Lemma raises_only_throw {A} e : raises_only e (throw e : M T A).
Proof. by intros w e' w' [= <- _]. Qed.

Lemma raises_only_ArrayPtr_new n : raises_only bad_alloc (ArrayPtr_new n).
Proof.
  intros w e w'. unfold ArrayPtr_new. destruct (n =? 0)%N; [done|].
  destruct (max_elems <? n)%N; [|done]. by intros [= <- _].
Qed.

Lemma raises_only_with_local {A} e (f : var → M T A) :
  (∀ x, raises_only e (f x)) → raises_only e (with_local f).
Proof. intros Hf w e' w'. apply Hf. Qed.

Local Ltac quiet_atom :=
  first
    [ apply nothrow_ret | apply nothrow_obj | apply nothrow_put
    | apply nothrow_declare | apply nothrow_forget | apply nothrow_undefined
    | apply nothrow_set_size | apply nothrow_set_capacity
    | apply nothrow_set_data | apply nothrow_ArrayPtr_delete
    | apply nothrow_std_move | apply nothrow_std_move_backward
    | apply nothrow_std_copy | apply nothrow_std_fill
    | apply nothrow_copy_list | apply nothrow_default_range
    | apply nothrow_assign | apply nothrow_store | apply nothrow_load
    | apply nothrow_ptr_diff | apply nothrow_swap | apply nothrow_destroy
    | apply nothrow_Clear ].

Local Ltac quiet_step :=
  first
    [ quiet_atom
    | apply nothrow_bind; [|intros ?]
    | match goal with
      | |- nothrow (if ?c then _ else _) => destruct c
      | |- nothrow (match ?c with _ => _ end) => destruct c
      end
    | progress cbv zeta ].

Local Ltac quiet := repeat quiet_step.

Local Ltac raises_step :=
  first
    [ apply raises_only_throw
    | apply raises_only_ArrayPtr_new
    | apply raises_only_nothrow; quiet_atom
    | apply raises_only_bind; [|intros ?]
    | match goal with
      | |- raises_only _ (if ?c then _ else _) => destruct c
      | |- raises_only _ (match ?c with _ => _ end) => destruct c
      end
    | progress cbv zeta
    | apply raises_only_nothrow; solve [quiet]
    | apply raises_only_with_local; intros ? ].

Local Ltac raises := repeat raises_step.

Lemma run_op_raises (o : op T) :
  match exception_of o with
  | Some e => raises_only e (run_op simple_vector_h o)
  | None => nothrow (run_op simple_vector_h o)
  end.
Proof.
  destruct o; simpl;
    unfold SimpleVector_default, SimpleVector_reserve, SimpleVector_size,
      SimpleVector_fill, SimpleVector_init, SimpleVector_copy,
      SimpleVector_move, assign_copy, assign_move, Reserve, GetSize,
      GetCapacity, IsEmpty, index, At, Resize, PopBack, Erase, PushBack,
      PushBack_move, PushBack_body, Insert, Insert_move, InsertImpl,
      begin, end_;
    try lazymatch goal with
        | |- context [bind_arg _ ?a] => destruct a; simpl; unfold index
        end;
    lazymatch goal with
    | |- raises_only _ _ => solve [raises]
    | |- _ => solve [quiet]
    end.
Qed.

(** X6.  For element types whose default constructor and assignments do
    not throw (the element types of this embedding): a statement over
    simple_vector.h that throws has changed nothing, and what it throws is
    [out_of_range] when it is a call of [At], and the [bad_alloc] of
    [new Type[n]] when it is one of the operations that allocate: the
    constructors with a size, copy construction and copy assignment,
    [Reserve], [Resize], [PushBack] and [Insert].  No other operation
    throws. *)
Theorem statement_throws_cleanly (o : op T) w e w' :
  run_op simple_vector_h o w = Throw e w' →
  exception_of o = Some e ∧ w' = w.
Proof.
  intros Hrun. split; [|by eapply run_op_strong].
  pose proof (run_op_raises o) as Ho.
  destruct (exception_of o) as [e0|].
  - f_equal. symmetry. by eapply Ho.
  - by apply Ho in Hrun.
Qed.

End exceptions.

(** ** Constructors and sequences of [PushBack] *)

Section construction.
Context {T : Type} `{!Elem T} `{!Platform}.
Implicit Types (w : world T) (v u : SimpleVector).

Import SimpleVectorH.

Lemma take_written {A} (l fresh : list A) :
  length l ≤ length fresh →
  take (length l) (list_inserts 0 l fresh) = l.
Proof.
  intros Hl. rewrite <-(take_ge l (length l)) at 2 by done.
  rewrite take_copied by lia. by rewrite take_ge.
Qed.

(** A constructor that allocates [n] slots and then writes [l] over
    them, or, for [n = 0], writes nothing. *)
Lemma constructed_contents this n l (f : option loc → M T unit) w :
  objs w !! this = None → (n ≤ max_elems)%N →
  length l = N.to_nat n →
  (n = 0%N → ∀ w1, f None w1 = Ok tt w1) →
  (n ≠ 0%N →
   ∀ w1, heap w1 !! next w = Some (replicate (N.to_nat n) new_slot) →
         f (Some (next w)) w1
         = Ok tt (set_heap w1
             (<[next w := list_inserts 0 l
                            (replicate (N.to_nat n) new_slot)]> (heap w1)))) →
  ∃ w' v,
    (declare this;; data ← ArrayPtr_new n;
     put this (mkVec n n data);; f data) w = Ok tt w' ∧
    objs w' !! this = Some v ∧ size_ v = n ∧ capacity_ v = n ∧
    contents w' v = l.
Proof.
  intros Hthis Hn Hl Hzero Hm.
  rewrite bind_eq, (declare_None _ _ Hthis).
  destruct (N.eq_dec n 0%N) as [->|Hnz].
  - rewrite bind_eq. unfold ArrayPtr_new. cbn [N.eqb].
    rewrite bind_eq. cbn [put]. rewrite Hzero by done.
    eexists _, (mkVec 0 0 None).
    split_and!; [done | apply lookup_insert_eq | done | done |].
    by destruct l.
  - rewrite bind_eq, ArrayPtr_new_Some by done.
    rewrite bind_eq. cbn [put objs heap next].
    rewrite Hm by (done || (cbn [heap]; apply lookup_insert_eq)).
    eexists _, (mkVec n n (Some (next w))).
    split_and!; [done | apply lookup_insert_eq | done | done |].
    unfold contents, block_of. cbn [size_ data_ heap set_heap].
    rewrite lookup_insert_eq. cbn [default from_option id].
    rewrite <-Hl. apply take_written. rewrite length_replicate. lia.
Qed.

Lemma SimpleVector_fill_run this n x w :
  objs w !! this = None → (n ≤ max_elems)%N →
  ∃ w' v,
    SimpleVector_fill this n x w = Ok tt w' ∧
    objs w' !! this = Some v ∧ size_ v = n ∧ capacity_ v = n ∧
    contents w' v = replicate (N.to_nat n) x.
Proof.
  intros Hthis Hn.
  apply (constructed_contents this n (replicate (N.to_nat n) x)
           (λ data, if (0 <? n)%N
                    then std_fill (ArrayPtr_Get data)
                           (ptr_add (ArrayPtr_Get data) (N.to_nat n)) x
                    else mret tt) w Hthis Hn).
  - apply length_replicate.
  - by intros -> w1.
  - intros Hnz w1 Hw1. destruct (N.ltb_spec 0%N n); [|lia].
    unfold std_fill, ArrayPtr_Get, ptr_add. cbn [blk off].
    rewrite bind_eq, ptr_diff_same by lia.
    rewrite Nat.add_0_l, Nat.sub_0_r.
    apply fill_n_block; [done|]. rewrite length_replicate. lia.
Qed.

Lemma SimpleVector_fill_too_large this n x w :
  objs w !! this = None → (max_elems < n)%N →
  SimpleVector_fill this n x w = Throw bad_alloc w.
Proof.
  intros Hthis Hn. unfold SimpleVector_fill.
  rewrite bind_eq, (declare_None _ _ Hthis).
  by rewrite bind_eq, ArrayPtr_new_too_large.
Qed.

(** X7.  [SimpleVector(n, x)] and [SimpleVector(n)], for a new name and
    a size the allocator can serve: the vector has size [n], capacity [n]
    and [n] elements equal to [x], respectively to [Type()].  Above what
    the allocator serves both throw [bad_alloc] and construct nothing. *)
Theorem sized_constructors_fill this n x w :
  objs w !! this = None →
  ((n ≤ max_elems)%N →
   (∃ w' v,
      SimpleVector_fill this n x w = Ok tt w' ∧
      objs w' !! this = Some v ∧ size_ v = n ∧ capacity_ v = n ∧
      contents w' v = replicate (N.to_nat n) x) ∧
   (∃ w' v,
      SimpleVector_size this n w = Ok tt w' ∧
      objs w' !! this = Some v ∧ size_ v = n ∧ capacity_ v = n ∧
      contents w' v = replicate (N.to_nat n) Type_default)) ∧
  ((max_elems < n)%N →
   SimpleVector_fill this n x w = Throw bad_alloc w ∧
   SimpleVector_size this n w = Throw bad_alloc w).
Proof.
  intros Hthis. split.
  - intros Hn. split; [by apply SimpleVector_fill_run|].
    by apply (SimpleVector_fill_run this n Type_default).
  - intros Hn. split; [by apply SimpleVector_fill_too_large|].
    by apply (SimpleVector_fill_too_large this n Type_default).
Qed.

(** X8.  [SimpleVector{x1, ..., xn}], for a new name and a list the
    allocator can serve: the vector has the elements of the list, in
    order, and size and capacity [n]. *)
Theorem initializer_list_constructor this (init : list T) w :
  objs w !! this = None → (N.of_nat (length init) ≤ max_elems)%N →
  ∃ w' v,
    SimpleVector_init this init w = Ok tt w' ∧
    objs w' !! this = Some v ∧
    size_ v = N.of_nat (length init) ∧
    capacity_ v = N.of_nat (length init) ∧
    contents w' v = init.
Proof.
  intros Hthis Hn.
  apply (constructed_contents this (N.of_nat (length init)) init
           (λ data, if (0 <? N.of_nat (length init))%N
                    then copy_list init (ArrayPtr_Get data)
                    else mret tt) w Hthis Hn).
  - lia.
  - intros Hz w1. by rewrite Hz.
  - intros Hnz w1 Hw1.
    destruct (N.ltb_spec 0%N (N.of_nat (length init))); [|lia].
    unfold ArrayPtr_Get.
    apply copy_list_block; [done|]. rewrite length_replicate. lia.
Qed.

End construction.

Section sequences.
Context {T : Type} `{!Elem T} `{!Platform}.
Implicit Types (w : world T) (v u : SimpleVector).

Import SimpleVectorH.

(** One [PushBack] of a value, as a statement. *)
Lemma push_statement this x w v :
  world_ok w → objs w !! this = Some v → grows_too_far v = false →
  ∃ w' v',
    run_op simple_vector_h (OpPushBack this (AVal x)) w = Ok RUnit w' ∧
    world_ok w' ∧
    objs w' !! this = Some v' ∧
    size_ v' = (size_ v + 1)%N ∧
    contents w' v' = contents w v ++ [x] ∧
    capacity_ v'
    = (if (size_ v =? capacity_ v)%N then N.max 1 (2 * capacity_ v)
       else capacity_ v) ∧
    ((size_ v < capacity_ v)%N → data_ v' = data_ v).
Proof.
  intros Hok Hv Hfar.
  destruct (world_ok_obj _ _ _ Hok Hv) as (Hsz & _).
  assert (PushBack_body false this (RVal x) w
          = Ok tt (pushed false this v (RVal x) x w)) as Hrun.
  { rewrite (PushBack_body_run false this (RVal x) w v Hok Hv (elsewhere_val _ _ _)).
    by rewrite Hfar. }
  exists (pushed false this v (RVal x) x w), (added v (next w)).
  split_and!.
  - change (run_op simple_vector_h (OpPushBack this (AVal x)) w)
      with ((PushBack_body false this (RVal x);;
             (mret RUnit : M T (result T))) w).
    by rewrite bind_eq, Hrun.
  - by eapply PushBack_body_ok.
  - apply objs_pushed.
  - apply added_size.
  - by apply contents_pushed.
  - by apply added_capacity.
  - intros Hroom. by rewrite added_room.
Qed.

Lemma run_cons_Ok (o : op T) p r w w1 tr w' :
  run_op simple_vector_h o w = Ok r w1 →
  run simple_vector_h p w1 = Some (tr, w') →
  run simple_vector_h (o :: p) w = Some (Returned r :: tr, w').
Proof. intros Ho Hp. simpl. by rewrite Ho, Hp. Qed.

Lemma pushes_in_place this (xs : list T) w v :
  world_ok w → objs w !! this = Some v →
  (size_ v + N.of_nat (length xs) ≤ capacity_ v)%N →
  ∃ w' v',
    run simple_vector_h (pushes this xs) w
    = Some (replicate (length xs) (Returned RUnit), w') ∧
    objs w' !! this = Some v' ∧
    data_ v' = data_ v ∧
    capacity_ v' = capacity_ v ∧
    size_ v' = (size_ v + N.of_nat (length xs))%N ∧
    contents w' v' = contents w v ++ xs.
Proof.
  revert w v. induction xs as [|x xs IH]; intros w v Hok Hv Hroom.
  - exists w, v. simpl. rewrite app_nil_r, N.add_0_r. by split_and!.
  - simpl length in Hroom.
    destruct (push_statement this x w v Hok Hv) as
      (w1 & v1 & Hrun & Hok1 & Hv1 & Hs1 & Hc1 & Hcap1 & Hd1).
    { apply grows_too_far_room. lia. }
    destruct (N.eqb_spec (size_ v) (capacity_ v)); [lia|].
    destruct (IH w1 v1 Hok1 Hv1) as (w' & v' & Hrest & Hv' & Hd' & Hcap' & Hs' & Hc');
      [lia|].
    exists w', v'. split_and!.
    + by apply (run_cons_Ok _ _ _ _ w1).
    + done.
    + rewrite Hd'. apply Hd1. lia.
    + congruence.
    + simpl length. lia.
    + by rewrite Hc', Hc1, <-(assoc_L (++)).
Qed.

(** X9.  A vector with room for [n] more elements, as [Reserve] leaves
    it, takes [n] calls of [PushBack] without moving: every call returns,
    [begin()] and the capacity are what they were, and the elements are the
    former ones followed by the pushed ones, in order. *)
Theorem pushes_within_capacity this (xs : list T) w v :
  world_ok w → objs w !! this = Some v →
  (size_ v + N.of_nat (length xs) ≤ capacity_ v)%N →
  ∃ w' v',
    run simple_vector_h (pushes this xs) w
    = Some (replicate (length xs) (Returned RUnit), w') ∧
    objs w' !! this = Some v' ∧
    data_ v' = data_ v ∧
    capacity_ v' = capacity_ v ∧
    size_ v' = (size_ v + N.of_nat (length xs))%N ∧
    contents w' v' = contents w v ++ xs.
Proof. apply pushes_in_place. Qed.

(** X10.  Pushing the values of a list, one [PushBack] after the other,
    on a well-formed vector: as long as twice the final size is within
    what the allocator serves, every call returns, and the elements are the
    former ones followed by the list, in order; the capacity never
    shrinks. *)
Theorem pushes_append this (xs : list T) w v :
  world_ok w → objs w !! this = Some v →
  (2 * (size_ v + N.of_nat (length xs)) ≤ max_elems)%N →
  ∃ w' v',
    run simple_vector_h (pushes this xs) w
    = Some (replicate (length xs) (Returned RUnit), w') ∧
    objs w' !! this = Some v' ∧
    size_ v' = (size_ v + N.of_nat (length xs))%N ∧
    (capacity_ v ≤ capacity_ v')%N ∧
    contents w' v' = contents w v ++ xs.
Proof.
  revert w v. induction xs as [|x xs IH]; intros w v Hok Hv Hfit.
  - exists w, v. simpl. rewrite app_nil_r, N.add_0_r. by split_and!.
  - simpl length in Hfit.
    destruct (world_ok_obj _ _ _ Hok Hv) as (Hsz & _).
    destruct (push_statement this x w v Hok Hv) as
      (w1 & v1 & Hrun & Hok1 & Hv1 & Hs1 & Hc1 & Hcap1 & _).
    { apply grows_too_far_false; [|done]. lia. }
    destruct (IH w1 v1 Hok1 Hv1) as (w' & v' & Hrest & Hv' & Hs' & Hcap' & Hc');
      [lia|].
    exists w', v'. split_and!.
    + by apply (run_cons_Ok _ _ _ _ w1).
    + done.
    + simpl length. lia.
    + destruct (size_ v =? capacity_ v)%N; lia.
    + by rewrite Hc', Hc1, <-(assoc_L (++)).
Qed.

(** X11.  [PushBack(x)] followed by [PopBack()] on a well-formed
    vector gives back the size and the elements it had; what may remain is
    the larger capacity. *)
Theorem PopBack_undoes_PushBack (mv : bool) this x w v :
  world_ok w → objs w !! this = Some v →
  (size_ v = capacity_ v → (N.max 1 (2 * capacity_ v) ≤ max_elems)%N) →
  ∃ w1 w2 v2,
    (if mv then PushBack_move else PushBack) this (RVal x) w = Ok tt w1 ∧
    PopBack this w1 = Ok tt w2 ∧
    objs w2 !! this = Some v2 ∧
    size_ v2 = size_ v ∧
    (capacity_ v ≤ capacity_ v2)%N ∧
    contents w2 v2 = contents w v.
Proof.
  intros Hok Hv Hfit.
  destruct (world_ok_obj _ _ _ Hok Hv) as (Hsz & _).
  pose proof (grows_too_far_false v Hfit Hsz) as Hfar.
  set (w1 := pushed mv this v (RVal x) x w).
  set (v1 := added v (next w)).
  assert (PushBack_body mv this (RVal x) w = Ok tt w1) as Hrun.
  { rewrite (PushBack_body_run mv this (RVal x) w v Hok Hv (elsewhere_val _ _ _)).
    by rewrite Hfar. }
  pose proof (PushBack_body_ok _ _ _ _ _ Hok Hrun) as Hok1.
  pose proof (objs_pushed mv this v (RVal x) x w) as Hv1. fold w1 v1 in Hv1.
  pose proof (added_size v (next w)) as Hs1. fold v1 in Hs1.
  pose proof (contents_pushed mv this v x w Hok Hv Hfar) as Hc1. fold w1 v1 in Hc1.
  destruct (world_ok_obj _ _ _ Hok1 Hv1) as (Hsz1 & Hcap1 & _).
  exists w1, (World (<[this := mkVec (size_ v1 - 1) (capacity_ v1) (data_ v1)]>
                       (objs w1)) (heap w1) (next w1)),
    (mkVec (size_ v1 - 1) (capacity_ v1) (data_ v1)).
  split_and!.
  - by destruct mv.
  - unfold PopBack. rewrite bind_eq, (obj_Some _ _ _ Hv1).
    destruct (N.ltb_spec 0%N (size_ v1)); [|lia].
    rewrite (set_size_Some _ _ v1) by done. by rewrite size_decr_exact by lia.
  - apply lookup_insert_eq.
  - simpl. lia.
  - simpl. unfold v1. rewrite added_capacity by done.
    destruct (size_ v =? capacity_ v)%N; lia.
  - unfold contents at 1, block_of at 1. cbn [size_ data_ heap].
    fold (block_of w1 v1).
    replace (N.to_nat (size_ v1 - 1)) with (N.to_nat (size_ v)) by lia.
    assert (take (N.to_nat (size_ v)) (block_of w1 v1)
            = take (N.to_nat (size_ v)) (contents w1 v1)) as ->.
    { unfold contents. rewrite take_take. f_equal. lia. }
    rewrite Hc1. apply take_app_length'. symmetry.
    by apply (length_contents _ this).
Qed.

(** X12.  Writing through [v[i]] or [v.At(i)] with [i < size]: both
    give the same reference, the write replaces the element at index [i]
    and no other, reading it back gives the value written, and the
    elements of every other vector stay. *)
Theorem element_write this i a w v :
  world_ok w → objs w !! this = Some v → (i < size_ v)%N →
  ∃ p w',
    index this i w = Ok p w ∧
    At this i w = Ok p w ∧
    store p a w = Ok tt w' ∧
    objs w' = objs w ∧
    contents w' v = <[N.to_nat i := a]> (contents w v) ∧
    load p w' = Ok a w' ∧
    ∀ y u, y ≠ this → objs w !! y = Some u → contents w' u = contents w u.
Proof.
  intros Hok Hv Hi.
  destruct (world_ok_obj _ _ _ Hok Hv) as (Hsz & Hcap & Hd).
  destruct (data_ v) as [l|] eqn:Hdv; [|lia].
  destruct Hd as (_ & _ & b & Hb & Hlen).
  exists (Ptr (Some l) (N.to_nat i)),
    (set_heap w (<[l := <[N.to_nat i := a]> b]> (heap w))).
  split_and!.
  - unfold index. rewrite bind_eq, (obj_Some _ _ _ Hv).
    unfold ArrayPtr_index. by rewrite Hdv.
  - unfold At. rewrite bind_eq, (obj_Some _ _ _ Hv).
    destruct (N.leb_spec (size_ v) i); [lia|].
    unfold ArrayPtr_index. by rewrite Hdv.
  - apply store_Some; [done | lia].
  - done.
  - unfold contents, block_of. cbn [heap set_heap].
    rewrite Hdv, lookup_insert_eq, Hb. cbn [default from_option id].
    rewrite take_insert_lt by lia. done.
  - apply load_Some, (cell_Some l _ (<[N.to_nat i := a]> b)).
    + cbn [heap set_heap]. apply lookup_insert_eq.
    + apply list_lookup_insert_eq. lia.
  - intros y u Hne Hy. unfold contents, block_of. cbn [heap set_heap].
    destruct (data_ u) as [l'|] eqn:Hl'; [|done].
    rewrite lookup_insert_ne; [done|]. intros <-.
    by apply (other_block w this y v u Hok Hv Hy Hne l).
Qed.

End sequences.

(** ** Ownership of the arrays *)

Section ownership.
Context {T : Type} `{!Elem T} `{!Platform}.
Implicit Types (w : world T) (v u : SimpleVector).

Import SimpleVectorH.

Local Abbreviation writes := (writes (T:=T)).

Lemma live_lens (h : gmap loc (list T)) l :
  is_Some (h !! l) ↔ is_Some (lens h !! l).
Proof.
  unfold lens. rewrite lookup_fmap. by rewrite fmap_is_Some.
Qed.

Lemma no_leak_shape w w' :
  objs w' = objs w → lens (heap w') = lens (heap w) →
  no_leak w → no_leak w'.
Proof.
  intros Ho Hl Hw l Hlive. rewrite Ho.
  apply Hw. apply live_lens. rewrite <-Hl. by apply live_lens.
Qed.

Lemma no_leak_stores_in (P : loc → Prop) w w' :
  stores_in P w w' → no_leak w → no_leak w'.
Proof. intros (Ho & _ & Hl & _). by apply no_leak_shape. Qed.

Lemma no_leak_objs w O :
  (∀ x v, objs w !! x = Some v →
          ∀ l, data_ v = Some l → ∃ y u, O !! y = Some u ∧ data_ u = Some l) →
  no_leak w → no_leak (World O (heap w) (next w)).
Proof.
  intros HO Hw l Hlive. destruct (Hw l Hlive) as (x & v & Hx & Hl).
  by apply (HO x v).
Qed.

Lemma no_leak_evolves (P : loc → Prop) this v v' w w' :
  objs w !! this = Some v → evolves P this v v' w w' →
  no_leak w → no_leak w'.
Proof.
  intros Hv (Ho & _ & Hcase & _) Hw l Hlive. rewrite Ho.
  apply live_lens in Hlive.
  destruct Hcase as [(Hd & _ & Hlens & _)|(Hd & Hlens & _)].
  - rewrite Hlens in Hlive. apply live_lens in Hlive.
    destruct (Hw l Hlive) as (x & u & Hx & Hl).
    destruct (decide (x = this)) as [->|Hne].
    + exists this, v'. rewrite lookup_insert_eq. split; [done|]. congruence.
    + exists x, u. by rewrite lookup_insert_ne.
  - rewrite Hlens in Hlive.
    destruct (decide (l = next w)) as [->|Hnl].
    { exists this, v'. by rewrite lookup_insert_eq. }
    assert (is_Some (lens (heap w) !! l) ∧ data_ v ≠ Some l) as [Hlive' Hnv].
    { unfold delete_opt in Hlive. destruct (data_ v) as [l0|].
      - destruct (decide (l0 = l)) as [->|].
        + rewrite lookup_delete_eq in Hlive. by destruct Hlive.
        + rewrite lookup_delete_ne, lookup_insert_ne in Hlive by done.
          split; [done | congruence].
      - by rewrite lookup_insert_ne in Hlive. }
    apply live_lens in Hlive'.
    destruct (Hw l Hlive') as (x & u & Hx & Hl).
    exists x, u. rewrite lookup_insert_ne; [done|]. intros <-. congruence.
Qed.

Lemma no_leak_construct this s c d w w1 (m : M T unit) w' :
  objs w !! this = None → ArrayPtr_new c w = Ok d w1 →
  writes (λ _, True) m →
  m (World (<[this := mkVec s c d]> (objs w1)) (heap w1) (next w1)) = Ok tt w' →
  no_leak w → no_leak w'.
Proof.
  intros Hthis Hnew Hm Hrun Hw.
  apply (writes_Ok _ _ _ _ _ Hm) in Hrun.
  apply (no_leak_stores_in _ _ _ Hrun).
  intros l Hlive. cbn [objs heap] in *.
  apply ArrayPtr_new_inv in Hnew as [(-> & -> & ->)|(Hnz & Hmax & -> & ->)].
  - destruct (Hw l Hlive) as (x & u & Hx & Hl).
    exists x, u. rewrite lookup_insert_ne; [done | congruence].
  - cbn [objs heap] in *.
    destruct (decide (l = next w)) as [->|Hnl].
    { eexists this, _. by rewrite lookup_insert_eq. }
    rewrite lookup_insert_ne in Hlive by done.
    destruct (Hw l Hlive) as (x & u & Hx & Hl).
    exists x, u. rewrite lookup_insert_ne; [done | congruence].
Qed.

Lemma no_leak_destroy this w w' :
  world_ok w → destroy this w = Ok tt w' → no_leak w → no_leak w'.
Proof.
  intros Hok. unfold destroy. intros (v & Hv & Hrun)%obj_needed Hw.
  apply bind_Ok_inv in Hrun as ([] & w1 & Hdel & [= <-]).
  apply ArrayPtr_delete_inv in Hdel as (Ho & Hn & Hh).
  intros l Hlive. cbn [objs heap] in *. rewrite Hh in Hlive. rewrite Ho.
  assert (is_Some (heap w !! l) ∧ data_ v ≠ Some l) as [Hlive' Hnv].
  { unfold delete_opt in Hlive. destruct (data_ v) as [l0|]; [|done].
    destruct (decide (l0 = l)) as [->|].
    - rewrite lookup_delete_eq in Hlive. by destruct Hlive.
    - rewrite lookup_delete_ne in Hlive by done. split; [done | congruence]. }
  destruct (Hw l Hlive') as (x & u & Hx & Hl).
  exists x, u. rewrite lookup_delete_ne; [done|]. intros <-. congruence.
Qed.

Lemma no_leak_swap this other w w' :
  swap this other w = Ok tt w' → no_leak w → no_leak w'.
Proof.
  intros Hrun Hw. pose proof Hrun as Hrun'. unfold swap in Hrun'.
  apply obj_needed in Hrun' as (a & Ha & Hrun').
  apply obj_needed in Hrun' as (b & Hb & _).
  destruct (decide (this = other)) as [->|Hne].
  - rewrite (swap_self _ a) in Hrun by done. by injection Hrun as <-.
  - rewrite (swap_distinct _ _ a b) in Hrun by done. injection Hrun as <-.
    apply no_leak_objs; [|done]. intros x v Hx l Hl.
    destruct (decide (x = this)) as [->|];
      [|destruct (decide (x = other)) as [->|]].
    + exists other, v. rewrite lookup_insert_eq. split; congruence.
    + exists this, v. rewrite lookup_insert_ne, lookup_insert_eq by done.
      split; congruence.
    + exists x, v. by rewrite !lookup_insert_ne.
Qed.

Lemma no_leak_assign_move this rhs w w' :
  assign_move this rhs w = Ok tt w' → no_leak w → no_leak w'.
Proof.
  intros Hrun Hw. pose proof Hrun as Hrun'. unfold assign_move in Hrun'.
  apply obj_needed in Hrun' as (a & Ha & Hrun').
  apply obj_needed in Hrun' as (b & Hb & _).
  destruct (decide (this = rhs)) as [->|Hne].
  - rewrite (assign_move_self _ a) in Hrun by done. by injection Hrun as <-.
  - rewrite (assign_move_distinct _ _ a b) in Hrun by done. injection Hrun as <-.
    apply no_leak_objs; [|done]. intros x v Hx l Hl.
    destruct (decide (x = this)) as [->|];
      [|destruct (decide (x = rhs)) as [->|]].
    + eexists rhs, _. rewrite lookup_insert_eq. split; [done|].
      simpl. congruence.
    + exists this, v. rewrite lookup_insert_ne, lookup_insert_eq by done.
      split; congruence.
    + exists x, v. by rewrite !lookup_insert_ne.
Qed.

Lemma no_leak_move this other w w' :
  SimpleVector_move this other w = Ok tt w' → no_leak w → no_leak w'.
Proof.
  intros Hrun Hw. pose proof Hrun as Hrun'. unfold SimpleVector_move in Hrun'.
  apply bind_Ok_inv in Hrun' as ([] & w1 & [-> Hthis]%declare_inv & Hrun').
  apply obj_needed in Hrun' as (o & Ho & _).
  rewrite (SimpleVector_move_Some _ _ o) in Hrun by done. injection Hrun as <-.
  apply no_leak_objs; [|done]. intros x v Hx l Hl.
  destruct (decide (x = other)) as [->|].
  - exists this, v. rewrite lookup_insert_eq. split; congruence.
  - exists x, v. rewrite !lookup_insert_ne; [done.. | congruence].
Qed.

Lemma no_leak_copy this other w w' :
  SimpleVector_copy this other w = Ok tt w' → no_leak w → no_leak w'.
Proof.
  unfold SimpleVector_copy.
  intros ([] & w1 & [-> Hthis]%declare_inv & Hrun)%bind_Ok_inv.
  apply obj_needed in Hrun as (o & Ho & Hrun).
  apply bind_Ok_inv in Hrun as (d & w2 & Hnew & Hrun).
  apply bind_Ok_inv in Hrun as ([] & w3 & [= <-] & Hrun).
  eapply (no_leak_construct this _ _ d w w2); [done.. | | exact Hrun].
  destruct (0 <? _)%N; [by apply writes_std_copy | apply writes_ret].
Qed.

(** A statement that returns leaves no array without an owner. *)
Lemma run_op_no_leak (o : op T) w r w' :
  world_ok w → run_op simple_vector_h o w = Ok r w' →
  no_leak w → no_leak w'.
Proof.
  intros Hok Hrun Hw.
  destruct o; simpl in Hrun;
    apply bind_Ok_inv in Hrun as (r1 & w1 & Hc1 & Hrun);
    try lazymatch type of r1 with unit => destruct r1 end.
  - apply mret_inv in Hrun as ->. unfold SimpleVector_default in Hc1.
    apply bind_Ok_inv in Hc1 as ([] & w2 & [-> Hthis]%declare_inv & [= <-]).
    apply no_leak_objs; [|done]. intros y u Hy l Hl.
    exists y, u. rewrite lookup_insert_ne; [done | congruence].
  - apply mret_inv in Hrun as ->. unfold SimpleVector_reserve in Hc1.
    apply bind_Ok_inv in Hc1 as ([] & w2 & [-> Hthis]%declare_inv & Hc1).
    apply bind_Ok_inv in Hc1 as (d & w3 & Hnew & Hc1).
    eapply (no_leak_construct x 0 n d w w3 (mret tt));
      [done | done | apply writes_ret | exact Hc1 | done].
  - apply mret_inv in Hrun as ->. unfold SimpleVector_size in Hc1.
    apply bind_Ok_inv in Hc1 as ([] & w2 & [-> Hthis]%declare_inv & Hc1).
    apply bind_Ok_inv in Hc1 as (d & w3 & Hnew & Hc1).
    apply bind_Ok_inv in Hc1 as ([] & w4 & [= <-] & Hc1).
    eapply (no_leak_construct x n n d w w3); [done.. | | exact Hc1 | done].
    destruct (0 <? n)%N; [by apply writes_std_fill | apply writes_ret].
  - apply mret_inv in Hrun as ->. unfold SimpleVector_fill in Hc1.
    apply bind_Ok_inv in Hc1 as ([] & w2 & [-> Hthis]%declare_inv & Hc1).
    apply bind_Ok_inv in Hc1 as (d & w3 & Hnew & Hc1).
    apply bind_Ok_inv in Hc1 as ([] & w4 & [= <-] & Hc1).
    eapply (no_leak_construct x n n d w w3); [done.. | | exact Hc1 | done].
    destruct (0 <? n)%N; [by apply writes_std_fill | apply writes_ret].
  - apply mret_inv in Hrun as ->. unfold SimpleVector_init in Hc1.
    apply bind_Ok_inv in Hc1 as ([] & w2 & [-> Hthis]%declare_inv & Hc1).
    apply bind_Ok_inv in Hc1 as (d & w3 & Hnew & Hc1).
    apply bind_Ok_inv in Hc1 as ([] & w4 & [= <-] & Hc1).
    eapply (no_leak_construct x _ _ d w w3); [done.. | | exact Hc1 | done].
    destruct (0 <? _)%N; [by apply writes_copy_list | apply writes_ret].
  - apply mret_inv in Hrun as ->. by eapply no_leak_copy.
  - apply mret_inv in Hrun as ->. by eapply no_leak_move.
  - apply mret_inv in Hrun as ->. by eapply no_leak_destroy.
  - apply mret_inv in Hrun as ->. unfold assign_copy in Hc1.
    apply obj_needed in Hc1 as (a & Ha & Hc1).
    apply obj_needed in Hc1 as (b & Hb & Hc1).
    case_decide; [|by injection Hc1 as <-].
    unfold with_local in Hc1.
    apply bind_Ok_inv in Hc1 as ([] & w2 & Hcopy & Hc1).
    apply bind_Ok_inv in Hc1 as ([] & w3 & Hswap & Hc1).
    pose proof (SimpleVector_copy_ok _ _ _ _ Hok Hcopy) as Hok2.
    pose proof (swap_ok _ _ _ _ Hok2 Hswap) as Hok3.
    eapply no_leak_destroy; [exact Hok3 | exact Hc1 |].
    eapply no_leak_swap; [exact Hswap|]. by eapply no_leak_copy.
  - apply mret_inv in Hrun as ->. by eapply no_leak_assign_move.
  - apply mret_inv in Hrun as ->.
    pose proof Hc1 as (v & Hv & _)%obj_needed.
    destruct (Reserve_evolves _ _ _ _ _ Hok Hv Hc1) as (v' & Hev).
    by eapply no_leak_evolves.
  - apply mret_inv in Hrun as ->.
    apply (reads_Ok (GetSize x)) in Hc1 as ->; [done|].
    unfold GetSize. apply reads_bind; [apply reads_obj | intros; apply reads_ret].
  - apply mret_inv in Hrun as ->.
    apply (reads_Ok (GetCapacity x)) in Hc1 as ->; [done|].
    unfold GetCapacity.
    apply reads_bind; [apply reads_obj | intros; apply reads_ret].
  - apply mret_inv in Hrun as ->.
    apply (reads_Ok (IsEmpty x)) in Hc1 as ->; [done|].
    unfold IsEmpty. apply reads_bind; [apply reads_obj | intros; apply reads_ret].
  - apply (reads_Ok (index x i)) in Hc1 as ->; [|apply reads_index].
    by apply bind_Ok_inv in Hrun as (? & w2 & [-> _]%load_inv & ->%mret_inv).
  - apply (reads_Ok (index x i)) in Hc1 as ->; [|apply reads_index].
    apply bind_Ok_inv in Hrun as ([] & w2 & Hst & ->%mret_inv).
    apply store_stores_in in Hst. by eapply no_leak_stores_in.
  - apply (reads_Ok (At x i)) in Hc1 as ->; [|apply reads_At].
    by apply bind_Ok_inv in Hrun as (? & w2 & [-> _]%load_inv & ->%mret_inv).
  - apply (reads_Ok (At x i)) in Hc1 as ->; [|apply reads_At].
    apply bind_Ok_inv in Hrun as ([] & w2 & Hst & ->%mret_inv).
    apply store_stores_in in Hst. by eapply no_leak_stores_in.
  - apply mret_inv in Hrun as ->.
    pose proof Hc1 as (v & Hv & _)%obj_needed.
    destruct (Clear_evolves _ _ _ _ Hok Hv Hc1) as (v' & Hev).
    by eapply no_leak_evolves.
  - apply mret_inv in Hrun as ->.
    pose proof Hc1 as (v & Hv & _)%obj_needed.
    destruct (Resize_evolves _ _ _ _ _ Hok Hv Hc1) as (v' & Hev).
    by eapply no_leak_evolves.
  - apply (reads_Ok (bind_arg _ a)) in Hc1 as ->; [|apply reads_bind_arg].
    apply bind_Ok_inv in Hrun as ([] & w2 & Hp & ->%mret_inv).
    pose proof Hp as (v & Hv & _)%obj_needed.
    destruct (PushBack_body_evolves _ _ _ _ _ _ Hok Hv Hp) as (v' & Hev).
    by eapply no_leak_evolves.
  - apply (reads_Ok (bind_arg _ a)) in Hc1 as ->; [|apply reads_bind_arg].
    apply bind_Ok_inv in Hrun as ([] & w2 & Hp & ->%mret_inv).
    pose proof Hp as (v & Hv & _)%obj_needed.
    destruct (PushBack_body_evolves _ _ _ _ _ _ Hok Hv Hp) as (v' & Hev).
    by eapply no_leak_evolves.
  - apply (reads_Ok (begin x)) in Hc1 as ->; [|apply reads_begin].
    apply bind_Ok_inv in Hrun as (r2 & w2 & Hc2 & Hrun).
    apply (reads_Ok (bind_arg _ a)) in Hc2 as ->; [|apply reads_bind_arg].
    apply bind_Ok_inv in Hrun as (? & w3 & Hp & ->%mret_inv).
    pose proof Hp as (v & Hv & _)%obj_needed.
    destruct (InsertImpl_evolves _ _ _ _ _ _ _ _ Hok Hv Hp) as (v' & Hev).
    by eapply no_leak_evolves.
  - apply (reads_Ok (begin x)) in Hc1 as ->; [|apply reads_begin].
    apply bind_Ok_inv in Hrun as (r2 & w2 & Hc2 & Hrun).
    apply (reads_Ok (bind_arg _ a)) in Hc2 as ->; [|apply reads_bind_arg].
    apply bind_Ok_inv in Hrun as (? & w3 & Hp & ->%mret_inv).
    pose proof Hp as (v & Hv & _)%obj_needed.
    destruct (InsertImpl_evolves _ _ _ _ _ _ _ _ Hok Hv Hp) as (v' & Hev).
    by eapply no_leak_evolves.
  - apply mret_inv in Hrun as ->.
    pose proof Hc1 as (v & Hv & _)%obj_needed.
    destruct (PopBack_evolves _ _ _ _ Hok Hv Hc1) as (v' & Hev).
    by eapply no_leak_evolves.
  - apply (reads_Ok (begin x)) in Hc1 as ->; [|apply reads_begin].
    apply bind_Ok_inv in Hrun as (? & w3 & Hp & ->%mret_inv).
    pose proof Hp as (v & Hv & _)%obj_needed.
    destruct (Erase_evolves _ _ _ _ _ _ Hok Hv Hp) as (v' & Hev).
    by eapply no_leak_evolves.
  - apply mret_inv in Hrun as ->. by eapply no_leak_swap.
  - apply mret_inv in Hrun as ->.
    by apply (reads_Ok (begin x)) in Hc1 as ->; [|apply reads_begin].
  - apply mret_inv in Hrun as ->.
    apply (reads_Ok (end_ x)) in Hc1 as ->; [done|].
    unfold end_. apply reads_bind; [apply reads_obj | intros; apply reads_ret].
Qed.

Lemma run_no_leak (p : list (op T)) : ∀ w tr w',
  world_ok w → no_leak w →
  run simple_vector_h p w = Some (tr, w') → no_leak w'.
Proof.
  induction p as [|o p IH]; intros w tr w' Hok Hw Hrun; simpl in Hrun.
  - by injection Hrun as _ <-.
  - destruct (run_op simple_vector_h o w) as [r w1|e w1|] eqn:Hop; [| |done].
    + destruct (run simple_vector_h p w1) as [[tr1 w2]|] eqn:Hp; [|done].
      injection Hrun as _ <-.
      eapply IH; [by eapply run_op_ok | by eapply run_op_no_leak | exact Hp].
    + destruct (run simple_vector_h p w1) as [[tr1 w2]|] eqn:Hp; [|done].
      injection Hrun as _ <-. apply run_op_strong in Hop as ->.
      by eapply IH.
Qed.

(** X13.  In every world a program over simple_vector.h reaches from
    the empty world, whatever was thrown on the way, the buffer of every
    vector is null exactly when its capacity is 0 and otherwise a live
    array of exactly [capacity_] slots, no two vectors share a buffer, and
    every array of the free store is the buffer of some vector: nothing
    dangles, nothing is shared, nothing leaks. *)
Theorem buffers_are_owned_once (p : list (op T)) tr w :
  run simple_vector_h p empty_world = Some (tr, w) →
  (∀ x v, objs w !! x = Some v →
     match data_ v with
     | None => capacity_ v = 0%N
     | Some l => capacity_ v ≠ 0%N ∧
         ∃ b, heap w !! l = Some b ∧ length b = N.to_nat (capacity_ v)
     end) ∧
  (∀ x y vx vy l, objs w !! x = Some vx → objs w !! y = Some vy →
     data_ vx = Some l → data_ vy = Some l → x = y) ∧
  no_leak w.
Proof.
  intros Hrun.
  assert (world_ok w) as Hok by (eapply run_ok; [apply empty_world_ok | done]).
  split_and!.
  - intros x v Hx. destruct (world_ok_obj _ _ _ Hok Hx) as (_ & _ & Hd).
    destruct (data_ v); [|done]. by destruct Hd as (? & _ & ?).
  - intros x y vx vy l. by apply world_ok_disjoint.
  - eapply run_no_leak; [apply empty_world_ok | | exact Hrun].
    intros l [b Hb]. unfold empty_world in Hb. cbn [heap] in Hb.
    by rewrite lookup_empty in Hb.
Qed.

End ownership.

(** ** The comparison operators *)

Section comparison.
Context {T : Type} `{!Elem T} `{!Platform} `{!Comparison T}.
Implicit Types (w : world T) (v u : SimpleVector) (l k : list T).

Import SimpleVectorH.

Lemma equal_lists_Forall2 l k :
  equal_lists l k = true ↔ Forall2 (λ x y, elem_eq x y = true) l k.
Proof.
  revert k. induction l as [|x l IH]; intros [|y k]; cbn [equal_lists].
  - split; [constructor | done].
  - split; [done | inversion 1].
  - split; [done | inversion 1].
  - rewrite andb_true_iff, IH. split.
    + intros [??]. by constructor.
    + by inversion 1.
Qed.

Lemma equal_lists_eq l k :
  total_order → equal_lists l k = true ↔ l = k.
Proof.
  intros (Heq & _). rewrite equal_lists_Forall2. split.
  - induction 1 as [|x y l k Hxy _ IH]; [done|]. f_equal; [by apply Heq | done].
  - intros <-. induction l; constructor; [by apply Heq | done].
Qed.

Lemma total_order_dec (x y : T) : total_order → x = y ∨ x ≠ y.
Proof.
  intros (Heq & _). destruct (elem_eq x y) eqn:E.
  - left. by apply Heq.
  - right. intros Hxy%Heq. congruence.
Qed.

Lemma less_lists_cases l k :
  total_order →
  (less_lists l k = true ∧ l ≠ k ∧ less_lists k l = false) ∨
  (less_lists l k = false ∧ l = k ∧ less_lists k l = false) ∨
  (less_lists l k = false ∧ l ≠ k ∧ less_lists k l = true).
Proof.
  intros Hto. pose proof Hto as (Heq & Hirr & Hasym & Htot). revert k.
  induction l as [|x l IH]; intros [|y k]; cbn [less_lists].
  - right; left. done.
  - left. done.
  - right; right. done.
  - destruct (total_order_dec x y Hto) as [->|Hne].
    + rewrite Hirr. cbn [orb negb andb].
      destruct (IH k) as [(-> & Hn & ->)|[(-> & -> & ->)|(-> & Hn & ->)]].
      * left. split_and!; [done | congruence | done].
      * right; left. done.
      * right; right. split_and!; [done | congruence | done].
    + destruct (Htot x y Hne) as [Hlt|Hlt].
      * rewrite Hlt, (Hasym _ _ Hlt). cbn [orb negb andb].
        left. split_and!; [done | congruence | done].
      * rewrite Hlt, (Hasym _ _ Hlt). cbn [orb negb andb].
        right; right. split_and!; [done | congruence | done].
Qed.

Lemma less_lists_spec l k :
  total_order →
  less_lists l k = true ↔
  (∃ y k', k = l ++ y :: k') ∨
  (∃ p x y l' k', l = p ++ x :: l' ∧ k = p ++ y :: k' ∧ elem_lt x y = true).
Proof.
  intros Hto. pose proof Hto as (Heq & Hirr & Hasym & Htot). revert k.
  induction l as [|x l IH]; intros [|y k]; cbn [less_lists].
  - split; [done|]. intros [(y & k' & Hk)|(p & x & y & l' & k' & Hl & _)].
    + done.
    + by destruct p.
  - split; [|done]. intros _. left. by exists y, k.
  - split; [done|]. intros [(y & k' & Hk)|(p & x' & y & l' & k' & _ & Hk & _)].
    + done.
    + by destruct p.
  - destruct (total_order_dec x y Hto) as [->|Hne].
    + rewrite Hirr. cbn [orb negb andb]. rewrite IH. split.
      * intros [(z & k' & ->)|(p & a & b & l' & k' & -> & -> & Hlt)].
        -- left. by exists z, k'.
        -- right. by exists (y :: p), a, b, l', k'.
      * intros [(z & k' & Hk)|(p & a & b & l' & k' & Hl & Hk & Hlt)].
        -- left. exists z, k'. by simplify_eq/=.
        -- destruct p as [|c p]; simplify_eq/=.
           ++ by rewrite Hirr in Hlt.
           ++ right. by exists p, a, b, l', k'.
    + split.
      * intros Hlt. right. exists [], x, y, l, k. split_and!; [done..|].
        destruct (elem_lt x y) eqn:Hxy; [done|]. cbn [orb] in Hlt.
        destruct (Htot x y Hne) as [?|Hyx]; [congruence|].
        by rewrite Hyx in Hlt.
      * intros [(z & k' & Hk)|(p & a & b & l' & k' & Hl & Hk & Hlt)].
        -- by simplify_eq/=.
        -- destruct p as [|c p]; simplify_eq/=. by rewrite Hlt.
Qed.

(** The two loops over ranges that hold the sequences [l] and [k]. *)
Lemma equal_n_run l k d1 o1 d2 o2 w :
  length k = length l →
  (∀ i x, l !! i = Some x → cell w (Ptr d1 (o1 + i)) = Some x) →
  (∀ i y, k !! i = Some y → cell w (Ptr d2 (o2 + i)) = Some y) →
  Operators.equal_n (length l) (Ptr d1 o1) (Ptr d2 o2) w
  = Ok (equal_lists l k) w.
Proof.
  revert k o1 o2. induction l as [|x l IH]; intros [|y k] o1 o2 Hlen Hl Hk;
    try done.
  cbn [length Operators.equal_n equal_lists].
  rewrite bind_eq, (load_Some _ x).
  2:{ rewrite <- (Nat.add_0_r o1). by apply Hl. }
  rewrite bind_eq, (load_Some _ y).
  2:{ rewrite <- (Nat.add_0_r o2). by apply Hk. }
  destruct (elem_eq x y); [|done]. cbn [andb].
  unfold ptr_add. cbn [blk off]. apply IH.
  - by injection Hlen.
  - intros i z Hz. replace (o1 + 1 + i) with (o1 + S i) by lia. by apply Hl.
  - intros i z Hz. replace (o2 + 1 + i) with (o2 + S i) by lia. by apply Hk.
Qed.

Lemma lexicographical_compare_n_run l k d1 o1 d2 o2 w :
  (∀ i x, l !! i = Some x → cell w (Ptr d1 (o1 + i)) = Some x) →
  (∀ i y, k !! i = Some y → cell w (Ptr d2 (o2 + i)) = Some y) →
  Operators.lexicographical_compare_n (length l) (length k)
    (Ptr d1 o1) (Ptr d2 o2) w
  = Ok (less_lists l k) w.
Proof.
  revert k o1 o2. induction l as [|x l IH]; intros [|y k] o1 o2 Hl Hk;
    try done.
  cbn [length Operators.lexicographical_compare_n less_lists].
  assert (cell w (Ptr d1 o1) = Some x) as Hx.
  { rewrite <- (Nat.add_0_r o1). by apply Hl. }
  assert (cell w (Ptr d2 o2) = Some y) as Hy.
  { rewrite <- (Nat.add_0_r o2). by apply Hk. }
  rewrite bind_eq, (load_Some _ x) by done.
  rewrite bind_eq, (load_Some _ y) by done.
  destruct (elem_lt x y); [done|]. cbn [orb].
  rewrite bind_eq, (load_Some _ y) by done.
  rewrite bind_eq, (load_Some _ x) by done.
  destruct (elem_lt y x); [done|]. cbn [negb andb].
  unfold ptr_add. cbn [blk off]. apply IH.
  - intros i z Hz. replace (o1 + 1 + i) with (o1 + S i) by lia. by apply Hl.
  - intros i z Hz. replace (o2 + 1 + i) with (o2 + S i) by lia. by apply Hk.
Qed.

(** The two operators all six are written with, on well-formed vectors. *)
Lemma eq_run a b w va vb :
  world_ok w → objs w !! a = Some va → objs w !! b = Some vb →
  Operators.eq a b w = Ok (equal_lists (contents w va) (contents w vb)) w.
Proof.
  intros Hok Ha Hb. unfold Operators.eq, GetSize.
  rewrite !bind_eq, (obj_Some _ _ _ Ha). unfold mret at 1, M_ret at 1.
  rewrite !bind_eq, (obj_Some _ _ _ Hb). unfold mret at 1, M_ret at 1.
  pose proof (length_contents w a va Hok Ha) as Hla.
  pose proof (length_contents w b vb Hok Hb) as Hlb.
  destruct (N.eqb_spec (size_ va) (size_ vb)) as [Heq|Hne].
  - unfold begin, end_. rewrite !bind_eq, (obj_Some _ _ _ Ha).
    unfold mret at 1, M_ret at 1.
    rewrite !bind_eq, (obj_Some _ _ _ Ha). unfold mret at 1, M_ret at 1.
    rewrite !bind_eq, (obj_Some _ _ _ Hb). unfold mret at 1, M_ret at 1.
    unfold Operators.std_equal, end_of, begin_of, ArrayPtr_Get, ptr_add.
    cbn [blk off]. rewrite bind_eq, ptr_diff_same by lia.
    rewrite Nat.add_0_l, Nat.sub_0_r, <- Hla.
    apply equal_n_run.
    + lia.
    + intros i x. apply cell_contents.
    + intros i x. apply cell_contents.
  - replace (equal_lists (contents w va) (contents w vb)) with false; [done|].
    symmetry. apply not_true_is_false. intros HF%equal_lists_Forall2.
    apply Forall2_length in HF. lia.
Qed.

Lemma lt_run a b w va vb :
  world_ok w → objs w !! a = Some va → objs w !! b = Some vb →
  Operators.lt a b w = Ok (less_lists (contents w va) (contents w vb)) w.
Proof.
  intros Hok Ha Hb. unfold Operators.lt, begin, end_.
  rewrite !bind_eq, (obj_Some _ _ _ Ha). unfold mret at 1, M_ret at 1.
  rewrite !bind_eq, (obj_Some _ _ _ Ha). unfold mret at 1, M_ret at 1.
  rewrite !bind_eq, (obj_Some _ _ _ Hb). unfold mret at 1, M_ret at 1.
  rewrite !bind_eq, (obj_Some _ _ _ Hb). unfold mret at 1, M_ret at 1.
  pose proof (length_contents w a va Hok Ha) as Hla.
  pose proof (length_contents w b vb Hok Hb) as Hlb.
  unfold Operators.std_lexicographical_compare, end_of, begin_of,
    ArrayPtr_Get, ptr_add.
  cbn [blk off]. rewrite bind_eq, ptr_diff_same by lia.
  rewrite bind_eq, ptr_diff_same by lia.
  rewrite !Nat.add_0_l, !Nat.sub_0_r, <- Hla, <- Hlb.
  apply lexicographical_compare_n_run.
  - intros i x. apply cell_contents.
  - intros i x. apply cell_contents.
Qed.

(** X14.  On well-formed vectors [lhs == rhs] returns, changes nothing and
    is true exactly when the two sequences of elements have the same length
    and their elements are pairwise equal by the element type's [==]; the
    capacities play no part.  [lhs != rhs] returns the opposite. *)
Theorem equality_compares_elements a b w va vb :
  world_ok w → objs w !! a = Some va → objs w !! b = Some vb →
  ∃ r, Operators.eq a b w = Ok r w ∧
       Operators.ne a b w = Ok (negb r) w ∧
       (r = true ↔
        Forall2 (λ x y, elem_eq x y = true) (contents w va) (contents w vb)).
Proof.
  intros Hok Ha Hb. exists (equal_lists (contents w va) (contents w vb)).
  split_and!.
  - by apply eq_run.
  - unfold Operators.ne. by rewrite bind_eq, (eq_run a b w va vb).
  - apply equal_lists_Forall2.
Qed.

(** X15.  When the element type is totally ordered, [lhs < rhs] on
    well-formed vectors is the lexicographic order of the two sequences of
    elements: it is true exactly when the elements of [lhs] are a proper
    prefix of those of [rhs], or the two sequences have a common prefix
    after which the element of [lhs] is less than that of [rhs]. *)
Theorem less_is_lexicographic a b w va vb :
  total_order →
  world_ok w → objs w !! a = Some va → objs w !! b = Some vb →
  ∃ r, Operators.lt a b w = Ok r w ∧
       (r = true ↔
        (∃ y k', contents w vb = contents w va ++ y :: k') ∨
        (∃ p x y l' k', contents w va = p ++ x :: l' ∧
                        contents w vb = p ++ y :: k' ∧
                        elem_lt x y = true)).
Proof.
  intros Hto Hok Ha Hb. exists (less_lists (contents w va) (contents w vb)).
  split; [by apply lt_run | by apply less_lists_spec].
Qed.

(** X16.  When the element type is totally ordered, exactly one of
    [lhs < rhs], [lhs == rhs], [lhs > rhs] is true of two well-formed
    vectors, [==] is true exactly for equal sequences of elements, [<=] is
    [<] or [==], and [>=] is [>] or [==]; none of them changes anything. *)
Theorem comparisons_are_consistent a b w va vb :
  total_order →
  world_ok w → objs w !! a = Some va → objs w !! b = Some vb →
  ∃ less equal greater,
    Operators.lt a b w = Ok less w ∧
    Operators.eq a b w = Ok equal w ∧
    Operators.gt a b w = Ok greater w ∧
    Operators.le a b w = Ok (less || equal) w ∧
    Operators.ge a b w = Ok (greater || equal) w ∧
    (equal = true ↔ contents w va = contents w vb) ∧
    ((less = true ∧ equal = false ∧ greater = false) ∨
     (less = false ∧ equal = true ∧ greater = false) ∨
     (less = false ∧ equal = false ∧ greater = true)).
Proof.
  intros Hto Hok Ha Hb.
  exists (less_lists (contents w va) (contents w vb)),
         (equal_lists (contents w va) (contents w vb)),
         (less_lists (contents w vb) (contents w va)).
  pose proof (equal_lists_eq (contents w va) (contents w vb) Hto) as Heq.
  assert (contents w va ≠ contents w vb →
          equal_lists (contents w va) (contents w vb) = false) as Hne.
  { intros Hn. apply not_true_is_false. by rewrite Heq. }
  split_and!.
  - by apply lt_run.
  - by apply eq_run.
  - by apply lt_run.
  - unfold Operators.le. rewrite bind_eq, (lt_run b a w vb va) by done.
    unfold mret, M_ret. do 2 f_equal.
    destruct (less_lists_cases (contents w va) (contents w vb) Hto)
      as [(-> & Hn & ->)|[(-> & He & ->)|(-> & Hn & ->)]].
    + by rewrite Hne.
    + by rewrite (proj2 Heq He).
    + by rewrite Hne.
  - unfold Operators.ge. rewrite bind_eq, (lt_run a b w va vb) by done.
    unfold mret, M_ret. do 2 f_equal.
    destruct (less_lists_cases (contents w va) (contents w vb) Hto)
      as [(-> & Hn & ->)|[(-> & He & ->)|(-> & Hn & ->)]].
    + by rewrite Hne.
    + by rewrite (proj2 Heq He).
    + by rewrite Hne.
  - done.
  - destruct (less_lists_cases (contents w va) (contents w vb) Hto)
      as [(-> & Hn & ->)|[(-> & He & ->)|(-> & Hn & ->)]].
    + left. by rewrite Hne.
    + right; left. by rewrite (proj2 Heq He).
    + right; right. by rewrite Hne.
Qed.

End comparison.

(** ** Iterators after a mutation, and the destructor *)

Section buffers.
Context {T : Type} `{!Elem T} `{!Platform}.
Implicit Types (w : world T) (v u : SimpleVector).

Import SimpleVectorH.

(** A mutating member function that returns is a step in the life of the
    vector it is called on. *)
Lemma run_op_evolves o x w v r w' :
  world_ok w → mutated o = Some x → objs w !! x = Some v →
  run_op simple_vector_h o w = Ok r w' →
  ∃ P v', evolves P x v v' w w'.
Proof.
  intros Hok Hm Hv Hrun.
  destruct o; try discriminate Hm; injection Hm as ->; simpl in Hrun;
    apply bind_Ok_inv in Hrun as (r1 & w1 & Hc1 & Hrun);
    try lazymatch type of r1 with unit => destruct r1 end.
  - apply mret_inv in Hrun as ->.
    destruct (Reserve_evolves _ _ _ _ _ Hok Hv Hc1) as (v' & Hev). eauto.
  - apply mret_inv in Hrun as ->.
    destruct (Clear_evolves _ _ _ _ Hok Hv Hc1) as (v' & Hev). eauto.
  - apply mret_inv in Hrun as ->.
    destruct (Resize_evolves _ _ _ _ _ Hok Hv Hc1) as (v' & Hev). eauto.
  - pose proof Hc1 as [-> _]%bind_arg_inv.
    apply bind_Ok_inv in Hrun as ([] & w2 & Hp & ->%mret_inv).
    destruct (PushBack_body_evolves _ _ _ _ _ _ Hok Hv Hp) as (v' & Hev). eauto.
  - pose proof Hc1 as [-> _]%bind_arg_inv.
    apply bind_Ok_inv in Hrun as ([] & w2 & Hp & ->%mret_inv).
    destruct (PushBack_body_evolves _ _ _ _ _ _ Hok Hv Hp) as (v' & Hev). eauto.
  - apply (reads_Ok (begin x)) in Hc1 as ->; [|apply reads_begin].
    apply bind_Ok_inv in Hrun as (r2 & w2 & Hc2 & Hrun).
    pose proof Hc2 as [-> _]%bind_arg_inv.
    apply bind_Ok_inv in Hrun as (? & w3 & Hp & ->%mret_inv).
    destruct (InsertImpl_evolves _ _ _ _ _ _ _ _ Hok Hv Hp) as (v' & Hev). eauto.
  - apply (reads_Ok (begin x)) in Hc1 as ->; [|apply reads_begin].
    apply bind_Ok_inv in Hrun as (r2 & w2 & Hc2 & Hrun).
    pose proof Hc2 as [-> _]%bind_arg_inv.
    apply bind_Ok_inv in Hrun as (? & w3 & Hp & ->%mret_inv).
    destruct (InsertImpl_evolves _ _ _ _ _ _ _ _ Hok Hv Hp) as (v' & Hev). eauto.
  - apply mret_inv in Hrun as ->.
    destruct (PopBack_evolves _ _ _ _ Hok Hv Hc1) as (v' & Hev). eauto.
  - apply (reads_Ok (begin x)) in Hc1 as ->; [|apply reads_begin].
    apply bind_Ok_inv in Hrun as (? & w3 & Hp & ->%mret_inv).
    destruct (Erase_evolves _ _ _ _ _ _ Hok Hv Hp) as (v' & Hev). eauto.
Qed.

(** X17.  After [Reserve], [Clear], [Resize], [PushBack], [Insert],
    [PopBack] or [Erase] has returned, the vector either has the array and
    the capacity it had, so that [begin()] is what it was, or it has the
    array the allocator handed out for this call and its old array has
    been released: reading through any pointer into the old array is then
    undefined. *)
Theorem mutation_keeps_or_replaces_array o x w v r w' :
  world_ok w → mutated o = Some x → objs w !! x = Some v →
  run_op simple_vector_h o w = Ok r w' →
  ∃ v', objs w' !! x = Some v' ∧
    (data_ v' = data_ v ∧ capacity_ v' = capacity_ v ∧
     begin x w' = Ok (begin_of v) w'
     ∨
     data_ v' = Some (next w) ∧ heap w !! next w = None ∧
     ∀ l i, data_ v = Some l → load (Ptr (Some l) i) w' = Undefined).
Proof.
  intros Hok Hm Hv Hrun.
  destruct (run_op_evolves _ _ _ _ _ _ Hok Hm Hv Hrun)
    as (P & v' & Ho & Hvok & Hcase & _).
  assert (objs w' !! x = Some v') as Hv' by (rewrite Ho; apply lookup_insert_eq).
  exists v'. split; [done|].
  destruct Hcase as [(Hd & Hc & _)|(Hd & Hl & _)].
  - left. split_and!; [done..|].
    unfold begin. rewrite bind_eq, (obj_Some _ _ _ Hv').
    unfold mret, M_ret, begin_of. by rewrite Hd.
  - right. split_and!; [done | |].
    + destruct Hok as (_ & _ & Hfree). apply lens_lookup_None, Hfree. lia.
    + intros l i Hl'. apply load_None. unfold cell. cbn [blk off mbind option_bind].
      destruct (world_ok_obj _ _ _ Hok Hv) as (_ & _ & Hdv).
      rewrite Hl' in Hdv. destruct Hdv as (_ & Hlt & _).
      assert (heap w' !! l = None) as ->; [|done].
      apply lens_lookup_None. rewrite Hl, Hl'. cbn [delete_opt].
      apply lookup_delete_eq.
Qed.

(** X18.  The destructor of a well-formed vector returns; it removes the
    object, releases the array the vector owns and nothing else: every
    other vector and its array are as they were, the world stays well
    formed, and a world without leaked arrays stays without.  Destroying a
    name that holds no vector is undefined. *)
Theorem destructor_releases_array this w :
  world_ok w →
  match objs w !! this with
  | Some v =>
      ∃ w', destroy this w = Ok tt w' ∧
        objs w' = delete this (objs w) ∧
        heap w' = delete_opt (data_ v) (heap w) ∧
        (∀ l, data_ v = Some l → is_Some (heap w !! l) ∧ heap w' !! l = None) ∧
        (∀ y u, y ≠ this → objs w !! y = Some u → untouched y u w w') ∧
        world_ok w' ∧
        (no_leak w → no_leak w')
  | None => destroy this w = Undefined
  end.
Proof.
  intros Hok. destruct (objs w !! this) as [v|] eqn:Hv.
  - assert (∀ l, data_ v = Some l → is_Some (heap w !! l)) as Hlive.
    { intros l Hl. destruct (world_ok_obj _ _ _ Hok Hv) as (_ & _ & Hd).
      rewrite Hl in Hd. destruct Hd as (_ & _ & b & -> & _). eauto. }
    pose proof (destroy_Some this v w Hv Hlive) as Hrun.
    eexists. split; [exact Hrun|]. cbn [objs heap]. split_and!.
    + done.
    + done.
    + intros l Hl. split; [by apply Hlive|]. rewrite Hl. cbn [delete_opt].
      apply lookup_delete_eq.
    + intros y u Hne Hy. by eapply destroy_untouched.
    + by eapply destroy_ok.
    + by eapply no_leak_destroy.
  - unfold destroy. rewrite bind_eq. unfold obj. by rewrite Hv.
Qed.

End buffers.

(** ** Arguments that are elements of the vector itself *)

Section own_elements.
Context {T : Type} `{!Elem T} `{!Platform}.
Implicit Types (w : world T) (v u : SimpleVector).

Import SimpleVectorH.

(** X19.  [v.PushBack(v[i])] in simple_vector.h, for an index within the
    size: the call returns and the size grows by one.  With room left the
    new last element is a copy of element [i].  On a full vector the old
    elements have been moved to the new array before the argument is read,
    so the new last element is what a move leaves behind of element [i];
    the first [size] elements are the old ones in both cases. *)
Theorem PushBack_of_own_element this i x w v :
  world_ok w → objs w !! this = Some v →
  contents w v !! N.to_nat i = Some x →
  (size_ v = capacity_ v → (2 * capacity_ v ≤ max_elems)%N) →
  ∃ w' v',
    run_op simple_vector_h (OpPushBack this (AElem this i)) w = Ok RUnit w' ∧
    objs w' !! this = Some v' ∧
    size_ v' = (size_ v + 1)%N ∧
    contents w' v'
    = contents w v ++
      [if (size_ v <? capacity_ v)%N then x else moved_from x].
Proof.
  intros Hok Hv Hx Hfit.
  destruct (world_ok_obj _ _ _ Hok Hv) as (Hsz & Hcap & Hd).
  pose proof (world_ok_fresh _ Hok) as Hfresh.
  pose proof (lookup_lt_Some _ _ _ Hx) as Hi.
  rewrite (length_contents _ this) in Hi by done.
  unfold contents, block_of in *.
  destruct (data_ v) as [l|] eqn:Hdv; [|by rewrite take_nil in Hx].
  destruct Hd as (Hnz & Hlt & b & Hb & Hlen).
  rewrite Hb in *. cbn [default from_option id] in *.
  apply lookup_take_Some in Hx as [Hx _].
  cbn [run_op bind_arg simple_vector_h i_index i_PushBack].
  unfold index, PushBack, PushBack_body.
  rewrite !bind_eq, (obj_Some _ _ _ Hv).
  unfold mret, M_ret.
  rewrite !bind_eq, (obj_Some _ _ _ Hv). rewrite Hdv. unfold ArrayPtr_index.
  destruct (N.leb_spec (capacity_ v) (size_ v)) as [Hfull|Hroom].
  - assert (size_ v = capacity_ v) as Heq by lia.
    destruct (N.ltb_spec (size_ v) (capacity_ v)) as [|_]; [lia|].
    fold (grown (capacity_ v)). rewrite grown_exact by done.
    replace (N.max 1 (2 * capacity_ v)) with (2 * capacity_ v)%N by lia.
    set (nc := (2 * capacity_ v)%N) in *.
    rewrite !bind_eq, ArrayPtr_new_Some by (specialize (Hfit Heq); lia).
    set (fresh := replicate (N.to_nat nc) new_slot).
    assert (length fresh = N.to_nat nc) as Hlf by apply length_replicate.
    unfold std_move, ArrayPtr_Get, ptr_add. cbn [blk off].
    rewrite !bind_eq, ptr_diff_same by lia.
    rewrite Nat.add_0_l, Nat.sub_0_r.
    rewrite (move_n_cross _ l (next w) 0 0 b fresh);
      [| lia | simpl; by rewrite lookup_insert_ne by lia
       | simpl; apply lookup_insert_eq | lia | lia].
    unfold set_heap; cbn [objs heap next drop].
    rewrite !bind_eq.
    rewrite (assign_copy_cross l (next w) _ _
               (list_inserts 0 (moved_from <$> take (N.to_nat (size_ v)) b) b)
               (list_inserts 0 (take (N.to_nat (size_ v)) b) fresh)
               (moved_from x)).
    2:{ cbn [heap]. rewrite lookup_insert_ne by lia. apply lookup_insert_eq. }
    2:{ cbn [heap]. apply lookup_insert_eq. }
    2:{ rewrite lookup_inserts_full, length_fmap, length_take.
        rewrite decide_True by lia.
        rewrite list_lookup_fmap, lookup_take_lt by lia.
        rewrite Nat.sub_0_r, Hx. done. }
    2:{ rewrite length_inserts. lia. }
    unfold set_heap; cbn [objs heap next].
    rewrite !bind_eq, (set_data_Some _ _ v) by done.
    rewrite bind_eq, (set_capacity_Some _ _ (mkVec (size_ v) (capacity_ v) (Some (next w))))
      by apply lookup_insert_eq.
    cbn [objs heap next size_ capacity_ data_].
    rewrite (ArrayPtr_delete_Some l (list_inserts 0
               (moved_from <$> take (N.to_nat (size_ v)) b) b)).
    2: { cbn [heap]. rewrite !lookup_insert_ne by lia. apply lookup_insert_eq. }
    rewrite bind_eq, (obj_Some _ (mkVec (size_ v) nc (Some (next w))))
      by (cbn [objs set_heap]; rewrite insert_insert_eq; apply lookup_insert_eq).
    rewrite ?bind_eq, (set_size_Some _ _ (mkVec (size_ v) nc (Some (next w))))
      by (cbn [objs set_heap]; rewrite insert_insert_eq; apply lookup_insert_eq).
    unfold set_heap.
    cbn [objs heap next size_ capacity_ data_].
    rewrite !insert_insert_eq. rewrite size_incr_exact by lia.
    eexists _, _. split; [reflexivity|]. cbn [objs heap].
    split; [apply lookup_insert_eq|]. cbn [size_ data_]. split; [done|].
    rewrite lookup_delete_ne by lia. rewrite lookup_insert_eq.
    cbn [default from_option id].
    replace (N.to_nat (size_ v + 1)) with (S (N.to_nat (size_ v))) by lia.
    apply take_pushed; lia.
  - destruct (N.ltb_spec (size_ v) (capacity_ v)) as [_|]; [|lia].
    rewrite !bind_eq.
    rewrite (assign_copy_cross l l _ _ b b x) by (done || lia).
    unfold set_heap; cbn [objs heap next].
    rewrite !bind_eq, (obj_Some _ v) by done.
    rewrite ?bind_eq, (set_size_Some _ _ v) by done.
    rewrite size_incr_exact by lia.
    eexists _, _. split; [reflexivity|]. cbn [objs heap].
    split; [apply lookup_insert_eq|]. cbn [size_ data_ capacity_].
    split; [done|]. rewrite Hdv, lookup_insert_eq. cbn [default from_option id].
    replace (N.to_nat (size_ v + 1)) with (S (N.to_nat (size_ v))) by lia.
    apply take_insert_snoc. lia.
Qed.

End own_elements.

(** ** Growth from construction *)

Section growth_policy.
Context {T : Type} `{!Elem T} `{!Platform}.
Implicit Types (w : world T) (v u : SimpleVector).

Import SimpleVectorH.

(** A run of [PushBack]s keeps the capacity zero for an empty vector
    without an array, or a power of two less than twice the size. *)
Lemma pushes_doubling this (xs : list T) w v :
  world_ok w → objs w !! this = Some v →
  (size_ v = 0 ∧ capacity_ v = 0 ∨
   ∃ k, capacity_ v = 2 ^ k ∧ size_ v ≤ 2 ^ k < 2 * size_ v)%N →
  (2 * (size_ v + N.of_nat (length xs)) ≤ max_elems)%N →
  ∃ w' v',
    run simple_vector_h (pushes this xs) w
    = Some (replicate (length xs) (Returned RUnit), w') ∧
    objs w' !! this = Some v' ∧
    size_ v' = (size_ v + N.of_nat (length xs))%N ∧
    contents w' v' = contents w v ++ xs ∧
    (size_ v' = 0 ∧ capacity_ v' = 0 ∨
     ∃ k, capacity_ v' = 2 ^ k ∧ size_ v' ≤ 2 ^ k < 2 * size_ v')%N.
Proof.
  revert w v. induction xs as [|x xs IH]; intros w v Hok Hv Hinv Hfit.
  - exists w, v. simpl. rewrite app_nil_r, N.add_0_r. by split_and!.
  - simpl length in Hfit.
    destruct (world_ok_obj _ _ _ Hok Hv) as (Hsz & _).
    destruct (push_statement this x w v Hok Hv) as
      (w1 & v1 & Hrun & Hok1 & Hv1 & Hs1 & Hc1 & Hcap1 & _).
    { apply grows_too_far_false; [|done]. lia. }
    destruct (IH w1 v1 Hok1 Hv1) as (w' & v' & Hrest & Hv' & Hs' & Hc' & Hinv');
      [|lia|].
    { right. rewrite Hs1, Hcap1.
      destruct Hinv as [[Hs0 Hc0]|(k & Hk & Hlo & Hhi)].
      - exists 0%N. rewrite Hs0, Hc0. cbn. lia.
      - destruct (N.eqb_spec (size_ v) (capacity_ v)) as [Heq|Hne].
        + exists (N.succ k). rewrite N.pow_succ_r', <- Hk. lia.
        + exists k. lia. }
    exists w', v'. split_and!.
    + by apply (run_cons_Ok _ _ _ _ w1).
    + done.
    + simpl length. lia.
    + by rewrite Hc', Hc1, <-(assoc_L (++)).
    + done.
Qed.

Lemma SimpleVector_default_None this w :
  objs w !! this = None →
  SimpleVector_default this w
  = Ok tt (World (<[this := mkVec 0 0 None]> (objs w)) (heap w) (next w)).
Proof.
  intros Hthis. unfold SimpleVector_default.
  by rewrite bind_eq, declare_None.
Qed.

(** X20.  A default-constructed vector has no elements, capacity 0 and no
    array.  After [n > 0] calls of [PushBack] on it the elements are the
    pushed values in order and the capacity is the least power of two that
    is at least [n]: the capacity goes 1, 2, 4, 8, ... *)
Theorem capacity_doubles_from_empty this (xs : list T) w :
  world_ok w → objs w !! this = None → xs ≠ [] →
  (2 * N.of_nat (length xs) ≤ max_elems)%N →
  ∃ w0 w' v' k,
    run_op simple_vector_h (OpDefault this) w = Ok RUnit w0 ∧
    objs w0 !! this = Some (mkVec 0 0 None) ∧
    run simple_vector_h (OpDefault this :: pushes this xs) w
    = Some (replicate (S (length xs)) (Returned RUnit), w') ∧
    objs w' !! this = Some v' ∧
    size_ v' = N.of_nat (length xs) ∧
    contents w' v' = xs ∧
    (capacity_ v' = 2 ^ k ∧
     N.of_nat (length xs) ≤ 2 ^ k < 2 * N.of_nat (length xs))%N.
Proof.
  intros Hok Hthis Hne Hfit.
  set (w0 := World (<[this := mkVec 0 0 None]> (objs w)) (heap w) (next w)).
  assert (run_op simple_vector_h (OpDefault this) w = Ok RUnit w0) as Hrun0.
  { change (run_op simple_vector_h (OpDefault this) w)
      with ((SimpleVector_default this;; (mret RUnit : M T (result T))) w).
    by rewrite bind_eq, SimpleVector_default_None. }
  assert (world_ok w0) as Hok0.
  { eapply SimpleVector_default_ok; [exact Hok|].
    by apply SimpleVector_default_None. }
  assert (objs w0 !! this = Some (mkVec 0 0 None)) as Hv0
    by apply lookup_insert_eq.
  destruct (pushes_doubling this xs w0 (mkVec 0 0 None) Hok0 Hv0)
    as (w' & v' & Hrun & Hv' & Hs' & Hc' & Hinv); cbn [size_ capacity_].
  { by left. }
  { lia. }
  cbn [size_] in Hs'. rewrite N.add_0_l in Hs'.
  assert (length xs ≠ 0) as Hlen by by destruct xs.
  destruct Hinv as [[Hz _]|(k & Hk & Hlo & Hhi)]; [lia|].
  exists w0, w', v', k. split_and!; try done.
  - cbn [replicate]. by apply (run_cons_Ok _ _ _ _ w0).
  - lia.
  - lia.
Qed.

(** X21.  [SimpleVector v(Reserve(n))] for a capacity the allocator can
    serve gives an empty vector of capacity [n]; pushing up to [n] values
    on it then never allocates again: the array is the one the constructor
    obtained, the capacity is [n], and the elements are the pushed values
    in order.  Beyond what the allocator can serve the constructor throws
    [bad_alloc] and leaves nothing behind. *)
Theorem reserved_vector_takes_pushes this n (xs : list T) w :
  world_ok w → objs w !! this = None →
  ((n ≤ max_elems)%N → (N.of_nat (length xs) ≤ n)%N →
   ∃ w0 w' v',
     run_op simple_vector_h (OpReserved this n) w = Ok RUnit w0 ∧
     objs w0 !! this
     = Some (mkVec 0 n (if (n =? 0)%N then None else Some (next w))) ∧
     run simple_vector_h (OpReserved this n :: pushes this xs) w
     = Some (replicate (S (length xs)) (Returned RUnit), w') ∧
     objs w' !! this = Some v' ∧
     data_ v' = (if (n =? 0)%N then None else Some (next w)) ∧
     capacity_ v' = n ∧
     size_ v' = N.of_nat (length xs) ∧
     contents w' v' = xs) ∧
  ((max_elems < n)%N →
   run_op simple_vector_h (OpReserved this n) w = Throw bad_alloc w).
Proof.
  intros Hok Hthis. split.
  - intros Hn Hlen.
    set (d := if (n =? 0)%N then None else Some (next w)).
    assert (∃ w0, SimpleVector_reserve this n w = Ok tt w0 ∧
                  objs w0 !! this = Some (mkVec 0 n d)) as (w0 & Hctor & Hv0).
    { unfold SimpleVector_reserve, d. rewrite bind_eq, declare_None by done.
      rewrite bind_eq. destruct (N.eqb_spec n 0) as [->|Hnz].
      - eexists. split; [reflexivity|]. apply lookup_insert_eq.
      - rewrite ArrayPtr_new_Some by done. eexists. split; [reflexivity|].
        apply lookup_insert_eq. }
    assert (run_op simple_vector_h (OpReserved this n) w = Ok RUnit w0) as Hrun0.
    { change (run_op simple_vector_h (OpReserved this n) w)
        with ((SimpleVector_reserve this n;; (mret RUnit : M T (result T))) w).
      by rewrite bind_eq, Hctor. }
    pose proof (SimpleVector_reserve_ok _ _ _ _ Hok Hctor) as Hok0.
    destruct (pushes_in_place this xs w0 (mkVec 0 n d) Hok0 Hv0)
      as (w' & v' & Hrun & Hv' & Hd' & Hcap' & Hs' & Hc'); cbn [size_ capacity_].
    { lia. }
    cbn [size_ capacity_ data_] in *.
    exists w0, w', v'. split_and!; try done.
    cbn [replicate]. by apply (run_cons_Ok _ _ _ _ w0).
  - intros Hn.
    change (run_op simple_vector_h (OpReserved this n) w)
      with ((SimpleVector_reserve this n;; (mret RUnit : M T (result T))) w).
    unfold SimpleVector_reserve.
    rewrite bind_eq, bind_eq, declare_None by done.
    by rewrite bind_eq, ArrayPtr_new_too_large.
Qed.

End growth_policy.

(** ** [Insert] at [end()] *)

Section insert_at_end.
Context {T : Type} `{!Elem T} `{!Platform}.
Implicit Types (w : world T) (v u : SimpleVector).

Import SimpleVectorH.

Lemma inserted_at_end mv this v x w :
  inserted mv this v (N.to_nat (size_ v)) (RVal x) x w
  = pushed mv this v (RVal x) x w.
Proof.
  unfold inserted, pushed. rewrite !consume_val, Nat.sub_diag.
  by destruct (size_ v <? capacity_ v)%N.
Qed.

(** X22.  On a well-formed vector [Insert(end(), x)] does what
    [PushBack(x)] does: both return and leave the same world, or both throw
    [bad_alloc] and leave the world as it was; the iterator [Insert]
    returns points to the new last element, which is [x]. *)
Theorem Insert_at_end_is_PushBack (mv : bool) this x w v :
  world_ok w → objs w !! this = Some v →
  match (if mv then PushBack_move else PushBack) this (RVal x) w with
  | Ok _ w' =>
      ∃ v', (if mv then Insert_move else Insert) this (end_of v) (RVal x) w
            = Ok (ptr_add (begin_of v') (N.to_nat (size_ v))) w' ∧
            objs w' !! this = Some v' ∧
            size_ v' = (size_ v + 1)%N ∧
            cell w' (ptr_add (begin_of v') (N.to_nat (size_ v))) = Some x
  | Throw e w' =>
      e = bad_alloc ∧ w' = w ∧
      (if mv then Insert_move else Insert) this (end_of v) (RVal x) w
      = Throw bad_alloc w
  | Undefined => False
  end.
Proof.
  intros Hok Hv.
  replace (if mv then PushBack_move else PushBack) with (PushBack_body (T:=T) mv)
    by by destruct mv.
  replace (if mv then Insert_move else Insert) with (InsertImpl (T:=T) mv)
    by by destruct mv.
  unfold end_of, begin_of, ArrayPtr_Get, ptr_add. cbn [blk off Nat.add].
  rewrite (PushBack_body_run mv this (RVal x) w v Hok Hv (elsewhere_val _ _ _)).
  rewrite (InsertImpl_run mv this _ (RVal x) w v Hok Hv (elsewhere_val _ _ _))
    by lia.
  destruct (grows_too_far v) eqn:Hfar; [done|].
  cbn [ref_value]. exists (added v (next w)).
  rewrite inserted_at_end. split_and!.
  - done.
  - apply objs_pushed.
  - apply added_size.
  - apply cell_contents. rewrite contents_pushed by done.
    rewrite lookup_app_r; rewrite (length_contents _ this) by done; [|lia].
    by rewrite Nat.sub_diag.
Qed.

End insert_at_end.

(** ** Unchecked access, and [Resize] down and up again *)

Section slots.
Context {T : Type} `{!Elem T} `{!Platform}.
Implicit Types (w : world T) (v u : SimpleVector).

Import SimpleVectorH.

(** X23.  [operator[]] checks nothing.  With an index below the capacity
    [v[i]] reads the slot [i] of the array and changes nothing, also when
    [i] is not below the size; with an index from the capacity on, reading
    or writing [v[i]] is undefined.  [At(i)] throws [out_of_range] for
    every index from the size on. *)
Theorem subscript_is_unchecked this i w v :
  world_ok w → objs w !! this = Some v →
  ((i < capacity_ v)%N →
   ∃ a, block_of w v !! N.to_nat i = Some a ∧
        run_op simple_vector_h (OpIndexGet this i) w = Ok (RElem a) w) ∧
  ((capacity_ v ≤ i)%N →
   run_op simple_vector_h (OpIndexGet this i) w = Undefined ∧
   ∀ a, run_op simple_vector_h (OpIndexSet this i a) w = Undefined) ∧
  ((size_ v ≤ i)%N →
   run_op simple_vector_h (OpAtGet this i) w = Throw out_of_range w).
Proof.
  intros Hok Hv.
  destruct (world_ok_obj _ _ _ Hok Hv) as (Hsz & Hcap & Hd).
  cbn [run_op simple_vector_h i_index i_At]. unfold index, At.
  rewrite !bind_eq, (obj_Some _ _ _ Hv). unfold ArrayPtr_index, block_of.
  split_and!.
  - intros Hi. destruct (data_ v) as [l|]; [|lia].
    destruct Hd as (_ & _ & b & Hb & Hlen). rewrite Hb.
    cbn [default from_option id].
    destruct (lookup_lt_is_Some_2 b (N.to_nat i)) as [a Ha]; [lia|].
    exists a. split; [done|]. unfold mret at 1, M_ret at 1.
    rewrite bind_eq, (load_Some _ a); [done|].
    unfold cell. cbn [blk off mbind option_bind]. by rewrite Hb.
  - intros Hi.
    assert (cell w (Ptr (data_ v) (N.to_nat i)) = None) as Hcell.
    { unfold cell. cbn [blk off]. destruct (data_ v) as [l|]; [|done].
      destruct Hd as (_ & _ & b & Hb & Hlen). cbn [mbind option_bind].
      rewrite Hb. cbn [mbind option_bind]. apply lookup_ge_None_2. lia. }
    unfold mret at 1, M_ret at 1. split.
    + by rewrite bind_eq, load_None.
    + intros a. rewrite bind_eq, bind_eq, (obj_Some _ _ _ Hv).
      unfold mret at 1, M_ret at 1. rewrite bind_eq.
      unfold store. cbn [blk off]. destruct (data_ v) as [l|]; [|done].
      destruct Hd as (_ & _ & b & Hb & Hlen). rewrite Hb.
      rewrite decide_False; [done | lia].
  - intros Hi. destruct (N.leb_spec (size_ v) i); [done | lia].
Qed.

(** X24.  [Resize(k)] down to [k <= size] followed by [Resize(n)] up to
    [n] within the capacity: both return, the vector keeps its array and
    its capacity, and its elements are the first [k] old ones followed by
    [n - k] default values: what a shrinking [Resize] cuts off does not
    come back. *)
Theorem Resize_down_then_up this k n w v :
  world_ok w → objs w !! this = Some v →
  (k ≤ size_ v)%N → (k ≤ n)%N → (n ≤ capacity_ v)%N →
  ∃ w1 w2 v2,
    Resize this k w = Ok tt w1 ∧
    Resize this n w1 = Ok tt w2 ∧
    objs w2 !! this = Some v2 ∧
    size_ v2 = n ∧ capacity_ v2 = capacity_ v ∧ data_ v2 = data_ v ∧
    contents w2 v2
    = take (N.to_nat k) (contents w v)
      ++ replicate (N.to_nat (n - k)) Type_default.
Proof.
  intros Hok Hv Hk Hkn Hn.
  destruct (Resize_shrink this k w v Hok Hv Hk) as (w1 & Hrun1 & Hv1 & Hc1).
  pose proof (Resize_ok _ _ _ _ Hok Hrun1) as Hok1.
  destruct (N.eq_dec k n) as [<-|Hne].
  - destruct (Resize_shrink this k w1 _ Hok1 Hv1) as (w2 & Hrun2 & Hv2 & Hc2);
      [done|].
    exists w1, w2, (mkVec k (capacity_ v) (data_ v)).
    split_and!; try done. cbn [capacity_ data_ size_] in Hc2.
    rewrite Hc2, Hc1, take_take, N.sub_diag. cbn [replicate N.to_nat].
    rewrite app_nil_r. f_equal. lia.
  - destruct (Resize_in_place this n w1 _ Hok1 Hv1)
      as (w2 & Hrun2 & Hv2 & Hc2); cbn [size_ capacity_]; [lia | lia |].
    exists w1, w2, (mkVec n (capacity_ v) (data_ v)).
    split_and!; try done. cbn [capacity_ data_ size_] in Hc2.
    by rewrite Hc2, Hc1.
Qed.

End slots.

(** ** simple_vector.h: [PushBack] and [Insert] with arguments that are
    references *)

Section references.
Context {T : Type} `{!Elem T} `{!Platform}.
Implicit Types (w : world T) (b : list T) (h : gmap loc (list T))
  (v u : SimpleVector) (r : ref T) (a : arg T).

Import SimpleVectorH.








End references.

(** ** Arrays after an insertion from the array itself *)

Section arrays_inserted.
Context {A : Type}.
Implicit Types (b old fresh : list A) (x y z : A) (i j k n : nat).


End arrays_inserted.

Section references_insert.
Context {T : Type} `{!Elem T} `{!Platform}.
Implicit Types (w : world T) (b : list T) (h : gmap loc (list T))
  (v u : SimpleVector) (r : ref T) (a : arg T).

Import SimpleVectorH.




End references_insert.

(** ** Worked examples *)

Section worked.
Local Existing Instance N_elem.
Local Existing Instance plat64.

Import SimpleVectorH.

Lemma three_pushes_run :
  run simple_vector_h three_pushes empty_world
  = Some (replicate 4 (Returned RUnit), after_three_pushes).
Proof. vm_compute. reflexivity. Qed.

Lemma after_three_pushes_ok : world_ok after_three_pushes.
Proof. eapply run_ok; [apply empty_world_ok | apply three_pushes_run]. Qed.

Lemma two_vectors_run :
  run simple_vector_h two_vectors_program empty_world
  = Some (replicate 2 (Returned RUnit), two_vectors).
Proof. vm_compute. reflexivity. Qed.

Lemma two_vectors_ok : world_ok two_vectors.
Proof. eapply run_ok; [apply empty_world_ok | apply two_vectors_run]. Qed.

(** C1 fails for move assignment.  After
    [SimpleVector<int> a{1, 2}; SimpleVector<int> b{5}; b = std::move(a);]
    the source [a] has size 0 and capacity 1, the capacity [b] had. *)
Lemma move_assignment_leaves_capacity :
  ∃ w w' a,
    run simple_vector_h two_vectors_program empty_world
    = Some (replicate 2 (Returned RUnit), w) ∧
    assign_move 1 0 w = Ok tt w' ∧
    objs w' !! 0 = Some a ∧
    size_ a = 0%N ∧ capacity_ a = 1%N ∧ capacity_ a ≠ 0%N.
Proof.
  exists two_vectors, (World {[0 := mkVec 0 1 (Some 1); 1 := mkVec 2 2 (Some 0)]}
                             {[0 := [1; 2]%N; 1 := [5]%N]} 2),
         (mkVec 0 1 (Some 1)).
  split_and!; [apply two_vectors_run | vm_compute; reflexivity | reflexivity
               | reflexivity | reflexivity | discriminate].
Qed.

(** C10 fails.  For [SimpleVector<int> v{1}; v.PushBack(v[0]);]
    simple_vector.h reads the argument while the old array is still alive
    and leaves the elements 1, 1 with capacity 2; part_001 has released the
    old array in [Reserve] before it reads the argument, which is undefined
    behaviour, so the program has no outcome. *)
Theorem part_001_reads_released_argument :
  run simple_vector_h push_own_element empty_world
  = Some (replicate 2 (Returned RUnit),
          World {[0 := mkVec 2 2 (Some 1)]} {[1 := [1; 1]%N]} 2) ∧
  run part_001 push_own_element empty_world = None.
Proof. split; vm_compute; reflexivity. Qed.

Lemma move_transfers_buffer_witness :
  (∃ w', SimpleVector_move 2 0 two_vectors = Ok tt w' ∧
         objs w' !! 0 = Some (mkVec 0 0 None) ∧
         objs w' !! 2 = Some (mkVec 2 2 (Some 0)) ∧
         heap w' = heap two_vectors ∧
         contents w' (mkVec 2 2 (Some 0))
         = contents two_vectors (mkVec 2 2 (Some 0))) ∧
  (∃ w', assign_move 1 0 two_vectors = Ok tt w' ∧
         objs w' !! 0 = Some (mkVec 0 1 (Some 1)) ∧
         objs w' !! 1 = Some (mkVec 2 2 (Some 0)) ∧
         heap w' = heap two_vectors ∧
         contents w' (mkVec 2 2 (Some 0))
         = contents two_vectors (mkVec 2 2 (Some 0))) ∧
  assign_move 0 0 two_vectors = Ok tt two_vectors.
Proof.
  apply (move_transfers_buffer 2 1 0 two_vectors
           (mkVec 1 1 (Some 1)) (mkVec 2 2 (Some 0)));
    [reflexivity | reflexivity | reflexivity | discriminate].
Defined.


Lemma Resize_three_cases_witness :
  ∃ w' v',
    Resize 0 6 after_three_pushes = Ok tt w' ∧
    objs w' !! 0 = Some v' ∧
    size_ v' = 6%N ∧
    ((6 ≤ 3)%N →
       capacity_ v' = 4%N ∧ contents w' v' = take 6 [1; 2; 3]%N) ∧
    ((3 < 6)%N → (6 ≤ 4)%N →
       capacity_ v' = 4%N ∧
       contents w' v' = [1; 2; 3]%N ++ replicate 3 0%N) ∧
    ((4 < 6)%N →
       capacity_ v' = 8%N ∧
       contents w' v' = [1; 2; 3]%N ++ replicate 3 0%N).
Proof.
  assert ((capacity_ three_elements < 6)%N →
          (N.max 6 (2 * capacity_ three_elements) ≤ max_elems)%N) as Hfit
    by (intros _; discriminate).
  exact (Resize_three_cases 0 6 after_three_pushes three_elements
           after_three_pushes_ok eq_refl Hfit).
Defined.

Lemma At_checks_index_witness :
  (∀ e w', At 0 3 after_three_pushes = Throw e w' ↔
           (3 ≤ 3)%N ∧ e = out_of_range ∧ w' = after_three_pushes) ∧
  ((3 < 3)%N →
   ∃ p x, At 0 3 after_three_pushes = Ok p after_three_pushes ∧
          cell after_three_pushes p = Some x ∧
          contents after_three_pushes three_elements !! 3 = Some x).
Proof.
  apply (At_checks_index 0 3 after_three_pushes three_elements);
    [apply after_three_pushes_ok | reflexivity].
Defined.

Lemma Clear_keeps_buffer_witness :
  ∃ w' v',
    Clear 0 after_three_pushes = Ok tt w' ∧
    objs w' !! 0 = Some v' ∧
    size_ v' = 0%N ∧
    capacity_ v' = 4%N ∧
    data_ v' = Some 2 ∧
    heap w' = heap after_three_pushes ∧
    block_of w' v' = [1; 2; 3; 0]%N ∧
    ∀ y, y ≠ 0 → objs w' !! y = objs after_three_pushes !! y.
Proof.
  apply (Clear_keeps_buffer 0 after_three_pushes three_elements). reflexivity.
Defined.

Lemma size_within_capacity_witness : (3 ≤ 4)%N.
Proof.
  apply (size_within_capacity three_pushes (replicate 4 (Returned RUnit))
           after_three_pushes 0 three_elements);
    [apply three_pushes_run | reflexivity].
Defined.

Lemma copy_is_independent_witness :
  ∃ w1 c,
    SimpleVector_copy 1 0 after_three_pushes = Ok tt w1 ∧
    objs w1 !! 1 = Some c ∧
    contents w1 c = [1; 2; 3]%N ∧
    size_ c = 3%N ∧
    capacity_ c = size_ c ∧
    objs w1 !! 0 = Some three_elements ∧
    contents w1 three_elements = [1; 2; 3]%N ∧
    ∀ p tr w2,
      Forall (λ o, names 0 o = false) p →
      run simple_vector_h p w1 = Some (tr, w2) →
      objs w2 !! 0 = Some three_elements ∧
      contents w2 three_elements = [1; 2; 3]%N.
Proof.
  apply (copy_is_independent 1 0 after_three_pushes three_elements);
    [apply after_three_pushes_ok | reflexivity | reflexivity].
Defined.

End worked.

(** ** Further worked examples *)

Section further_examples.
Local Existing Instance N_elem.
Local Existing Instance plat64.
Local Existing Instance N_comparison.

Import SimpleVectorH.

Lemma N_total_order : total_order (T:=N).
Proof.
  split_and!; cbn [elem_eq elem_lt N_comparison].
  - intros x y. apply N.eqb_eq.
  - intros x. apply N.ltb_irrefl.
  - intros x y Hlt%N.ltb_lt. apply N.ltb_ge. lia.
  - intros x y Hne. rewrite !N.ltb_lt. lia.
Qed.

Lemma Reserve_keeps_elements_witness :
  ∃ w' v',
    Reserve 0 10 after_three_pushes = Ok tt w' ∧
    objs w' !! 0 = Some v' ∧
    size_ v' = 3%N ∧
    capacity_ v' = 10%N ∧
    contents w' v' = [1; 2; 3]%N ∧
    ((10 ≤ 4)%N → w' = after_three_pushes).
Proof.
  apply (Reserve_keeps_elements 0 10 after_three_pushes three_elements);
    [apply after_three_pushes_ok | reflexivity | discriminate].
Defined.

Lemma PopBack_drops_last_witness :
  ∃ w' v',
    PopBack 0 after_three_pushes = Ok tt w' ∧
    objs w' !! 0 = Some v' ∧
    size_ v' = 2%N ∧
    capacity_ v' = 4%N ∧
    data_ v' = Some 2 ∧
    heap w' = heap after_three_pushes ∧
    contents w' v' = [1; 2]%N.
Proof.
  apply (PopBack_drops_last 0 after_three_pushes three_elements);
    [apply after_three_pushes_ok | reflexivity | discriminate].
Defined.

Lemma Erase_removes_one_witness :
  ∃ w' v',
    Erase 0 (Ptr (Some 2) 1) after_three_pushes = Ok (Ptr (Some 2) 1) w' ∧
    objs w' !! 0 = Some v' ∧
    size_ v' = 2%N ∧
    capacity_ v' = 4%N ∧
    data_ v' = Some 2 ∧
    contents w' v' = [1; 3]%N.
Proof.
  apply (Erase_removes_one 0 1 after_three_pushes three_elements);
    [apply after_three_pushes_ok | reflexivity | vm_compute; lia].
Defined.

Lemma swap_exchanges_witness :
  ∃ w',
    swap 0 1 two_vectors = Ok tt w' ∧
    objs w' !! 0 = Some (mkVec 1 1 (Some 1)) ∧
    objs w' !! 1 = Some (mkVec 2 2 (Some 0)) ∧
    heap w' = heap two_vectors ∧
    contents w' (mkVec 1 1 (Some 1)) = [5]%N ∧
    contents w' (mkVec 2 2 (Some 0)) = [1; 2]%N ∧
    (∀ y, y ≠ 0 → y ≠ 1 → objs w' !! y = objs two_vectors !! y) ∧
    swap 0 1 w' = Ok tt two_vectors.
Proof.
  apply (swap_exchanges 0 1 two_vectors (mkVec 2 2 (Some 0)) (mkVec 1 1 (Some 1)));
    [discriminate | reflexivity | reflexivity].
Defined.

Lemma copy_assignment_replaces_witness :
  ∃ w' c,
    assign_copy 1 0 two_vectors = Ok tt w' ∧
    objs w' !! 1 = Some c ∧
    size_ c = 2%N ∧
    capacity_ c = 2%N ∧
    contents w' c = [1; 2]%N ∧
    objs w' !! 0 = Some (mkVec 2 2 (Some 0)) ∧
    contents w' (mkVec 2 2 (Some 0)) = [1; 2]%N ∧
    dom (objs w') = dom (objs two_vectors) ∧
    ∀ l, Some 1 = Some l → heap w' !! l = None.
Proof.
  apply (copy_assignment_replaces 1 0 two_vectors
           (mkVec 1 1 (Some 1)) (mkVec 2 2 (Some 0)));
    [apply two_vectors_ok | discriminate | reflexivity | reflexivity].
Defined.

Lemma statement_throws_cleanly_witness :
  exception_of (OpAtGet (T:=N) 0 5) = Some out_of_range ∧
  after_three_pushes = after_three_pushes.
Proof.
  apply (statement_throws_cleanly (OpAtGet 0 5) after_three_pushes
           out_of_range after_three_pushes).
  vm_compute. reflexivity.
Defined.

Lemma sized_constructors_fill_witness :
  (∃ w' v,
     SimpleVector_fill 5 3 7%N after_three_pushes = Ok tt w' ∧
     objs w' !! 5 = Some v ∧ size_ v = 3%N ∧ capacity_ v = 3%N ∧
     contents w' v = [7; 7; 7]%N) ∧
  (∃ w' v,
     SimpleVector_size 5 3 after_three_pushes = Ok tt w' ∧
     objs w' !! 5 = Some v ∧ size_ v = 3%N ∧ capacity_ v = 3%N ∧
     contents w' v = [0; 0; 0]%N).
Proof.
  refine (proj1 (sized_constructors_fill 5 3 7%N after_three_pushes _) _);
    [reflexivity | discriminate].
Defined.

Lemma initializer_list_constructor_witness :
  ∃ w' v,
    SimpleVector_init 5 [4; 5; 6]%N after_three_pushes = Ok tt w' ∧
    objs w' !! 5 = Some v ∧
    size_ v = 3%N ∧
    capacity_ v = 3%N ∧
    contents w' v = [4; 5; 6]%N.
Proof.
  apply (initializer_list_constructor 5 [4; 5; 6]%N after_three_pushes);
    [reflexivity | discriminate].
Defined.

Lemma pushes_within_capacity_witness :
  ∃ w' v',
    run simple_vector_h (pushes 0 [9]%N) after_three_pushes
    = Some ([Returned RUnit], w') ∧
    objs w' !! 0 = Some v' ∧
    data_ v' = Some 2 ∧
    capacity_ v' = 4%N ∧
    size_ v' = 4%N ∧
    contents w' v' = [1; 2; 3; 9]%N.
Proof.
  apply (pushes_within_capacity 0 [9]%N after_three_pushes three_elements);
    [apply after_three_pushes_ok | reflexivity | discriminate].
Defined.

Lemma pushes_append_witness :
  ∃ w' v',
    run simple_vector_h (pushes 0 [9; 8]%N) after_three_pushes
    = Some ([Returned RUnit; Returned RUnit], w') ∧
    objs w' !! 0 = Some v' ∧
    size_ v' = 5%N ∧
    (4 ≤ capacity_ v')%N ∧
    contents w' v' = [1; 2; 3; 9; 8]%N.
Proof.
  apply (pushes_append 0 [9; 8]%N after_three_pushes three_elements);
    [apply after_three_pushes_ok | reflexivity | discriminate].
Defined.

Lemma PopBack_undoes_PushBack_witness :
  ∃ w1 w2 v2,
    PushBack 0 (RVal 9%N) after_three_pushes = Ok tt w1 ∧
    PopBack 0 w1 = Ok tt w2 ∧
    objs w2 !! 0 = Some v2 ∧
    size_ v2 = 3%N ∧
    (4 ≤ capacity_ v2)%N ∧
    contents w2 v2 = [1; 2; 3]%N.
Proof.
  apply (PopBack_undoes_PushBack false 0 9%N after_three_pushes three_elements);
    [apply after_three_pushes_ok | reflexivity | discriminate].
Defined.

Lemma element_write_witness :
  ∃ p w',
    index 0 1 after_three_pushes = Ok p after_three_pushes ∧
    At 0 1 after_three_pushes = Ok p after_three_pushes ∧
    store p 7%N after_three_pushes = Ok tt w' ∧
    objs w' = objs after_three_pushes ∧
    contents w' three_elements = [1; 7; 3]%N ∧
    load p w' = Ok 7%N w' ∧
    ∀ y u, y ≠ 0 → objs after_three_pushes !! y = Some u →
           contents w' u = contents after_three_pushes u.
Proof.
  apply (element_write 0 1 7%N after_three_pushes three_elements);
    [apply after_three_pushes_ok | reflexivity | reflexivity].
Defined.

Lemma buffers_are_owned_once_witness :
  (∀ x v, objs after_three_pushes !! x = Some v →
     match data_ v with
     | None => capacity_ v = 0%N
     | Some l => capacity_ v ≠ 0%N ∧
         ∃ b, heap after_three_pushes !! l = Some b ∧
              length b = N.to_nat (capacity_ v)
     end) ∧
  (∀ x y vx vy l,
     objs after_three_pushes !! x = Some vx →
     objs after_three_pushes !! y = Some vy →
     data_ vx = Some l → data_ vy = Some l → x = y) ∧
  no_leak after_three_pushes.
Proof.
  apply (buffers_are_owned_once three_pushes (replicate 4 (Returned RUnit))
           after_three_pushes).
  apply three_pushes_run.
Defined.

Lemma equality_compares_elements_witness :
  ∃ r, Operators.eq 0 1 two_vectors = Ok r two_vectors ∧
       Operators.ne 0 1 two_vectors = Ok (negb r) two_vectors ∧
       (r = true ↔ Forall2 (λ x y, elem_eq x y = true) [1; 2]%N [5]%N).
Proof.
  apply (equality_compares_elements 0 1 two_vectors
           (mkVec 2 2 (Some 0)) (mkVec 1 1 (Some 1)));
    [apply two_vectors_ok | reflexivity | reflexivity].
Defined.

Lemma less_is_lexicographic_witness :
  ∃ r, Operators.lt 0 1 two_vectors = Ok r two_vectors ∧
       (r = true ↔
        (∃ y k', [5]%N = [1; 2]%N ++ y :: k') ∨
        (∃ p x y l' k', [1; 2]%N = p ++ x :: l' ∧
                        [5]%N = p ++ y :: k' ∧
                        elem_lt x y = true)).
Proof.
  apply (less_is_lexicographic 0 1 two_vectors
           (mkVec 2 2 (Some 0)) (mkVec 1 1 (Some 1)));
    [apply N_total_order | apply two_vectors_ok | reflexivity | reflexivity].
Defined.

Lemma comparisons_are_consistent_witness :
  ∃ less equal greater,
    Operators.lt 0 1 two_vectors = Ok less two_vectors ∧
    Operators.eq 0 1 two_vectors = Ok equal two_vectors ∧
    Operators.gt 0 1 two_vectors = Ok greater two_vectors ∧
    Operators.le 0 1 two_vectors = Ok (less || equal) two_vectors ∧
    Operators.ge 0 1 two_vectors = Ok (greater || equal) two_vectors ∧
    (equal = true ↔ [1; 2]%N = [5]%N) ∧
    ((less = true ∧ equal = false ∧ greater = false) ∨
     (less = false ∧ equal = true ∧ greater = false) ∨
     (less = false ∧ equal = false ∧ greater = true)).
Proof.
  apply (comparisons_are_consistent 0 1 two_vectors
           (mkVec 2 2 (Some 0)) (mkVec 1 1 (Some 1)));
    [apply N_total_order | apply two_vectors_ok | reflexivity | reflexivity].
Defined.

Lemma mutation_keeps_or_replaces_array_witness :
  ∃ v', objs four_elements !! 0 = Some v' ∧
    (data_ v' = Some 2 ∧ capacity_ v' = 4%N ∧
     begin 0 four_elements = Ok (Ptr (Some 2) 0) four_elements
     ∨
     data_ v' = Some 3 ∧ heap after_three_pushes !! 3 = None ∧
     ∀ l i, Some 2 = Some l → load (Ptr (Some l) i) four_elements = Undefined).
Proof.
  apply (mutation_keeps_or_replaces_array (OpPushBack 0 (AVal 4%N)) 0
           after_three_pushes three_elements RUnit four_elements);
    [apply after_three_pushes_ok | reflexivity | reflexivity
     | vm_compute; reflexivity].
Defined.

Lemma destructor_releases_array_witness :
  ∃ w', destroy 0 after_three_pushes = Ok tt w' ∧
    objs w' = delete 0 (objs after_three_pushes) ∧
    heap w' = delete 2 (heap after_three_pushes) ∧
    (∀ l, Some 2 = Some l →
          is_Some (heap after_three_pushes !! l) ∧ heap w' !! l = None) ∧
    (∀ y u, y ≠ 0 → objs after_three_pushes !! y = Some u →
            untouched y u after_three_pushes w') ∧
    world_ok w' ∧
    (no_leak after_three_pushes → no_leak w').
Proof.
  exact (destructor_releases_array 0 after_three_pushes after_three_pushes_ok).
Defined.

Lemma PushBack_of_own_element_witness :
  ∃ w' v',
    run_op simple_vector_h (OpPushBack 0 (AElem 0 0)) two_vectors
    = Ok RUnit w' ∧
    objs w' !! 0 = Some v' ∧
    size_ v' = 3%N ∧
    contents w' v' = [1; 2; 1]%N.
Proof.
  refine (PushBack_of_own_element 0 0 1%N two_vectors (mkVec 2 2 (Some 0))
            two_vectors_ok _ _ _);
    [reflexivity | reflexivity | intros _; discriminate].
Defined.

Lemma capacity_doubles_from_empty_witness :
  ∃ w0 w' v' k,
    run_op simple_vector_h (OpDefault 5) after_three_pushes = Ok RUnit w0 ∧
    objs w0 !! 5 = Some (mkVec 0 0 None) ∧
    run simple_vector_h (OpDefault 5 :: pushes 5 [7; 8; 9]%N) after_three_pushes
    = Some (replicate 4 (Returned RUnit), w') ∧
    objs w' !! 5 = Some v' ∧
    size_ v' = 3%N ∧
    contents w' v' = [7; 8; 9]%N ∧
    (capacity_ v' = 2 ^ k ∧ 3 ≤ 2 ^ k < 2 * 3)%N.
Proof.
  apply (capacity_doubles_from_empty 5 [7; 8; 9]%N after_three_pushes);
    [apply after_three_pushes_ok | reflexivity | discriminate | discriminate].
Defined.

Lemma reserved_vector_takes_pushes_witness :
  ∃ w0 w' v',
    run_op simple_vector_h (OpReserved 5 4) after_three_pushes = Ok RUnit w0 ∧
    objs w0 !! 5 = Some (mkVec 0 4 (Some 3)) ∧
    run simple_vector_h (OpReserved 5 4 :: pushes 5 [7; 8]%N) after_three_pushes
    = Some (replicate 3 (Returned RUnit), w') ∧
    objs w' !! 5 = Some v' ∧
    data_ v' = Some 3 ∧
    capacity_ v' = 4%N ∧
    size_ v' = 2%N ∧
    contents w' v' = [7; 8]%N.
Proof.
  apply (reserved_vector_takes_pushes 5 4 [7; 8]%N after_three_pushes);
    [apply after_three_pushes_ok | reflexivity | discriminate | discriminate].
Defined.

Lemma Insert_at_end_is_PushBack_witness :
  ∃ v', Insert 0 (Ptr (Some 2) 3) (RVal 4%N) after_three_pushes
        = Ok (ptr_add (begin_of v') 3) four_elements ∧
        objs four_elements !! 0 = Some v' ∧
        size_ v' = 4%N ∧
        cell four_elements (ptr_add (begin_of v') 3) = Some 4%N.
Proof.
  exact (Insert_at_end_is_PushBack false 0 4%N after_three_pushes
           three_elements after_three_pushes_ok eq_refl).
Defined.

Lemma subscript_is_unchecked_witness :
  ((3 < 4)%N →
   ∃ a, [1; 2; 3; 0]%N !! 3 = Some a ∧
        run_op simple_vector_h (OpIndexGet 0 3) after_three_pushes
        = Ok (RElem a) after_three_pushes) ∧
  ((4 ≤ 3)%N →
   run_op simple_vector_h (OpIndexGet 0 3) after_three_pushes = Undefined ∧
   ∀ a, run_op simple_vector_h (OpIndexSet 0 3 a) after_three_pushes
        = Undefined) ∧
  ((3 ≤ 3)%N →
   run_op simple_vector_h (OpAtGet 0 3) after_three_pushes
   = Throw out_of_range after_three_pushes).
Proof.
  apply (subscript_is_unchecked 0 3 after_three_pushes three_elements);
    [apply after_three_pushes_ok | reflexivity].
Defined.

Lemma Resize_down_then_up_witness :
  ∃ w1 w2 v2,
    Resize 0 1 after_three_pushes = Ok tt w1 ∧
    Resize 0 3 w1 = Ok tt w2 ∧
    objs w2 !! 0 = Some v2 ∧
    size_ v2 = 3%N ∧ capacity_ v2 = 4%N ∧ data_ v2 = Some 2 ∧
    contents w2 v2 = [1; 0; 0]%N.
Proof.
  refine (Resize_down_then_up 0 1 3 after_three_pushes three_elements
            after_three_pushes_ok _ _ _ _);
    [reflexivity | discriminate | discriminate | discriminate].
Defined.

Lemma part_001_agrees_on_foreign_arguments_witness :
  run part_001 three_pushes empty_world
  = run simple_vector_h three_pushes empty_world.
Proof.
  apply (part_001_agrees_on_foreign_arguments three_pushes).
  repeat constructor.
Defined.

End further_examples.

(** ** Worked examples with arguments that are references *)

Section reference_examples.
Local Existing Instance N_elem.
Local Existing Instance plat64.

Import SimpleVectorH.




End reference_examples.

Section string_examples.
Local Existing Instance string_elem.
Local Existing Instance plat64.

Import SimpleVectorH.


End string_examples.
